(** * mlb-predictor: the pitch intelligence engine of [pollGame.js]

    A shallow embedding of the engine of [src/pollGame.js] (the block that
    starts at line 37 of that file) and the properties proved about it.

    Conventions of the embedding.
    - A JavaScript number that carries a measurement or a share is a
      rational [Q]: the arithmetic of the engine ([+], [-], [*], [/] by a
      divisor the code has checked to be non-zero) is modelled exactly, with
      no rounding.  The two functions of which a property at an exact
      threshold, or between scores that can be equal, is stated
      ([detectTunnel] and [getBatterVsPitchProfile]) are embedded again on
      binary64 numbers, in the module [Binary64].  Counters and indices are
      integers [Z].
    - [null] and [undefined] are both [None]; the engine only ever tests them
      with [??], [?.], [!= null] and truthiness, which do not tell them apart.
    - A string is a [string] of ASCII characters.
    - The module-level [let] variables of the script are the fields of one
      record [Stores]; a function that reads or writes them is a computation
      in the monad [M], which threads the stores and may end in a
      [TypeError], the only exception the modelled code can raise.
    - Console output is not modelled. *)

From Stdlib Require Import QArith Qabs Lqa ZArith String Ascii List Bool Lia.
From Stdlib Require Floats.
From stdpp Require Import gmap strings pretty.
Import ListNotations.

Open Scope Q_scope.
Open Scope string_scope.

(** ** Numbers *)

(** [a < b], [a > b], [a >= b] and [a <= b] on numbers, as booleans. *)
Definition Qltb (a b : Q) : bool := negb (Qle_bool b a).
Definition Qgtb (a b : Q) : bool := Qltb b a.
Definition Qgeb (a b : Q) : bool := Qle_bool b a.

(** A comparison against a missing operand is false. *)
Definition oQgtb (a b : option Q) : bool :=
  match a, b with Some x, Some y => Qgtb x y | _, _ => false end.
Definition oQltb (a b : option Q) : bool :=
  match a, b with Some x, Some y => Qltb x y | _, _ => false end.

(** [x ?? d] *)
Definition orElse {A : Type} (x : option A) (d : A) : A :=
  match x with Some v => v | None => d end.
Infix "??" := orElse (at level 45, left associativity).

(** [x ?? y ?? ...] where the alternative may itself be missing. *)
Definition orElseO {A : Type} (x y : option A) : option A :=
  match x with Some v => Some v | None => y end.

(** ** Strings *)

Definition upper_ascii (a : ascii) : ascii :=
  let n := N_of_ascii a in
  if ((97 <=? n) && (n <=? 122))%N then ascii_of_N (n - 32) else a.

Definition lower_ascii (a : ascii) : ascii :=
  let n := N_of_ascii a in
  if ((65 <=? n) && (n <=? 90))%N then ascii_of_N (n + 32) else a.

Fixpoint map_string (f : ascii -> ascii) (s : string) : string :=
  match s with
  | EmptyString => EmptyString
  | String a s' => String (f a) (map_string f s')
  end.

Definition toUpperCase : string -> string := map_string upper_ascii.
Definition toLowerCase : string -> string := map_string lower_ascii.

(** [s.startsWith(p)] *)
Definition startsWith (s p : string) : bool := String.prefix p s.

(** [s.includes(sub)]: [sub] occurs somewhere in [s]. *)
Fixpoint includes (s sub : string) : bool :=
  String.prefix sub s ||
  match s with
  | EmptyString => false
  | String _ s' => includes s' sub
  end.

(** [arr.includes(x)] on an array of strings. *)
Definition arrIncludes (arr : list string) (x : string) : bool :=
  existsb (String.eqb x) arr.

(** Truthiness of a string that may be missing: [""] is falsy. *)
Definition truthy (s : option string) : bool :=
  match s with
  | None => false
  | Some s => negb (String.eqb s "")
  end.

(** ** Pitch families and family mixes *)

Inductive Family : Type := fastball | breaking | change.

#[global] Instance Family_eq_dec : EqDecision Family.
Proof. solve_decision. Defined.

Definition families : list Family := [fastball; breaking; change].

(** An object with the three keys [fastball], [breaking], [change], in that
    insertion order. *)
Record Mix : Type := mkMix {
  m_fastball : Q;
  m_breaking : Q;
  m_change : Q;
}.

Definition mixGet (m : Mix) (fam : Family) : Q :=
  match fam with
  | fastball => m_fastball m
  | breaking => m_breaking m
  | change => m_change m
  end.

Definition mixSet (m : Mix) (fam : Family) (v : Q) : Mix :=
  match fam with
  | fastball => mkMix v (m_breaking m) (m_change m)
  | breaking => mkMix (m_fastball m) v (m_change m)
  | change => mkMix (m_fastball m) (m_breaking m) v
  end.

(** [m[fam] += d] *)
Definition mixAdd (m : Mix) (fam : Family) (d : Q) : Mix :=
  mixSet m fam (mixGet m fam + d).

(** [Object.values(obj).reduce((a, b) => a + b, 0)] *)
Definition mixSum (m : Mix) : Q :=
  0 + m_fastball m + m_breaking m + m_change m.

(** [normalize]: every share divided by the sum of the shares, the sum
    replaced by 1 when it is zero.  No share is clamped.  (In exact
    arithmetic the result sums to exactly 1; the engine's sums to 1 up to
    rounding.) *)
Definition normalize (obj : Mix) : Mix :=
  let s := if Qeq_bool (mixSum obj) 0 then 1 else mixSum obj in
  mkMix (m_fastball obj / s) (m_breaking obj / s) (m_change obj / s).

Definition leaguePitchMixByCount : list (string * Mix) :=
  [ ("0-0", mkMix 0.63 0.25 0.12);
    ("0-1", mkMix 0.55 0.3 0.15);
    ("0-2", mkMix 0.4 0.43 0.17);
    ("1-0", mkMix 0.7 0.2 0.1);
    ("1-1", mkMix 0.58 0.3 0.12);
    ("1-2", mkMix 0.42 0.45 0.13);
    ("2-0", mkMix 0.72 0.18 0.1);
    ("2-1", mkMix 0.6 0.28 0.12);
    ("2-2", mkMix 0.5 0.38 0.12);
    ("3-0", mkMix 0.85 0.1 0.05);
    ("3-1", mkMix 0.75 0.15 0.1);
    ("3-2", mkMix 0.7 0.2 0.1) ].

(** [table[key]] on an object used as a string-keyed table. *)
Fixpoint tableGet {A : Type} (table : list (string * A)) (key : string)
  : option A :=
  match table with
  | [] => None
  | (k, v) :: rest => if String.eqb k key then Some v else tableGet rest key
  end.

(** The template literal [`${balls}-${strikes}`]. *)
Definition countKey (balls strikes : Z) : string :=
  pretty balls ++ "-" ++ pretty strikes.

(** ** Pitch family mapping *)

(** Normalize some codes to preferences. *)
Definition normalizedCode (c : string) : string :=
  if String.eqb c "FT" then "SI" else if String.eqb c "ST" then "SW" else c.

Definition mapPitchCodeToBucket (code : option string) : option Family :=
  if negb (truthy code) then None
  else
    let c := toUpperCase (code ?? "") in
    let normalized := normalizedCode c in
    if arrIncludes ["FF"; "FT"; "SI"; "FC"; "FA"] normalized then Some fastball
    else if arrIncludes ["FS"] normalized then Some change
    else if arrIncludes ["CH"; "SF"; "FO"; "SC"] normalized then Some change
    else if arrIncludes ["SL"; "CU"; "KC"; "KN"; "SV"; "ST"; "SW"] normalized
    then Some breaking
    else Some fastball.

(** The codes the classifier names, each with the family its list stands
    for. *)
Definition knownCodes : list (string * Family) :=
  [ ("FF", fastball); ("FT", fastball); ("SI", fastball); ("FC", fastball);
    ("FA", fastball);
    ("FS", change); ("CH", change); ("SF", change); ("FO", change);
    ("SC", change);
    ("SL", breaking); ("CU", breaking); ("KC", breaking); ("KN", breaking);
    ("SV", breaking); ("ST", breaking); ("SW", breaking) ].

(** ** The game feed *)

(** [pitch.pitchData.coordinates] *)
Record StatcastCoordinates : Type := {
  sc_pX : option Q;
  sc_pZ : option Q;
}.

Record PitchData : Type := {
  pd_coordinates : option StatcastCoordinates;
  pd_strikeZoneTop : option Q;
  pd_strikeZoneBottom : option Q;
  pd_startSpeed : option Q;
  pd_pitchNumber : option Z;
}.

(** [pitch.details.coordinates] *)
Record DetailCoordinates : Type := {
  dc_px : option Q;
  dc_pz : option Q;
  dc_strikeZoneTop : option Q;
  dc_strikeZoneBottom : option Q;
}.

Record Details : Type := {
  d_typeCode : option string;        (* details.type?.code *)
  d_description : option string;
  d_isInPlay : bool;                 (* a missing flag is falsy *)
  d_coordinates : option DetailCoordinates;
  d_startSpeed : option Q;
  d_pitchNumber : option Z;
}.

Record Breaks : Type := {
  breakHorizontal : option Q;
  breakVerticalInduced : option Q;
  breakAngle : option Q;
  breakLength : option Q;
}.

Record Count : Type := {
  c_balls : option Z;
  c_strikes : option Z;
}.

Record PitchEvent : Type := {
  ev_pitchNumber : option Z;
  ev_details : option Details;
  ev_pitchData : option PitchData;
  ev_breaks : option Breaks;
  ev_count : option Count;
  ev_launchSpeed : option Q;         (* hitData?.launchSpeed, when a number *)
  ev_isPitch : bool;
}.

Record About : Type := {
  atBatIndex : option Z;
  ab_inning : Z;
  ab_halfInning : string;
}.

Record Matchup : Type := {
  mu_pitcherId : Z;
  mu_batterId : Z;
  mu_pitchHand : option string;      (* pitchHand?.code *)
  mu_batSide : option string;        (* batSide?.code *)
}.

Record Play : Type := {
  p_about : About;
  p_matchup : Matchup;
  p_runners : option (list Z);       (* the startingBase of each runner *)
  p_event : option string;           (* result?.event *)
  p_eventType : option string;       (* result?.eventType *)
  p_playEvents : list PitchEvent;
}.

(** [game.liveData.plays.allPlays] *)
Record Game : Type := {
  allPlays : list Play;
}.

(** The optional chains the engine keeps repeating. *)
Definition typeCode (pitch : PitchEvent) : option string :=
  match ev_details pitch with Some d => d_typeCode d | None => None end.

Definition description (pitch : PitchEvent) : option string :=
  match ev_details pitch with Some d => d_description d | None => None end.

Definition detailsIsInPlay (pitch : PitchEvent) : bool :=
  match ev_details pitch with Some d => d_isInPlay d | None => false end.

(** [pitch.pitchData?.startSpeed ?? pitch.details?.startSpeed ?? null] *)
Definition startSpeed (pitch : PitchEvent) : option Q :=
  orElseO (match ev_pitchData pitch with Some d => pd_startSpeed d | None => None end)
          (match ev_details pitch with Some d => d_startSpeed d | None => None end).

(** [pitch.pitchNumber ?? pitch.details?.pitchNumber ??
     pitch.pitchData?.pitchNumber] *)
Definition anyPitchNumber (pitch : PitchEvent) : option Z :=
  orElseO (ev_pitchNumber pitch)
    (orElseO (match ev_details pitch with Some d => d_pitchNumber d | None => None end)
             (match ev_pitchData pitch with Some d => pd_pitchNumber d | None => None end)).

(** ** Coordinate records *)

(** What the resolver returns: an object whose [hasLocation] is always set
    and whose other fields may be missing. *)
Record Location : Type := mkLocation {
  hasLocation : bool;
  isBreakData : bool;
  l_px : option Q;
  l_pz : option Q;
  l_szTop : option Q;
  l_szBot : option Q;
  l_hb : option Q;
  l_vb : option Q;
  l_angle : option Q;
  l_length : option Q;
}.

(** [{ hasLocation: false }] *)
Definition noLocation : Location :=
  mkLocation false false None None None None None None None None.

(** An entry of [pitchCoordCache]. *)
Record CacheEntry : Type := mkCacheEntry {
  ce_px : option Q;
  ce_pz : option Q;
  ce_szTop : Q;
  ce_szBot : Q;
  ce_hb : option Q;
  ce_vb : option Q;
  ce_angle : option Q;
  ce_length : option Q;
}.

(** What [buildReplayPitchContext] remembers of a pitch for the tunnel check
    of the next one: [{ lastPitchType, location }]. *)
Record TunnelCtx : Type := mkTunnelCtx {
  tc_lastPitchType : option string;
  tc_location : option Location;
}.

Record TunnelInfo : Type := mkTunnelInfo {
  pxDiff : Q;
  pzDiff : Q;
  hbDiff : Q;
  vbDiff : Q;
  totalBreakDiff : Q;
  label : string;
}.

(** ** Profile records *)

(** [pitcherGameStats[pitcherId]] *)
Record GameStats : Type := mkGameStats {
  gs_fastball : Z;
  gs_breaking : Z;
  gs_change : Z;
  gs_total : Z;
}.

(** [batterAggressionStats[batterId]] *)
Record AggressionStats : Type := mkAggressionStats {
  ag_swings : Z;
  ag_pitches : Z;
}.

(** The six counters of a family or of a zone and family, with the three
    derived rates that [getBatterVsPitchProfile] attaches to a family
    record. *)
Record FamStats : Type := mkFamStats {
  seen : Z;
  swings : Z;
  whiffs : Z;
  inPlay : Z;
  hits : Z;
  hardHit : Z;
  whiffRate : option Q;
  hitRate : option Q;
  hardHitRate : option Q;
}.

Definition zeroFamStats : FamStats :=
  mkFamStats 0 0 0 0 0 0 None None None.

(** [batterVsPitchStats[batterId]] *)
Record BatterFamilies : Type := mkBatterFamilies {
  bf_fastball : FamStats;
  bf_breaking : FamStats;
  bf_change : FamStats;
}.

Definition bfGet (b : BatterFamilies) (fam : Family) : FamStats :=
  match fam with
  | fastball => bf_fastball b
  | breaking => bf_breaking b
  | change => bf_change b
  end.

Definition bfSet (b : BatterFamilies) (fam : Family) (s : FamStats)
  : BatterFamilies :=
  match fam with
  | fastball => mkBatterFamilies s (bf_breaking b) (bf_change b)
  | breaking => mkBatterFamilies (bf_fastball b) s (bf_change b)
  | change => mkBatterFamilies (bf_fastball b) (bf_breaking b) s
  end.

(** [pitcherCommandStats[pid]] *)
Record CommandStats : Type := mkCommandStats {
  cs_pitches : Z;
  missesHigh : Z;
  missesLow : Z;
  missesArm : Z;
  missesGlove : Z;
  velos : list Q;
}.

(** What [getBatterVsPitchProfile] returns: the batter's family records (the
    spread of the store entry), the score of each family and the weakest
    family. *)
Record BatterProfile : Type := mkBatterProfile {
  bp_raw : BatterFamilies;
  vuln : Mix;
  topWeakFamily : option Family;
}.

(** What [buildReplayPitchContext] returns. *)
Record RunnersOn : Type := mkRunnersOn {
  r_first : bool;
  r_second : bool;
  r_third : bool;
}.

Record Ctx : Type := mkCtx {
  inning : Z;
  topBottom : string;
  balls : Z;
  strikes : Z;
  outs : Z;
  runnersOn : RunnersOn;
  lastPitchType : option string;
  lastPitchDescription : string;
  lastTwoPitchTypes : list string;
  lastPitchLocationZone : option string;
  lastPitchLocationLabel : option string;
  pitcherThrows : string;
  batterBats : string;
  location : Location;
  pitcherGameMix : option Mix;
  batterAggression : option Q;
  pitcherArsenalMix : option Mix;
  batterVsPitch : option BatterProfile;
  pitcherId : Z;
  batterId : Z;
  tunnelInfo : option TunnelInfo;
}.

(** [{ mix, best }] *)
Record Optimal : Type := mkOptimal {
  o_mix : Mix;
  o_best : Family;
}.

(** ** The stores *)

#[global] Instance Family_countable : Countable Family.
Proof.
  refine (inj_countable'
            (fun f => match f with fastball => 0%nat | breaking => 1%nat
                               | change => 2%nat end)
            (fun n => match n with 0%nat => fastball | 1%nat => breaking
                               | _ => change end) _).
  intros []; reflexivity.
Defined.

(** The module-level state of the script.  [lastGameData] is passed to the
    functions as [game]; [pitcherArsenalById] is filled once, before any
    pitch, from the arsenal file.  [batterVsZoneStats[batterId][zone][family]]
    is one map keyed by the path [(batterId, zone, family)]. *)
Record Stores : Type := mkStores {
  pitchIndexMap : list (nat * nat);
  replayModeActive : bool;
  pitchPointer : nat;
  lastCtx : option TunnelCtx;
  lastInningPrinted : option string;
  lastPitcherId : option Z;
  lastBatterId : option Z;
  pitchSequence : list string;
  simulatedOuts : Z;
  simInning : option Z;
  simHalf : option string;
  pitchCoordCache : gmap string CacheEntry;
  pitcherGameStats : gmap Z GameStats;
  batterAggressionStats : gmap Z AggressionStats;
  pitcherArsenalById : gmap Z Mix;
  batterVsPitchStats : gmap Z BatterFamilies;
  batterVsZoneStats : gmap (Z * string * Family) FamStats;
  pitcherCommandStats : gmap Z CommandStats;
}.

(** The state of the script when it is loaded, given the arsenal table. *)
Definition initialStores (arsenal : gmap Z Mix) : Stores :=
  mkStores [] false 0 None None None None [] 0 None None
           ∅ ∅ ∅ arsenal ∅ ∅ ∅.

Definition set_pitchIndexMap (v : list (nat * nat)) (s : Stores) : Stores :=
  mkStores v (replayModeActive s) (pitchPointer s) (lastCtx s)
    (lastInningPrinted s) (lastPitcherId s) (lastBatterId s) (pitchSequence s)
    (simulatedOuts s) (simInning s) (simHalf s) (pitchCoordCache s)
    (pitcherGameStats s) (batterAggressionStats s) (pitcherArsenalById s)
    (batterVsPitchStats s) (batterVsZoneStats s) (pitcherCommandStats s).

Definition set_replayModeActive (v : bool) (s : Stores) : Stores :=
  mkStores (pitchIndexMap s) v (pitchPointer s) (lastCtx s)
    (lastInningPrinted s) (lastPitcherId s) (lastBatterId s) (pitchSequence s)
    (simulatedOuts s) (simInning s) (simHalf s) (pitchCoordCache s)
    (pitcherGameStats s) (batterAggressionStats s) (pitcherArsenalById s)
    (batterVsPitchStats s) (batterVsZoneStats s) (pitcherCommandStats s).

Definition set_pitchPointer (v : nat) (s : Stores) : Stores :=
  mkStores (pitchIndexMap s) (replayModeActive s) v (lastCtx s)
    (lastInningPrinted s) (lastPitcherId s) (lastBatterId s) (pitchSequence s)
    (simulatedOuts s) (simInning s) (simHalf s) (pitchCoordCache s)
    (pitcherGameStats s) (batterAggressionStats s) (pitcherArsenalById s)
    (batterVsPitchStats s) (batterVsZoneStats s) (pitcherCommandStats s).

Definition set_lastCtx (v : option TunnelCtx) (s : Stores) : Stores :=
  mkStores (pitchIndexMap s) (replayModeActive s) (pitchPointer s) v
    (lastInningPrinted s) (lastPitcherId s) (lastBatterId s) (pitchSequence s)
    (simulatedOuts s) (simInning s) (simHalf s) (pitchCoordCache s)
    (pitcherGameStats s) (batterAggressionStats s) (pitcherArsenalById s)
    (batterVsPitchStats s) (batterVsZoneStats s) (pitcherCommandStats s).

Definition set_lastInningPrinted (v : option string) (s : Stores) : Stores :=
  mkStores (pitchIndexMap s) (replayModeActive s) (pitchPointer s) (lastCtx s)
    v (lastPitcherId s) (lastBatterId s) (pitchSequence s)
    (simulatedOuts s) (simInning s) (simHalf s) (pitchCoordCache s)
    (pitcherGameStats s) (batterAggressionStats s) (pitcherArsenalById s)
    (batterVsPitchStats s) (batterVsZoneStats s) (pitcherCommandStats s).

Definition set_lastPitcherId (v : option Z) (s : Stores) : Stores :=
  mkStores (pitchIndexMap s) (replayModeActive s) (pitchPointer s) (lastCtx s)
    (lastInningPrinted s) v (lastBatterId s) (pitchSequence s)
    (simulatedOuts s) (simInning s) (simHalf s) (pitchCoordCache s)
    (pitcherGameStats s) (batterAggressionStats s) (pitcherArsenalById s)
    (batterVsPitchStats s) (batterVsZoneStats s) (pitcherCommandStats s).

Definition set_lastBatterId (v : option Z) (s : Stores) : Stores :=
  mkStores (pitchIndexMap s) (replayModeActive s) (pitchPointer s) (lastCtx s)
    (lastInningPrinted s) (lastPitcherId s) v (pitchSequence s)
    (simulatedOuts s) (simInning s) (simHalf s) (pitchCoordCache s)
    (pitcherGameStats s) (batterAggressionStats s) (pitcherArsenalById s)
    (batterVsPitchStats s) (batterVsZoneStats s) (pitcherCommandStats s).

Definition set_pitchSequence (v : list string) (s : Stores) : Stores :=
  mkStores (pitchIndexMap s) (replayModeActive s) (pitchPointer s) (lastCtx s)
    (lastInningPrinted s) (lastPitcherId s) (lastBatterId s) v
    (simulatedOuts s) (simInning s) (simHalf s) (pitchCoordCache s)
    (pitcherGameStats s) (batterAggressionStats s) (pitcherArsenalById s)
    (batterVsPitchStats s) (batterVsZoneStats s) (pitcherCommandStats s).

Definition set_simulatedOuts (v : Z) (s : Stores) : Stores :=
  mkStores (pitchIndexMap s) (replayModeActive s) (pitchPointer s) (lastCtx s)
    (lastInningPrinted s) (lastPitcherId s) (lastBatterId s) (pitchSequence s)
    v (simInning s) (simHalf s) (pitchCoordCache s)
    (pitcherGameStats s) (batterAggressionStats s) (pitcherArsenalById s)
    (batterVsPitchStats s) (batterVsZoneStats s) (pitcherCommandStats s).

Definition set_simInning (v : option Z) (s : Stores) : Stores :=
  mkStores (pitchIndexMap s) (replayModeActive s) (pitchPointer s) (lastCtx s)
    (lastInningPrinted s) (lastPitcherId s) (lastBatterId s) (pitchSequence s)
    (simulatedOuts s) v (simHalf s) (pitchCoordCache s)
    (pitcherGameStats s) (batterAggressionStats s) (pitcherArsenalById s)
    (batterVsPitchStats s) (batterVsZoneStats s) (pitcherCommandStats s).

Definition set_simHalf (v : option string) (s : Stores) : Stores :=
  mkStores (pitchIndexMap s) (replayModeActive s) (pitchPointer s) (lastCtx s)
    (lastInningPrinted s) (lastPitcherId s) (lastBatterId s) (pitchSequence s)
    (simulatedOuts s) (simInning s) v (pitchCoordCache s)
    (pitcherGameStats s) (batterAggressionStats s) (pitcherArsenalById s)
    (batterVsPitchStats s) (batterVsZoneStats s) (pitcherCommandStats s).

Definition set_pitchCoordCache (v : gmap string CacheEntry) (s : Stores)
  : Stores :=
  mkStores (pitchIndexMap s) (replayModeActive s) (pitchPointer s) (lastCtx s)
    (lastInningPrinted s) (lastPitcherId s) (lastBatterId s) (pitchSequence s)
    (simulatedOuts s) (simInning s) (simHalf s) v
    (pitcherGameStats s) (batterAggressionStats s) (pitcherArsenalById s)
    (batterVsPitchStats s) (batterVsZoneStats s) (pitcherCommandStats s).

Definition set_pitcherGameStats (v : gmap Z GameStats) (s : Stores) : Stores :=
  mkStores (pitchIndexMap s) (replayModeActive s) (pitchPointer s) (lastCtx s)
    (lastInningPrinted s) (lastPitcherId s) (lastBatterId s) (pitchSequence s)
    (simulatedOuts s) (simInning s) (simHalf s) (pitchCoordCache s)
    v (batterAggressionStats s) (pitcherArsenalById s)
    (batterVsPitchStats s) (batterVsZoneStats s) (pitcherCommandStats s).

Definition set_batterAggressionStats (v : gmap Z AggressionStats) (s : Stores)
  : Stores :=
  mkStores (pitchIndexMap s) (replayModeActive s) (pitchPointer s) (lastCtx s)
    (lastInningPrinted s) (lastPitcherId s) (lastBatterId s) (pitchSequence s)
    (simulatedOuts s) (simInning s) (simHalf s) (pitchCoordCache s)
    (pitcherGameStats s) v (pitcherArsenalById s)
    (batterVsPitchStats s) (batterVsZoneStats s) (pitcherCommandStats s).

Definition set_batterVsPitchStats (v : gmap Z BatterFamilies) (s : Stores)
  : Stores :=
  mkStores (pitchIndexMap s) (replayModeActive s) (pitchPointer s) (lastCtx s)
    (lastInningPrinted s) (lastPitcherId s) (lastBatterId s) (pitchSequence s)
    (simulatedOuts s) (simInning s) (simHalf s) (pitchCoordCache s)
    (pitcherGameStats s) (batterAggressionStats s) (pitcherArsenalById s)
    v (batterVsZoneStats s) (pitcherCommandStats s).

Definition set_batterVsZoneStats (v : gmap (Z * string * Family) FamStats)
  (s : Stores) : Stores :=
  mkStores (pitchIndexMap s) (replayModeActive s) (pitchPointer s) (lastCtx s)
    (lastInningPrinted s) (lastPitcherId s) (lastBatterId s) (pitchSequence s)
    (simulatedOuts s) (simInning s) (simHalf s) (pitchCoordCache s)
    (pitcherGameStats s) (batterAggressionStats s) (pitcherArsenalById s)
    (batterVsPitchStats s) v (pitcherCommandStats s).

Definition set_pitcherCommandStats (v : gmap Z CommandStats) (s : Stores)
  : Stores :=
  mkStores (pitchIndexMap s) (replayModeActive s) (pitchPointer s) (lastCtx s)
    (lastInningPrinted s) (lastPitcherId s) (lastBatterId s) (pitchSequence s)
    (simulatedOuts s) (simInning s) (simHalf s) (pitchCoordCache s)
    (pitcherGameStats s) (batterAggressionStats s) (pitcherArsenalById s)
    (batterVsPitchStats s) (batterVsZoneStats s) v.

(** ** The monad of the script: stores and [TypeError] *)

Inductive Res (A : Type) : Type :=
| Ok (a : A)
| TypeError.
Arguments Ok {A} a.
Arguments TypeError {A}.

Definition M (A : Type) : Type := Stores -> Res A * Stores.

Definition ret {A : Type} (a : A) : M A := fun s => (Ok a, s).

Definition bind {A B : Type} (m : M A) (k : A -> M B) : M B :=
  fun s =>
    match m s with
    | (Ok a, s') => k a s'
    | (TypeError, s') => (TypeError, s')
    end.

(** Reading a property of [null] or [undefined]. *)
Definition throw {A : Type} : M A := fun s => (TypeError, s).

(** [try { m } catch { return h }]: what [m] wrote before it threw stays
    written. *)
Definition tryCatch {A : Type} (m : M A) (h : M A) : M A :=
  fun s =>
    match m s with
    | (Ok a, s') => (Ok a, s')
    | (TypeError, s') => h s'
    end.

Definition gets {A : Type} (f : Stores -> A) : M A := fun s => (Ok (f s), s).
Definition modify (f : Stores -> Stores) : M unit := fun s => (Ok tt, f s).

(** [when c m]: [if (c) m]. *)
Definition when (c : bool) (m : M unit) : M unit := if c then m else ret tt.

(** A value that must not be [undefined] where it is dereferenced. *)
Definition deref {A : Type} (x : option A) : M A :=
  match x with Some v => ret v | None => throw end.

Declare Scope m_scope.
Delimit Scope m_scope with M.
Notation "'do' x <- m ; k" := (bind m (fun x => k))
  (at level 10, x name, m at level 100, k at level 200,
   format "'[v' 'do'  x  <-  m ; '/' k ']'") : m_scope.
Notation "'do' ' pat <- m ; k" :=
  (bind m (fun x => match x with pat => k end))
  (at level 10, pat pattern, m at level 100, k at level 200) : m_scope.
Notation "'exec' m ; k" := (bind m (fun _ => k))
  (at level 10, m at level 100, k at level 200,
   format "'[v' 'exec'  m ; '/' k ']'") : m_scope.
Open Scope m_scope.


(** ** Best available coordinates *)

Definition getPitcherArsenalMix (pitcherId : Z) : M (option Mix) :=
  gets (fun s => pitcherArsenalById s !! pitcherId).

Definition getCoordKey (play : Play) (pitch : PitchEvent) : string :=
  let atBat :=
    match atBatIndex (p_about play) with
    | Some i => pretty i
    | None => pretty (ab_inning (p_about play)) ++ "-"
              ++ ab_halfInning (p_about play)
    end in
  let pitchNum := anyPitchNumber pitch ?? 0%Z in
  atBat ++ "-" ++ pretty pitchNum.

Definition storeCoordsInCache (play : Play) (pitch : PitchEvent)
  (coord : option Location) : M unit :=
  match coord with
  | None => ret tt
  | Some coord =>
    let key := getCoordKey play pitch in
    modify (fun s =>
      set_pitchCoordCache
        (<[key := mkCacheEntry (l_px coord) (l_pz coord)
                    (l_szTop coord ?? 3.5) (l_szBot coord ?? 1.5)
                    (l_hb coord) (l_vb coord)
                    (l_angle coord) (l_length coord)]>
           (pitchCoordCache s)) s)
  end.

(** [{ hasLocation: true, px, pz, szTop, szBot }] *)
Definition trueLocation (px pz szTop szBot : Q) : Location :=
  mkLocation true false (Some px) (Some pz) (Some szTop) (Some szBot)
             None None None None.

Definition extractCoordinatesFromPitch (pitch : option PitchEvent)
  : Location :=
  match pitch with
  | None => noLocation
  | Some pitch =>
    let fromDetails :=
      match ev_details pitch with
      | Some {| d_coordinates :=
                  Some {| dc_px := Some px; dc_pz := Some pz;
                          dc_strikeZoneTop := top;
                          dc_strikeZoneBottom := bot |} |} =>
          trueLocation px pz (top ?? 3.5) (bot ?? 1.5)
      | _ => noLocation
      end in
    match ev_pitchData pitch with
    | Some {| pd_coordinates := Some {| sc_pX := Some pX; sc_pZ := Some pZ |};
              pd_strikeZoneTop := top; pd_strikeZoneBottom := bot |} =>
        trueLocation pX pZ (top ?? 3.5) (bot ?? 1.5)
    | _ => fromDetails
    end
  end.

(** The movement-only record that is cached, and the one that is returned. *)
Definition movementCoord (hb vb : Q) (angle length : option Q) : Location :=
  mkLocation false false None None (Some 3.5) (Some 1.5)
             (Some hb) (Some vb) angle length.

Definition breakResult (hb vb : Q) (angle length : option Q) : Location :=
  mkLocation false true None None None None (Some hb) (Some vb) angle length.

(** The movement pair of a [breaks] block, when both magnitudes are there. *)
Definition breaksPair (br : option Breaks)
  : option (Q * Q * option Q * option Q) :=
  match br with
  | Some {| breakHorizontal := Some hb; breakVerticalInduced := Some vb;
            breakAngle := angle; breakLength := length |} =>
      Some (hb, vb, angle, length)
  | _ => None
  end.

(** The cache tier: the record rebuilt from an entry. *)
Definition fromCache (c : CacheEntry) : Location :=
  let hasLoc :=
    match ce_px c, ce_pz c with Some _, Some _ => true | _, _ => false end in
  let anyBreak :=
    match ce_hb c, ce_vb c with None, None => false | _, _ => true end in
  mkLocation hasLoc (negb hasLoc && anyBreak) (ce_px c) (ce_pz c)
             (Some (ce_szTop c)) (Some (ce_szBot c))
             (ce_hb c) (ce_vb c) (ce_angle c) (ce_length c).

(** Tier 3, the inner loop: the first pitch event of [evs] with the wanted
    pitch number that carries a location or a movement pair, as the record to
    cache and the record to return. *)
Fixpoint searchEvents (pitchNum : Z) (evs : list PitchEvent)
  : option (Location * Location) :=
  match evs with
  | [] => None
  | ev :: rest =>
    if negb (ev_isPitch ev) then searchEvents pitchNum rest
    else
      match anyPitchNumber ev with
      | Some n =>
        if negb (n =? pitchNum)%Z then searchEvents pitchNum rest
        else
          let evCoord := extractCoordinatesFromPitch (Some ev) in
          if hasLocation evCoord then Some (evCoord, evCoord)
          else
            match breaksPair (ev_breaks ev) with
            | Some (hb, vb, angle, length) =>
                Some (movementCoord hb vb angle length,
                      breakResult hb vb angle length)
            | None => searchEvents pitchNum rest
            end
      | None => searchEvents pitchNum rest
      end
  end.

(** Tier 3, the outer loop over the plays of the same at-bat. *)
Fixpoint searchPlays (atBat pitchNum : Z) (plays : list Play)
  : option (Location * Location) :=
  match plays with
  | [] => None
  | p2 :: rest =>
    match atBatIndex (p_about p2) with
    | Some i =>
      if negb (i =? atBat)%Z then searchPlays atBat pitchNum rest
      else
        match searchEvents pitchNum (p_playEvents p2) with
        | Some r => Some r
        | None => searchPlays atBat pitchNum rest
        end
    | None => searchPlays atBat pitchNum rest
    end
  end.

Definition getPitchCoordinates (game : Game) (playIdx pitchIdx : nat)
  : M Location :=
  do play <- deref (allPlays game !! playIdx);
  match p_playEvents play !! pitchIdx with
  | None => ret noLocation
  | Some pitch =>
    let atBat := atBatIndex (p_about play) in
    let pitchNum := anyPitchNumber pitch in
    (* Tier 1: direct from pitch (true location) *)
    let direct := extractCoordinatesFromPitch (Some pitch) in
    if hasLocation direct then
      exec storeCoordsInCache play pitch (Some direct);
      ret direct
    else
      (* Tier 1.5: breaks block (movement only) *)
      match breaksPair (ev_breaks pitch) with
      | Some (hb, vb, angle, length) =>
        exec storeCoordsInCache play pitch
               (Some (movementCoord hb vb angle length));
        ret (breakResult hb vb angle length)
      | None =>
        match pitchNum, atBat with
        | Some pitchNum, Some atBat =>
          (* Tier 2: cache *)
          do cached <- gets (fun s => pitchCoordCache s !! getCoordKey play pitch);
          match cached with
          | Some c => ret (fromCache c)
          | None =>
            (* Tier 3: search same at-bat by pitchNumber *)
            match searchPlays atBat pitchNum (allPlays game) with
            | Some (toStore, result) =>
              exec storeCoordsInCache play pitch (Some toStore);
              ret result
            | None => ret noLocation
            end
          end
        | _, _ => ret noLocation
        end
      end
  end.

(** ** Location classification *)

Definition classifyLocation (px pz szTop szBot : option Q) : option string :=
  match px, pz, szTop, szBot with
  | Some px, Some pz, Some szTop, Some szBot =>
    let horizontal :=
      if Qgtb px 0.5 then "ARM"
      else if Qltb px (-0.5) then "GLOVE" else "MIDDLE" in
    let zoneHeight := szTop - szBot in
    let highThresh := szTop - zoneHeight / 3 in
    let lowThresh := szBot + zoneHeight / 3 in
    let height :=
      if Qgeb pz highThresh then "HIGH"
      else if Qle_bool pz lowThresh then "LOW" else "MID" in
    Some (height ++ "_" ++ horizontal)
  | _, _, _, _ => None
  end.

Definition prettyLocationLabel (zone : option string) : option string :=
  if negb (truthy zone) then None
  else
    let z := zone ?? "" in
    Some (if String.eqb z "HIGH_ARM" then "Up & in"
          else if String.eqb z "HIGH_MIDDLE" then "Up"
          else if String.eqb z "HIGH_GLOVE" then "Up & away"
          else if String.eqb z "MID_ARM" then "In"
          else if String.eqb z "MID_MIDDLE" then "Middle"
          else if String.eqb z "MID_GLOVE" then "Away"
          else if String.eqb z "LOW_ARM" then "Down & in"
          else if String.eqb z "LOW_MIDDLE" then "Down"
          else if String.eqb z "LOW_GLOVE" then "Down & away"
          else z).

(** ** Tunnel detection *)

Definition TUNNEL_HORIZONTAL_THRESHOLD : Q := 0.3.
Definition TUNNEL_VERTICAL_THRESHOLD : Q := 0.3.
Definition TUNNEL_BREAK_DIFF_THRESHOLD : Q := 3.0.

Definition tunnelLabel (prevType currType : option string) : string :=
  if truthy prevType && truthy currType then
    let p := toUpperCase (prevType ?? "") in
    let c := toUpperCase (currType ?? "") in
    if (String.eqb p "FF" || String.eqb p "SI")
       && (String.eqb c "SL" || String.eqb c "SW")
    then "Fastball → Slider Tunnel"
    else if (String.eqb p "FF" || String.eqb p "SI") && String.eqb c "CH"
    then "Fastball → Change Fade Tunnel"
    else if String.eqb p "SL" && String.eqb c "CU"
    then "Slider → Curveball Break Stack"
    else (prevType ?? "") ++ " → " ++ (currType ?? "") ++ " Tunnel"
  else "Pitch Tunnel Detected".

Definition detectTunnel (prevCtx currCtx : option TunnelCtx)
  : option TunnelInfo :=
  match prevCtx, currCtx with
  | Some prevCtx, Some currCtx =>
    match tc_location prevCtx, tc_location currCtx with
    | Some A, Some B =>
      (* Must have some form of trajectory / movement *)
      if negb (hasLocation A) && negb (isBreakData A) then None
      else if negb (hasLocation B) && negb (isBreakData B) then None
      else
        (* early trajectory similarity *)
        let pxA := l_px A ?? 0 in
        let pxB := l_px B ?? 0 in
        let pzA := l_pz A ?? 0 in
        let pzB := l_pz B ?? 0 in
        let pxDiff := Qabs (pxA - pxB) in
        let pzDiff := Qabs (pzA - pzB) in
        let earlyAligned :=
          Qltb pxDiff TUNNEL_HORIZONTAL_THRESHOLD
          && Qltb pzDiff TUNNEL_VERTICAL_THRESHOLD in
        if negb earlyAligned then None
        else
          (* late flight divergence *)
          let hbDiff := Qabs ((l_hb A ?? 0) - (l_hb B ?? 0)) in
          let vbDiff := Qabs ((l_vb A ?? 0) - (l_vb B ?? 0)) in
          let totalBreakDiff := hbDiff + vbDiff in
          if Qltb totalBreakDiff TUNNEL_BREAK_DIFF_THRESHOLD then None
          else
            Some (mkTunnelInfo pxDiff pzDiff hbDiff vbDiff totalBreakDiff
                    (tunnelLabel (tc_lastPitchType prevCtx)
                                 (tc_lastPitchType currCtx)))
    | _, _ => None
    end
  | _, _ => None
  end.

(** ** Zone effectiveness (batter against zone and family) *)

(** [den > 0 ? num / den : 0] on two counters. *)
Definition rateOf (num den : Z) : Q :=
  if (0 <? den)%Z then inject_Z num / inject_Z den else 0.

(** [0.6 * whiffRate + 0.25 * (1 - hitRate) + 0.15 * (1 - hardHitRate)] *)
Definition vulnScore (whiffRate hitRate hardHitRate : Q) : Q :=
  0.6 * whiffRate + 0.25 * (1 - hitRate) + 0.15 * (1 - hardHitRate).

(** The score of a record of counters. *)
Definition scoreOf (s : FamStats) : Q :=
  vulnScore (rateOf (whiffs s) (swings s))
            (rateOf (hits s) (inPlay s))
            (rateOf (hardHit s) (inPlay s)).

Definition ensureBatterZoneFamily (batterId : Z) (zone : string)
  (family : Family) : M unit :=
  modify (fun s =>
    match batterVsZoneStats s !! (batterId, zone, family) with
    | Some _ => s
    | None =>
      set_batterVsZoneStats
        (<[(batterId, zone, family) := zeroFamStats]> (batterVsZoneStats s)) s
    end).

Definition getBatterZoneEV (batterId : Z) (zone : string) (family : Family)
  : M (option Q) :=
  do z <- gets (fun s => batterVsZoneStats s !! (batterId, zone, family));
  match z with
  | None => ret None
  | Some z =>
    if (seen z <? 3)%Z then ret None   (* need a few data points *)
    else ret (Some (scoreOf z))
  end.

(** ** Command and fatigue *)

Definition zeroCommandStats : CommandStats := mkCommandStats 0 0 0 0 0 [].

(** [cs.velos.push(v); if (cs.velos.length > 8) cs.velos.shift()] *)
Definition pushVelo (vs : list Q) (v : Q) : list Q :=
  let vs' := (vs ++ [v])%list in
  if (8 <? List.length vs')%nat then tail vs' else vs'.

Definition updatePitcherCommand (play : Play) (pitch : PitchEvent)
  (location : option Location) : M unit :=
  let pid := mu_pitcherId (p_matchup play) in
  modify (fun s =>
    let cs := (pitcherCommandStats s !! pid) ?? zeroCommandStats in
    let velos' :=
      match startSpeed pitch with
      | Some v => pushVelo (velos cs) v
      | None => velos cs
      end in
    let inc (c : bool) (n : Z) : Z := if c then (n + 1)%Z else n in
    let margin := 0.1 in
    let located :=
      match location with Some l => hasLocation l | None => false end in
    let loc := location ?? noLocation in
    let px := l_px loc in
    let pz := l_pz loc in
    let szTop := l_szTop loc in
    let szBot := l_szBot loc in
    let high := located && oQgtb pz (option_map (fun t => t + margin) szTop) in
    let low := located && oQltb pz (option_map (fun b => b - margin) szBot) in
    let arm := located && oQgtb px (Some 1.7) in
    let glove := located && oQltb px (Some (-1.7)) in
    set_pitcherCommandStats
      (<[pid := mkCommandStats (cs_pitches cs + 1)%Z
                  (inc high (missesHigh cs)) (inc low (missesLow cs))
                  (inc arm (missesArm cs)) (inc glove (missesGlove cs))
                  velos']> (pitcherCommandStats s)) s).

Definition getPitcherWildness (pid : Z) : M Q :=
  do cs <- gets (fun s => pitcherCommandStats s !! pid);
  match cs with
  | None => ret 0
  | Some cs =>
    if (cs_pitches cs <? 10)%Z then ret 0
    else
      let misses :=
        (missesHigh cs + missesLow cs + missesArm cs + missesGlove cs)%Z in
      ret (inject_Z misses / inject_Z (cs_pitches cs))   (* 0..1-ish *)
  end.

Definition getPitcherVeloTrend (pid : Z) : M Q :=
  do cs <- gets (fun s => pitcherCommandStats s !! pid);
  match cs with
  | None => ret 0
  | Some cs =>
    if (List.length (velos cs) <? 4)%nat then ret 0
    else
      let n := List.length (velos cs) in
      let at_ (i : nat) := nth i (velos cs) 0 in
      let recentAvg := (at_ (n - 1)%nat + at_ (n - 2)%nat) / 2 in
      let earlyAvg := (at_ 0%nat + at_ 1%nat) / 2 in
      ret (recentAvg - earlyAvg)   (* negative = lost velo *)
  end.

(** ** Sequencing influence matrix *)

(** [m[fam] -= d] *)
Definition mixSub (m : Mix) (fam : Family) (d : Q) : Mix :=
  mixSet m fam (mixGet m fam - d).

(** [if (c) { ... }] on the working mix. *)
Definition cond (c : bool) (f : Mix -> Mix) (m : Mix) : Mix :=
  if c then f m else m.

(** [last === "fastball"] and the like, on a family that may be [null]. *)
Definition isFam (last : option Family) (fam : Family) : bool :=
  match last with
  | Some f => bool_decide (f = fam)
  | None => false
  end.

(** [ctx.lastPitchType ? mapPitchCodeToBucket(ctx.lastPitchType) : null] *)
Definition lastFamily (ctx : Ctx) : option Family :=
  if truthy (lastPitchType ctx) then mapPitchCodeToBucket (lastPitchType ctx)
  else None.

Definition applySequencingAdjustments (mix : Mix) (ctx : option Ctx)
  : M Mix :=
  match ctx with
  | None => ret mix
  | Some ctx =>
    let last := lastFamily ctx in
    let desc := toLowerCase (lastPitchDescription ctx) in
    let balls := balls ctx in
    let strikes := strikes ctx in
    let m := mix in
    (* 1. count-based sequencing *)
    let m :=
      cond (((balls =? 0) && (strikes =? 2)) || ((balls =? 1) && (strikes =? 2)))%Z
        (fun m => mixSub (mixAdd (mixAdd m breaking 0.12) change 0.05)
                         fastball 0.1) m in
    let m :=
      cond (((balls =? 2) && (strikes =? 0)) || ((balls =? 3) && (strikes =? 1)))%Z
        (fun m => mixSub (mixSub (mixAdd m fastball 0.1) breaking 0.06)
                         change 0.04) m in
    let m :=
      match pitcherArsenalMix ctx with
      | Some arsenal =>
        cond ((balls =? 3) && (strikes =? 2))%Z
          (fun m => mixAdd (mixAdd (mixAdd m fastball (m_fastball arsenal * 0.1))
                                   breaking (m_breaking arsenal * 0.05))
                           change (m_change arsenal * 0.05)) m
      | None => m
      end in
    (* 2. last-pitch sequences *)
    let m :=
      cond (isFam last fastball)
        (fun m => mixSub (mixAdd (mixAdd m breaking 0.06) change 0.02)
                         fastball 0.06) m in
    let m :=
      cond (isFam last breaking)
        (fun m => mixSub (mixAdd (mixAdd m fastball 0.04) change 0.03)
                         breaking 0.04) m in
    let m :=
      cond (isFam last change)
        (fun m => mixSub (mixAdd (mixAdd m breaking 0.04) fastball 0.02)
                         change 0.06) m in
    (* 3. swing result sequencing *)
    let m :=
      cond (includes desc "swinging strike" && negb (includes desc "foul"))
        (fun m =>
           let m := cond (isFam last fastball) (fun m => mixAdd m fastball 0.1) m in
           let m := cond (isFam last breaking) (fun m => mixAdd m breaking 0.1) m in
           cond (isFam last change) (fun m => mixAdd m change 0.1) m) m in
    let m :=
      cond (includes desc "foul")
        (fun m =>
           if isFam last fastball
           then mixAdd (mixAdd m breaking 0.05) change 0.03
           else mixAdd m fastball 0.07) m in
    let m :=
      cond (includes desc "ball")
        (fun m => mixSub (mixSub (mixAdd m fastball 0.06) breaking 0.03)
                         change 0.03) m in
    let m :=
      cond (includes desc "called strike")
        (fun m => mixAdd m breaking 0.04) m in
    (* 4. two-pitch pattern logic *)
    let seq := map (fun c => mapPitchCodeToBucket (Some c))
                   (lastTwoPitchTypes ctx) in
    let m :=
      match seq with
      | [a; b] =>
        cond (bool_decide (a = b))
          (fun m =>
             let m := cond (isFam a fastball) (fun m => mixAdd m breaking 0.1) m in
             let m := cond (isFam a breaking) (fun m => mixAdd m fastball 0.08) m in
             cond (isFam a change) (fun m => mixAdd m breaking 0.07) m) m
      | _ => m
      end in
    (* 5. tunnel influence *)
    let m :=
      cond (bool_decide (is_Some (tunnelInfo ctx)) && isFam last fastball)
        (fun m => mixAdd (mixAdd m breaking 0.05) change 0.03) m in
    (* 6. command / fatigue influence *)
    do wildness <- getPitcherWildness (pitcherId ctx);
    let m :=
      cond (Qgtb wildness 0.3)
        (fun m => mixSub (mixSub (mixAdd m fastball 0.08) breaking 0.05)
                         change 0.03) m in
    do veloTrend <- getPitcherVeloTrend (pitcherId ctx);
    let m :=
      cond (Qltb veloTrend (-1.0))
        (fun m => mixAdd (mixAdd (mixSub m fastball 0.04) change 0.03)
                         breaking 0.01) m in
    ret (normalize m)
  end.

(** ** Location-aware sequencing *)

Definition applyLocationSequencing (mix : Mix) (ctx : option Ctx) : Mix :=
  match ctx with
  | None => mix
  | Some ctx =>
    let zone := lastPitchLocationZone ctx in
    let last := lastFamily ctx in
    if negb (truthy zone) || negb (bool_decide (is_Some last)) then mix
    else
      let zone := zone ?? "" in
      let m := mix in
      let m :=
        cond (isFam last fastball && startsWith zone "HIGH")
          (fun m => mixSub (mixAdd (mixAdd m breaking 0.08) change 0.04)
                           fastball 0.08) m in
      let m :=
        cond (isFam last breaking && String.eqb zone "LOW_GLOVE")
          (fun m => mixSub (mixAdd m fastball 0.1) breaking 0.05) m in
      let m :=
        cond (isFam last change && String.eqb zone "LOW_ARM")
          (fun m => mixSub (mixAdd (mixAdd m breaking 0.08) fastball 0.02)
                           change 0.06) m in
      let m :=
        cond (isFam last fastball && String.eqb zone "MID_MIDDLE")
          (fun m => mixSub (mixAdd (mixAdd m breaking 0.08) change 0.04)
                           fastball 0.1) m in
      normalize m
  end.

(** ** Sequence memory, change detection, inning headers *)

(** [arr.slice(-n)] *)
Definition sliceLast {A : Type} (n : nat) (l : list A) : list A :=
  skipn (List.length l - n) l.

(** [analyzeSequence]: the note it returns is only printed. *)
Definition analyzeSequence (newType : string) : M unit :=
  modify (fun s => set_pitchSequence (pitchSequence s ++ [newType])%list s).

Definition detectChanges (play : Play) : M unit :=
  let pid := mu_pitcherId (p_matchup play) in
  let bid := mu_batterId (p_matchup play) in
  do lastP <- gets lastPitcherId;
  exec when (negb (bool_decide (lastP = Some pid)))
    (modify (fun s =>
       set_lastCtx None (set_pitchSequence [] (set_lastPitcherId (Some pid) s))));
  do lastB <- gets lastBatterId;
  when (negb (bool_decide (lastB = Some bid)))
    (modify (set_lastBatterId (Some bid))).

Definition showInningHeader (ctx : Ctx) : M unit :=
  let current := pretty (inning ctx) ++ " " ++ topBottom ctx in
  do printed <- gets lastInningPrinted;
  when (negb (bool_decide (printed = Some current)))
    (modify (set_lastInningPrinted (Some current))).

(** ** Pitch index mapping *)

(** The indices of the pitch events of one play, from event index [eIdx]. *)
Fixpoint pitchIndicesOf (pIdx eIdx : nat) (evs : list PitchEvent)
  : list (nat * nat) :=
  match evs with
  | [] => []
  | ev :: rest =>
    (if ev_isPitch ev then [(pIdx, eIdx)] else [])
      ++ pitchIndicesOf pIdx (S eIdx) rest
  end%list.

Fixpoint pitchIndicesFrom (pIdx : nat) (plays : list Play)
  : list (nat * nat) :=
  match plays with
  | [] => []
  | play :: rest =>
    pitchIndicesOf pIdx 0 (p_playEvents play) ++ pitchIndicesFrom (S pIdx) rest
  end%list.

Definition buildPitchIndexMap (gameData : Game) : M unit :=
  modify (set_pitchIndexMap (pitchIndicesFrom 0 (allPlays gameData))).

(** ** Outs from a play *)

Definition outsFromPlay (play : Play) : Z :=
  let event := toLowerCase (p_event play ?? "") in
  if includes event "triple play" then 3
  else if includes event "double play" then 2
  else if includes event "groundout" then 1
  else if includes event "forceout" then 1
  else if includes event "fielder's choice out" then 1
  else if includes event "fielders choice out" then 1
  else if includes event "flyout" then 1
  else if includes event "lineout" then 1
  else if includes event "pop out" then 1
  else if includes event "strikeout" then 1
  else 0.

(** ** Context engine: pitcher and batter statistics *)

Definition zeroGameStats : GameStats := mkGameStats 0 0 0 0.

Definition updatePitcherStats (play : Play) (pitch : PitchEvent) : M unit :=
  let pitcherId := mu_pitcherId (p_matchup play) in
  match mapPitchCodeToBucket (typeCode pitch) with
  | None => ret tt
  | Some bucket =>
    modify (fun s =>
      let stats := (pitcherGameStats s !! pitcherId) ?? zeroGameStats in
      let stats' :=
        match bucket with
        | fastball => mkGameStats (gs_fastball stats + 1) (gs_breaking stats)
                                  (gs_change stats) (gs_total stats + 1)
        | breaking => mkGameStats (gs_fastball stats) (gs_breaking stats + 1)
                                  (gs_change stats) (gs_total stats + 1)
        | change => mkGameStats (gs_fastball stats) (gs_breaking stats)
                                (gs_change stats + 1) (gs_total stats + 1)
        end%Z in
      set_pitcherGameStats (<[pitcherId := stats']> (pitcherGameStats s)) s)
  end.

Definition getPitcherGameMix (pitcherId : Z) : M (option Mix) :=
  do stats <- gets (fun s => pitcherGameStats s !! pitcherId);
  match stats with
  | None => ret None
  | Some stats =>
    if (gs_total stats =? 0)%Z then ret None
    else ret (Some (normalize (mkMix (inject_Z (gs_fastball stats))
                                     (inject_Z (gs_breaking stats))
                                     (inject_Z (gs_change stats)))))
  end.

(** Very simple "did the batter swing?" heuristic. *)
Definition isSwing (pitch : PitchEvent) : bool :=
  let d := toLowerCase (description pitch ?? "") in
  if detailsIsInPlay pitch then true
  else if includes d "swinging" then true
  else if includes d "foul" then true
  else if includes d "in play" then true
  else false.

Definition updateBatterStats (play : Play) (pitch : PitchEvent) : M unit :=
  let batterId := mu_batterId (p_matchup play) in
  modify (fun s =>
    let stats :=
      (batterAggressionStats s !! batterId) ?? mkAggressionStats 0 0 in
    let stats' :=
      mkAggressionStats
        (if isSwing pitch then ag_swings stats + 1 else ag_swings stats)%Z
        (ag_pitches stats + 1)%Z in
    set_batterAggressionStats
      (<[batterId := stats']> (batterAggressionStats s)) s).

Definition getBatterAggression (batterId : Z) : M (option Q) :=
  do stats <- gets (fun s => batterAggressionStats s !! batterId);
  match stats with
  | None => ret None
  | Some stats =>
    if (ag_pitches stats =? 0)%Z then ret None
    else ret (Some (inject_Z (ag_swings stats) / inject_Z (ag_pitches stats)))
  end.

(** ** Batter against pitch family *)

Definition zeroBatterFamilies : BatterFamilies :=
  mkBatterFamilies zeroFamStats zeroFamStats zeroFamStats.

(** [ensureBatterFamily]: a batter's entry always has its three families, so
    the second test of the source never fires. *)
Definition ensureBatterFamily (batterId : Z) (family : Family) : M unit :=
  modify (fun s =>
    match batterVsPitchStats s !! batterId with
    | Some _ => s
    | None =>
      set_batterVsPitchStats
        (<[batterId := zeroBatterFamilies]> (batterVsPitchStats s)) s
    end).

(** The hit test of [updateBatterVsPitchStats] on the event type of the
    at-bat. *)
Definition hitEvent (play : Play) : bool :=
  let eventType := toLowerCase (p_eventType play ?? "") in
  includes eventType "single" || includes eventType "double"
  || includes eventType "triple" || includes eventType "home_run"
  || includes eventType "home run".

(** Its hard-hit test: [typeof ls === "number" && ls >= 95]. *)
Definition hardHitBall (pitch : PitchEvent) : bool :=
  match ev_launchSpeed pitch with
  | Some ls => Qgeb ls 95
  | None => false
  end.

(** The counters of a record after one pitch. *)
Definition bump (st : FamStats) (swung swingingStrike inPlay' isHit hard : bool)
  : FamStats :=
  let inc (c : bool) (n : Z) : Z := if c then (n + 1)%Z else n in
  mkFamStats (seen st + 1)%Z (inc swung (swings st))
             (inc swingingStrike (whiffs st)) (inc inPlay' (inPlay st))
             (inc isHit (hits st)) (inc hard (hardHit st))
             (whiffRate st) (hitRate st) (hardHitRate st).

Definition updateBatterVsPitchStats (play : Play) (pitch : PitchEvent)
  (bucket : option Family) (isLastPitch : bool)
  (zoneForThisPitch : option string) : M unit :=
  match bucket with
  | None => ret tt
  | Some bucket =>
    let batterId := mu_batterId (p_matchup play) in
    exec ensureBatterFamily batterId bucket;
    let desc := toLowerCase (description pitch ?? "") in
    let swung := isSwing pitch in
    let swingingStrike :=
      swung && includes desc "swinging" && negb (includes desc "foul")
      && negb (includes desc "in play") in
    let inPlay' := detailsIsInPlay pitch || includes desc "in play" in
    (* Hit / hard-hit only on last pitch of the PA *)
    let isHit := isLastPitch && hitEvent play in
    let hard := isLastPitch && hardHitBall pitch in
    exec modify (fun s =>
      match batterVsPitchStats s !! batterId with
      | Some fams =>
        set_batterVsPitchStats
          (<[batterId :=
               bfSet fams bucket
                 (bump (bfGet fams bucket) swung swingingStrike inPlay'
                       isHit hard)]>
             (batterVsPitchStats s)) s
      | None => s
      end);
    (* Zone EV tracking (batter vs zone × family) *)
    if truthy zoneForThisPitch then
      let zone := zoneForThisPitch ?? "" in
      exec ensureBatterZoneFamily batterId zone bucket;
      modify (fun s =>
        match batterVsZoneStats s !! (batterId, zone, bucket) with
        | Some Z =>
          set_batterVsZoneStats
            (<[(batterId, zone, bucket) :=
                 bump Z swung swingingStrike inPlay' isHit hard]>
               (batterVsZoneStats s)) s
        | None => s
        end)
    else ret tt
  end.

(** One turn of the loop of [getBatterVsPitchProfile] over the families: the
    family records (with the rates attached), the scores so far, the weakest
    family so far and its score; [bestScore] is [None] for [-Infinity]. *)
Definition profileStep
  (acc : BatterFamilies * Mix * option Family * option Q) (fam : Family)
  : BatterFamilies * Mix * option Family * option Q :=
  let '(raw, vuln, topWeakFamily, bestScore) := acc in
  let s := bfGet raw fam in
  let whiffRate := rateOf (whiffs s) (swings s) in
  let hitRate := rateOf (hits s) (inPlay s) in
  let hardHitRate := rateOf (hardHit s) (inPlay s) in
  (* Higher score = batter worse vs that family *)
  let score := vulnScore whiffRate hitRate hardHitRate in
  let vuln := mixSet vuln fam score in
  let better :=
    (3 <=? seen s)%Z &&
    match bestScore with None => true | Some b => Qgtb score b end in
  (* attach the derived rates back on raw[fam] *)
  let s' := mkFamStats (seen s) (swings s) (whiffs s) (inPlay s) (hits s)
                       (hardHit s) (Some whiffRate) (Some hitRate)
                       (Some hardHitRate) in
  (bfSet raw fam s', vuln,
   if better then Some fam else topWeakFamily,
   if better then Some score else bestScore).

Definition getBatterVsPitchProfile (batterId : Z) : M (option BatterProfile) :=
  do raw <- gets (fun s => batterVsPitchStats s !! batterId);
  match raw with
  | None => ret None
  | Some raw =>
    let '(raw', vuln, topWeakFamily, _) :=
      fold_left profileStep families (raw, mkMix 0 0 0, None, None) in
    exec modify (fun s =>
      set_batterVsPitchStats (<[batterId := raw']> (batterVsPitchStats s)) s);
    ret (Some (mkBatterProfile raw' vuln topWeakFamily))
  end.

(** ** Optimal pitch *)

Definition getCountFactor (family : Family) (balls strikes : Z) : Q :=
  let count := countKey balls strikes in
  (* Way ahead in count: favor chase stuff *)
  if ((2 <=? strikes) && (balls <=? 1))%Z then
    match family with
    | breaking => 1.25
    | change => 1.15
    | fastball => 0.8
    end
  (* Behind in count: more likely to need a strike *)
  else if ((2 <=? balls) && (strikes <=? 1))%Z then
    match family with
    | fastball => 1.2
    | breaking => 0.9
    | change => 0.9
    end
  (* Full count nuance *)
  else if String.eqb count "3-2" then
    match family with
    | fastball => 1.05
    | breaking => 0.95
    | change => 1.0
    end
  else 1.0.

(** The default of the league table. *)
Definition defaultLeagueMix : Mix := mkMix 0.6 0.25 0.15.

(** The score of one family, one turn of the loop of
    [recommendOptimalPitch].  [base] always has the three families, so the
    [?? 1 / 3] of the source never applies; a score of [vuln] is always a
    number. *)
Definition scoreFamily (ctx : Ctx) (base : Mix) (vuln : option Mix)
  (fam : Family) : M Q :=
  let score := mixGet base fam in
  (* If we have batter vulnerability by family, blend it in *)
  let score :=
    match vuln with
    | Some vuln => 0.4 * score + 0.6 * mixGet vuln fam
    | None => score
    end in
  (* Count leverage adjustment *)
  let cf := getCountFactor fam (balls ctx) (strikes ctx) in
  let score := score * cf in
  (* Zone EV adjustment *)
  let zone := lastPitchLocationZone ctx in
  if truthy zone && negb (batterId ctx =? 0)%Z then
    do zoneEV <- getBatterZoneEV (batterId ctx) (zone ?? "") fam;
    match zoneEV with
    | Some zoneEV => ret (0.5 * score + 0.5 * zoneEV)   (* 50/50 blend with EV *)
    | None => ret score
    end
  else ret score.

(** The scores of the three families, before they are normalized.  A [null]
    context is dereferenced at once. *)
Definition optimalScores (ctx : option Ctx) : M Mix :=
  do ctx <- deref ctx;
  let base :=
    match pitcherArsenalMix ctx with
    | Some arsenal => arsenal
    | None =>
      tableGet leaguePitchMixByCount (countKey (balls ctx) (strikes ctx))
        ?? defaultLeagueMix
    end in
  let base := normalize base in
  let vuln := option_map vuln (batterVsPitch ctx) in
  do sf <- scoreFamily ctx base vuln fastball;
  do sb <- scoreFamily ctx base vuln breaking;
  do sc <- scoreFamily ctx base vuln change;
  ret (mkMix sf sb sc).

(** The family with the largest share, the first one on ties. *)
Definition pickBest (mix : Mix) : Family :=
  fst (fold_left
         (fun '(best, bestVal) fam =>
            if Qgtb (mixGet mix fam) bestVal then (fam, mixGet mix fam)
            else (best, bestVal))
         families (fastball, m_fastball mix)).

Definition recommendOptimalPitch (ctx : option Ctx) : M Optimal :=
  do scores <- optimalScores ctx;
  let mix := normalize scores in
  ret (mkOptimal mix (pickBest mix)).

(** ** Build replay pitch context *)

(** [play.runners?.some((r) => r.startingBase === base) ?? false] *)
Definition runnerOn (play : Play) (base : Z) : bool :=
  match p_runners play with
  | Some rs => existsb (Z.eqb base) rs
  | None => false
  end.

Definition buildReplayPitchContext (game : Game) (playIdx pitchIdx : nat)
  (outsBefore : Z) : M (option Ctx) :=
  tryCatch
    (do play <- deref (allPlays game !! playIdx);
     let pitch := p_playEvents play !! pitchIdx in
     do location <- getPitchCoordinates game playIdx pitchIdx;
     let pitcherId := mu_pitcherId (p_matchup play) in
     let batterId := mu_batterId (p_matchup play) in
     do pitcherGameMix <- getPitcherGameMix pitcherId;
     do batterAggression <- getBatterAggression batterId;
     do pitcherArsenalMix <- getPitcherArsenalMix pitcherId;
     do batterVsPitch <- getBatterVsPitchProfile batterId;
     (* Location -> zone + label *)
     let zone :=
       if hasLocation location
          && bool_decide (is_Some (l_px location))
          && bool_decide (is_Some (l_pz location))
       then classifyLocation (l_px location) (l_pz location)
                             (l_szTop location) (l_szBot location)
       else None in
     let zoneLabel :=
       if hasLocation location
          && bool_decide (is_Some (l_px location))
          && bool_decide (is_Some (l_pz location))
       then prettyLocationLabel zone
       else None in
     (* previous context for tunneling *)
     do prev <- gets lastCtx;
     do pitch <- deref pitch;
     let tempCtx := mkTunnelCtx (typeCode pitch) (Some location) in
     let tunnelInfo := detectTunnel prev (Some tempCtx) in
     (* Save this context for next pitch *)
     exec modify (set_lastCtx (Some tempCtx));
     do seq <- gets pitchSequence;
     ret (Some
       (mkCtx
          (ab_inning (p_about play))
          (if String.eqb (ab_halfInning (p_about play)) "top"
           then "Top" else "Bottom")
          (match ev_count pitch with Some c => c_balls c ?? 0%Z | None => 0%Z end)
          (match ev_count pitch with Some c => c_strikes c ?? 0%Z | None => 0%Z end)
          outsBefore
          (mkRunnersOn (runnerOn play 1) (runnerOn play 2) (runnerOn play 3))
          (typeCode pitch)
          (description pitch ?? "")
          (sliceLast 2 seq)
          zone
          zoneLabel
          (mu_pitchHand (p_matchup play) ?? "R")
          (mu_batSide (p_matchup play) ?? "R")
          location
          pitcherGameMix
          batterAggression
          pitcherArsenalMix
          batterVsPitch
          pitcherId
          batterId
          tunnelInfo)))
    (ret None).

(** ** Predict next pitch (likely) *)

(** The default for a [null] context. *)
Definition defaultPrediction : Mix := mkMix 0.33 0.33 0.34.

(** [wA * a + wB * b] on every family. *)
Definition blend (wA : Q) (a : Mix) (wB : Q) (b : Mix) : Mix :=
  mkMix (wA * m_fastball a + wB * m_fastball b)
        (wA * m_breaking a + wB * m_breaking b)
        (wA * m_change a + wB * m_change b).

(** Everything [predictPitchType] does to the working mix of a context that
    is there, up to the final [normalize]. *)
Definition predictStages (ctx : Ctx) : M Mix :=
  let key := countKey (balls ctx) (strikes ctx) in
  (* 1) League baseline by count *)
  let mix := tableGet leaguePitchMixByCount key ?? mkMix 0.60 0.25 0.15 in
  (* 2) Blend with pitcher CSV arsenal baseline *)
  let mix :=
    match pitcherArsenalMix ctx with
    | Some arsenal => blend 0.5 mix 0.5 arsenal
    | None => mix
    end in
  (* 3) Handedness effects *)
  let mix :=
    cond (String.eqb (pitcherThrows ctx) "R" && String.eqb (batterBats ctx) "L")
      (fun m => mixSub (mixSub (mixAdd m change 0.05) fastball 0.03)
                       breaking 0.02) mix in
  let mix :=
    cond (String.eqb (pitcherThrows ctx) "L" && String.eqb (batterBats ctx) "R")
      (fun m => mixSub (mixSub (mixAdd m breaking 0.05) fastball 0.03)
                       change 0.02) mix in
  (* 4) Runners on *)
  let mix :=
    cond (r_first (runnersOn ctx) || r_second (runnersOn ctx)
          || r_third (runnersOn ctx))
      (fun m => mixSub (mixAdd m breaking 0.03) fastball 0.03) mix in
  (* Normalize before sequencing transforms *)
  let mix := normalize mix in
  (* 5) Sequencing-based adjustments *)
  do mix <- applySequencingAdjustments mix (Some ctx);
  (* 6) Location-aware sequencing *)
  let mix := applyLocationSequencing mix (Some ctx) in
  (* Normalize again *)
  let mix := normalize mix in
  (* 7) Batter weakness awareness *)
  let mix :=
    match batterVsPitch ctx with
    | Some bvp =>
      let v := vuln bvp in
      mkMix (m_fastball mix * (1 + m_fastball v * 0.35))
            (m_breaking mix * (1 + m_breaking v * 0.35))
            (m_change mix * (1 + m_change v * 0.35))
    | None => mix
    end in
  (* 8) Tunnel continuation bias *)
  let mix :=
    cond (bool_decide (is_Some (tunnelInfo ctx)))
      (fun m =>
         let last := lastFamily ctx in
         let m := cond (isFam last fastball) (fun m => mixAdd m breaking 0.05) m in
         let m := cond (isFam last breaking) (fun m => mixAdd m fastball 0.05) m in
         cond (isFam last change)
           (fun m => mixAdd (mixAdd m change 0.04) breaking 0.02) m) mix in
  (* 9) Blend in pitcher in-game mix *)
  let mix :=
    match pitcherGameMix ctx with
    | Some gameMix => blend 0.8 mix 0.2 gameMix
    | None => mix
    end in
  ret mix.

Definition predictPitchType (ctx : option Ctx) : M Mix :=
  match ctx with
  | None => ret defaultPrediction
  | Some ctx =>
    do mix <- predictStages ctx;
    (* Final normalize *)
    ret (normalize mix)
  end.

(** ** Replay mode *)

(** [asciiStrikeZone]: the drawing is console text and is not modelled, but
    its one exception is.  With a true location whose zone top equals its
    zone bottom the row index is [0 / 0], not a number, and writing the dot
    into [grid[yPos]] dereferences [undefined].  (A true location always
    carries both bounds.) *)
Definition asciiStrikeZone (loc : option Location) : M unit :=
  match loc with
  | Some loc =>
    if hasLocation loc then
      match l_szTop loc, l_szBot loc with
      | Some szTop, Some szBot =>
        if Qeq_bool (szTop - szBot) 0 then throw else ret tt
      | _, _ => ret tt
      end
    else ret tt
  | None => ret tt
  end.

(** What one tick of the replay prints: the context, the likely mix and the
    optimal recommendation. *)
Record Report : Type := mkReport {
  rep_ctx : option Ctx;
  rep_likelyMix : Mix;
  rep_optimal : Optimal;
}.

(** The reset of the first tick of a replay. *)
Definition resetForReplay (s : Stores) : Stores :=
  set_lastCtx None
    (set_pitchSequence []
      (set_pitcherCommandStats ∅
        (set_batterVsZoneStats ∅
          (set_batterVsPitchStats ∅
            (set_batterAggressionStats ∅
              (set_pitcherGameStats ∅
                (set_pitchCoordCache ∅
                  (set_simHalf None
                    (set_simInning None
                      (set_simulatedOuts 0 s)))))))))).

(** [zoneForThisPitch] of [handleReplayMode]. *)
Definition zoneOfContext (ctx : option Ctx) : option string :=
  match ctx with
  | Some ctx =>
    let loc := location ctx in
    if hasLocation loc
    then classifyLocation (l_px loc) (l_pz loc) (l_szTop loc) (l_szBot loc)
    else None
  | None => None
  end.

(** The four profile updates of a tick, in the order of the source, with the
    outs and the pointer. *)
Definition applyUpdates (play : Play) (pitch : PitchEvent)
  (ctx : option Ctx) (isLastPitch : bool) : M unit :=
  let code := typeCode pitch in
  (* Update context stats AFTER using them *)
  let bucket := mapPitchCodeToBucket code in
  exec updatePitcherStats play pitch;
  exec updateBatterStats play pitch;
  (* update command/fatigue model *)
  exec updatePitcherCommand play pitch (option_map location ctx);
  (* zone for this pitch (for batter vs zone EV) *)
  let zoneForThisPitch := zoneOfContext ctx in
  exec updateBatterVsPitchStats play pitch bucket isLastPitch zoneForThisPitch;
  (* Outs update on last pitch of play *)
  exec when isLastPitch
    (modify (fun s =>
       let outs := (simulatedOuts s + outsFromPlay play)%Z in
       set_simulatedOuts (if (3 <=? outs)%Z then 0%Z else outs) s));
  modify (fun s => set_pitchPointer (S (pitchPointer s)) s).

(** The block [if (!replayModeActive) { ... }] that opens a replay. *)
Definition beginReplay (game : Game) : M unit :=
  do active <- gets replayModeActive;
  when (negb active)
    (exec modify (set_replayModeActive true);
     exec buildPitchIndexMap game;
     modify resetForReplay).

(** One tick of the replay on [lastGameData = game].  [None] is the tick
    that finds every pitch replayed. *)
Definition handleReplayMode (game : Game) : M (option Report) :=
  exec beginReplay game;
  do pointer <- gets pitchPointer;
  do indexMap <- gets pitchIndexMap;
  match indexMap !! pointer with
  | None => ret None
  | Some (playIdx, pitchIdx) =>
    do play <- deref (allPlays game !! playIdx);
    let pitch := p_playEvents play !! pitchIdx in
    let inning := ab_inning (p_about play) in
    let half := ab_halfInning (p_about play) in
    do simI <- gets simInning;
    do simH <- gets simHalf;
    exec when (negb (bool_decide (simI = Some inning))
               || negb (bool_decide (simH = Some half)))
      (modify (fun s =>
         set_simulatedOuts 0 (set_simHalf (Some half)
                                (set_simInning (Some inning) s))));
    do outsBefore <- gets simulatedOuts;
    (* Is this the last pitch of the play? *)
    let isLastPitch :=
      negb (existsb ev_isPitch (skipn (pitchIdx + 1) (p_playEvents play))) in
    do pitch <- deref pitch;
    let code := typeCode pitch in
    exec when (truthy code) (analyzeSequence (code ?? ""));
    do ctx <- buildReplayPitchContext game playIdx pitchIdx outsBefore;
    do likelyMix <- predictPitchType ctx;
    do optimal <- recommendOptimalPitch ctx;
    exec match ctx with Some c => showInningHeader c | None => ret tt end;
    exec detectChanges play;
    exec asciiStrikeZone (option_map location ctx);
    exec applyUpdates play pitch ctx isLastPitch;
    ret (Some (mkReport ctx likelyMix optimal))
  end.

(** Running a computation: its result and the stores it leaves. *)
Definition run {A : Type} (m : M A) (s : Stores) : Res A * Stores := m s.


(** ** Specific pitch types *)

Definition CODE_LABELS : list (string * string) :=
  [ ("FF", "Four-Seam Fastball");
    ("FA", "Four-Seam Fastball");
    ("SI", "Sinker");
    ("FT", "Sinker");
    ("FC", "Cutter");
    ("SL", "Slider");
    ("CU", "Curveball");
    ("KC", "Knuckle Curve");
    ("KN", "Knuckleball");
    ("SW", "Sweeper");
    ("SV", "Sweeper");
    ("CH", "Changeup");
    ("SF", "Splitter");
    ("FS", "Splitter");
    ("FO", "Forkball");
    ("SC", "Screwball") ].

(** [CODE_LABELS[c] || c || "Unknown Pitch"] *)
Definition getPitchLabel (code : option string) : string :=
  let c := toUpperCase (code ?? "") in
  let lbl := tableGet CODE_LABELS c in
  if truthy lbl then lbl ?? ""
  else if truthy (Some c) then c
  else "Unknown Pitch".

(** [pitcherTypeUsageById[pitcherId]]: for each family, the usage share of
    each pitch code of that family, as the list of entries that
    [Object.entries] gives.  The table [pitcherTypeUsageById] is written once,
    by the arsenal loader, before any pitch; the functions that read it take
    it as [usage]. *)
Record FamilyTypes : Type := mkFamilyTypes {
  ft_fastball : list (string * Q);
  ft_breaking : list (string * Q);
  ft_change : list (string * Q);
}.

Definition ftGet (t : FamilyTypes) (fam : Family) : list (string * Q) :=
  match fam with
  | fastball => ft_fastball t
  | breaking => ft_breaking t
  | change => ft_change t
  end.

Definition TypeUsage : Type := gmap Z FamilyTypes.

(** [pitcherTypeUsageById[pitcherId]?.[family]], for a pitcher id that may be
    [undefined]. *)
Definition famUsageOf (usage : TypeUsage) (pitcherId : option Z)
  (family : Family) : option (list (string * Q)) :=
  match pitcherId with
  | Some pid => option_map (fun t => ftGet t family) (usage !! pid)
  | None => None
  end.

(** The loop of [pickSpecificPitchCode] over the entries: the best code so
    far and its share, from [null] and [-1]. *)
Definition bestEntry (entries : list (string * Q)) : option string * Q :=
  fold_left
    (fun '(bestCode, bestVal) '(code, val) =>
       if Qgtb val bestVal then (Some code, val) else (bestCode, bestVal))
    entries (None, -1).

Definition pickSpecificPitchCode (usage : TypeUsage) (family : Family)
  (pitcherId : option Z) : string :=
  (* Fallbacks if CSV doesn't have detail *)
  let fallback :=
    match family with
    | fastball => "FF"
    | breaking => "SL"
    | change => "CH"
    end in
  match famUsageOf usage pitcherId family with
  | Some famUsage =>
    if (0 <? List.length famUsage)%nat then
      let bestCode := fst (bestEntry famUsage) in
      if truthy bestCode then bestCode ?? "" else fallback
    else fallback
  | None => fallback
  end.

(** [{ family, code, label, probability }] *)
Record Specific : Type := mkSpecific {
  sp_family : Family;
  sp_code : string;
  sp_label : string;
  sp_probability : Q;
}.

(** The share of a code within its family, 1 when the table does not give a
    positive one; the same lines in [getLikelySpecificPitch] and in
    [getOptimalSpecificPitch]. *)
Definition typeShare (usage : TypeUsage) (pitcherId : option Z)
  (bestFam : Family) (code : string) : Q :=
  match famUsageOf usage pitcherId bestFam with
  | Some famUsage =>
    if (0 <? List.length famUsage)%nat then
      match tableGet famUsage code with
      | Some share => if Qgtb share 0 then share else 1.0
      | None => 1.0
      end
    else 1.0
  | None => 1.0
  end.

(** A mix always carries its three shares, so the [?? 0] of the source never
    applies and the loop that picks the family is that of
    [recommendOptimalPitch]. *)
Definition getLikelySpecificPitch (usage : TypeUsage) (mix : option Mix)
  (ctx : option Ctx) : option Specific :=
  match mix with
  | None => None
  | Some mix =>
    (* pick best family *)
    let bestFam := pickBest mix in
    let pid := option_map pitcherId ctx in
    let code := pickSpecificPitchCode usage bestFam pid in
    let label := getPitchLabel (Some code) in
    let prob := mixGet mix bestFam * typeShare usage pid bestFam code in
    Some (mkSpecific bestFam code label prob)
  end.

Definition getOptimalSpecificPitch (usage : TypeUsage) (opt : option Optimal)
  (ctx : option Ctx) : option Specific :=
  match opt with
  | None => None
  | Some opt =>
    let bestFam := o_best opt in
    let pid := option_map pitcherId ctx in
    let code := pickSpecificPitchCode usage bestFam pid in
    let label := getPitchLabel (Some code) in
    let prob := mixGet (o_mix opt) bestFam * typeShare usage pid bestFam code in
    Some (mkSpecific bestFam code label prob)
  end.

(** ** The arsenal file *)

(** The entries of a JavaScript object with string keys, in the order in
    which the engine lists them: the keys that are array indices (canonical
    decimal numerals below [2^32 - 1]) first, in ascending order, then the
    other keys in the order in which they were added. *)
Definition digitOf (a : ascii) : option N :=
  let n := N_of_ascii a in
  if ((48 <=? n) && (n <=? 57))%N then Some (n - 48)%N else None.

Fixpoint numeral (acc : N) (s : string) : option N :=
  match s with
  | EmptyString => Some acc
  | String a s' =>
    match digitOf a with
    | Some d => numeral (10 * acc + d)%N s'
    | None => None
    end
  end.

Definition arrayIndex (k : string) : option N :=
  match k with
  | EmptyString => None
  | String a rest =>
    if Ascii.eqb a "0" && negb (String.eqb rest "") then None
    else
      match numeral 0 k with
      | Some n => if (n <? 2 ^ 32 - 1)%N then Some n else None
      | None => None
      end
  end.

(** A new array-index key goes before the first key that is not a smaller
    array index. *)
Fixpoint objPutIndex {V : Type} (i : N) (k : string) (v : V)
  (o : list (string * V)) : list (string * V) :=
  match o with
  | [] => [(k, v)]
  | (k', v') :: rest =>
    match arrayIndex k' with
    | Some j =>
      if (j <? i)%N then (k', v') :: objPutIndex i k v rest
      else (k, v) :: o
    | None => (k, v) :: o
    end
  end.

(** The value of a key that is there is replaced where it stands. *)
Fixpoint objReplace {V : Type} (k : string) (v : V) (o : list (string * V))
  : list (string * V) :=
  match o with
  | [] => []
  | (k', v') :: rest =>
    if String.eqb k' k then (k', v) :: rest
    else (k', v') :: objReplace k v rest
  end.

(** [o[k] = v] *)
Definition objSet {V : Type} (o : list (string * V)) (k : string) (v : V)
  : list (string * V) :=
  match tableGet o k with
  | Some _ => objReplace k v o
  | None =>
    match arrayIndex k with
    | Some i => objPutIndex i k v o
    | None => (o ++ [(k, v)])%list
    end
  end.

(** A record of the parsed file as the loader reads it:
    [Number(row.player_id)], [None] when that is not a number (player ids are
    integers, as everywhere in the embedding); [row.pitch_type]; and
    [parseFloat(String(row.pitch_usage))], [None] when the column is missing
    or its value is not a number.  Reading the file and parsing it are the
    work of [fs] and [csv-parse]. *)
Record ArsenalRow : Type := mkArsenalRow {
  row_player_id : option Z;
  row_pitch_type : option string;
  row_pitch_usage : option Q;
}.

(** [familyAgg[id]] and [typeAgg[id]] *)
Record FamilyAgg : Type := mkFamilyAgg {
  fa_fastball : Q;
  fa_breaking : Q;
  fa_change : Q;
  fa_total : Q;
}.

Record TypeAgg : Type := mkTypeAgg {
  ta_codes : FamilyTypes;
  ta_totalByFamily : Mix;
}.

Definition ftSet (t : FamilyTypes) (fam : Family) (v : list (string * Q))
  : FamilyTypes :=
  match fam with
  | fastball => mkFamilyTypes v (ft_breaking t) (ft_change t)
  | breaking => mkFamilyTypes (ft_fastball t) v (ft_change t)
  | change => mkFamilyTypes (ft_fastball t) (ft_breaking t) v
  end.

(** One turn of the first loop of the loader. *)
Definition loadRow (acc : gmap Z FamilyAgg * gmap Z TypeAgg)
  (row : ArsenalRow) : gmap Z FamilyAgg * gmap Z TypeAgg :=
  let '(familyAgg, typeAgg) := acc in
  match row_player_id row, row_pitch_type row, row_pitch_usage row with
  | Some id, Some pitchType, Some usage =>
    if (id =? 0)%Z || negb (truthy (Some pitchType)) then acc
    else
      let rawCode := toUpperCase pitchType in
      (* Normalize to user prefs *)
      let rawCode := if String.eqb rawCode "FT" then "SI" else rawCode in
      let rawCode := if String.eqb rawCode "ST" then "SW" else rawCode in
      match mapPitchCodeToBucket (Some rawCode) with
      | None => acc
      | Some family =>
        let fa := (familyAgg !! id) ?? mkFamilyAgg 0 0 0 0 in
        let fa' :=
          match family with
          | fastball => mkFamilyAgg (fa_fastball fa + usage) (fa_breaking fa)
                                    (fa_change fa) (fa_total fa + usage)
          | breaking => mkFamilyAgg (fa_fastball fa) (fa_breaking fa + usage)
                                    (fa_change fa) (fa_total fa + usage)
          | change => mkFamilyAgg (fa_fastball fa) (fa_breaking fa)
                                  (fa_change fa + usage) (fa_total fa + usage)
          end in
        let ta :=
          (typeAgg !! id)
            ?? mkTypeAgg (mkFamilyTypes [] [] []) (mkMix 0 0 0) in
        let codes := ftGet (ta_codes ta) family in
        let old := tableGet codes rawCode ?? 0 in
        let codes' := objSet codes rawCode (old + usage) in
        let ta' :=
          mkTypeAgg (ftSet (ta_codes ta) family codes')
                    (mixAdd (ta_totalByFamily ta) family usage) in
        (<[id := fa']> familyAgg, <[id := ta']> typeAgg)
      end
  | _, _, _ => acc
  end.

(** The shares of the codes of one family: [totalFam ? u / totalFam : 0]. *)
Definition normalizedCodes (totalFam : Q) (codes : list (string * Q))
  : list (string * Q) :=
  map (fun '(code, u) =>
         (code, if Qeq_bool totalFam 0 then 0 else u / totalFam))
      codes.

(** The loader, on the records of the file, [None] when reading or parsing
    the file raised: the tables [pitcherArsenalById] and
    [pitcherTypeUsageById].  The usages are added exactly, so the tests of a
    total against zero are exact here; they agree with the engine's, on its
    rounded totals, when no usage is negative. *)
Definition loadPitcherArsenalFromCSV (records : option (list ArsenalRow))
  : gmap Z Mix * TypeUsage :=
  match records with
  | None => (∅, ∅)
  | Some records =>
    let '(familyAgg, typeAgg) := fold_left loadRow records (∅, ∅) in
    let pitcherArsenalById :=
      omap (fun stats =>
              if Qeq_bool (fa_total stats) 0 then None
              else Some (normalize (mkMix (fa_fastball stats)
                                          (fa_breaking stats)
                                          (fa_change stats))))
           familyAgg in
    let pitcherTypeUsageById :=
      map_imap (fun idNum stats =>
                  if Qeq_bool (fa_total stats) 0 then None
                  else
                    match typeAgg !! idNum with
                    | Some typeInfo =>
                      let famTypes fam :=
                        normalizedCodes
                          (mixGet (ta_totalByFamily typeInfo) fam)
                          (ftGet (ta_codes typeInfo) fam) in
                      Some (mkFamilyTypes (famTypes fastball)
                                          (famTypes breaking)
                                          (famTypes change))
                    | None => None
                    end)
               familyAgg in
    (pitcherArsenalById, pitcherTypeUsageById)
  end.

(** ** The pitch-type endpoint *)

(** The body of a reply of [GET /api/pitch-type]. *)
Record PitchTypeReply : Type := mkPitchTypeReply {
  api_context : option Ctx;
  api_likely : Mix;
  api_likelySpecific : option Specific;
  api_optimal : Optimal;
  api_optimalSpecific : option Specific;
}.

Inductive ApiReply : Type :=
| ApiError (error : string)
| ApiPitchType (reply : PitchTypeReply).

(** The handler of [GET /api/pitch-type], on [lastGameData]. *)
Definition apiPitchType (usage : TypeUsage) (lastGameData : option Game)
  : M ApiReply :=
  match lastGameData with
  | None => ret (ApiError "No data yet")
  | Some game =>
    do indexMap <- gets pitchIndexMap;
    exec when (Nat.eqb (List.length indexMap) 0) (buildPitchIndexMap game);
    do pointer <- gets pitchPointer;
    do indexMap <- gets pitchIndexMap;
    match indexMap !! pointer with
    | None => ret (ApiError "No pitch index yet")
    | Some (playIdx, pitchIdx) =>
      do outs <- gets simulatedOuts;
      do ctx <- buildReplayPitchContext game playIdx pitchIdx outs;
      do likely <- predictPitchType ctx;
      do optimal <- recommendOptimalPitch ctx;
      let likelySpecific := getLikelySpecificPitch usage (Some likely) ctx in
      let optimalSpecific := getOptimalSpecificPitch usage (Some optimal) ctx in
      ret (ApiPitchType
             (mkPitchTypeReply ctx likely likelySpecific optimal
                               optimalSpecific))
    end
  end.

(** What the script does once the game it replays is loaded: a timer tick of
    the replay or a request to the pitch-type endpoint.  Each handler runs to
    its end before the next one starts. *)
Inductive Event : Type := Tick | Request.

Definition handle (usage : TypeUsage) (game : Game) (ev : Event) : M unit :=
  match ev with
  | Tick => exec handleReplayMode game; ret tt
  | Request => exec apiPitchType usage (Some game); ret tt
  end.

(** The stores after a run of events; a handler that raises leaves the
    stores as they were when it raised, and the next event finds them so. *)
Definition after (usage : TypeUsage) (game : Game) (evs : list Event)
  (s : Stores) : Stores :=
  fold_left (fun s ev => snd (run (handle usage game ev) s)) evs s.

(** * Notions used in the statements *)

(** A computation that leaves the stores as they are and whose result
    depends on them only through [proj]. *)
Definition readsOnly {A B : Type} (proj : Stores -> B) (m : M A) : Prop :=
  forall s, snd (m s) = s /\
            forall s', proj s' = proj s -> fst (m s') = fst (m s).

(** The three shares of a mix are non-negative. *)
Definition nonneg (m : Mix) : Prop :=
  0 <= m_fastball m /\ 0 <= m_breaking m /\ 0 <= m_change m.

(** The place of a family in the order in which the loops visit them. *)
Definition famRank (fam : Family) : nat :=
  match fam with fastball => 0 | breaking => 1 | change => 2 end.

(** A call of [updatePitcherCommand], and a run of such calls. *)
Definition Call : Type := Play * PitchEvent * option Location.

Fixpoint commandCalls (calls : list Call) : M unit :=
  match calls with
  | [] => ret tt
  | (play, pitch, loc) :: rest =>
    exec updatePitcherCommand play pitch loc;
    commandCalls rest
  end.




(** The counters of a record, without the derived rates that
    [getBatterVsPitchProfile] caches on it. *)
Definition eraseRates (st : FamStats) : FamStats :=
  mkFamStats (seen st) (swings st) (whiffs st) (inPlay st) (hits st)
             (hardHit st) None None None.

Definition eraseRatesB (b : BatterFamilies) : BatterFamilies :=
  mkBatterFamilies (eraseRates (bf_fastball b)) (eraseRates (bf_breaking b))
                   (eraseRates (bf_change b)).

(** Two states of the script hold the same profiles: the same pitcher usage,
    batter aggression, pitcher command, zone and arsenal stores, and the same
    counters in the batter-against-family store. *)
Definition sameProfiles (s t : Stores) : Prop :=
  pitcherGameStats s = pitcherGameStats t /\
  batterAggressionStats s = batterAggressionStats t /\
  pitcherCommandStats s = pitcherCommandStats t /\
  batterVsZoneStats s = batterVsZoneStats t /\
  pitcherArsenalById s = pitcherArsenalById t /\
  eraseRatesB <$> batterVsPitchStats s = eraseRatesB <$> batterVsPitchStats t.

(** How many pitches each store has recorded. *)
Definition pitchesThrown (s : Stores) (pid : Z) : Z :=
  match pitcherCommandStats s !! pid with
  | Some cs => cs_pitches cs
  | None => 0
  end.

Definition pitchesFaced (s : Stores) (bid : Z) : Z :=
  match batterAggressionStats s !! bid with
  | Some a => ag_pitches a
  | None => 0
  end.

Definition pitchesTyped (s : Stores) (pid : Z) : Z :=
  match pitcherGameStats s !! pid with
  | Some g => gs_total g
  | None => 0
  end.

Definition familySeen (s : Stores) (bid : Z) (fam : Family) : Z :=
  match batterVsPitchStats s !! bid with
  | Some b => seen (bfGet b fam)
  | None => 0
  end.

Definition zoneSeen (s : Stores) (bid : Z) (zone : string) (fam : Family)
  : Z :=
  match batterVsZoneStats s !! (bid, zone, fam) with
  | Some z => seen z
  | None => 0
  end.

(** 1 when the condition holds, else 0. *)
Definition oneIf (c : bool) : Z := if c then 1%Z else 0%Z.

(** [isLastPitch] of [handleReplayMode]. *)
Definition isLastPitchOf (play : Play) (pitchIdx : nat) : bool :=
  negb (existsb ev_isPitch (skipn (pitchIdx + 1) (p_playEvents play))).

(** A computation that leaves the profiles and the pitch pointer as they
    are. *)
Definition keeps {A : Type} (m : M A) : Prop :=
  forall s,
    sameProfiles (snd (m s)) s /\ pitchPointer (snd (m s)) = pitchPointer s.

(** The hits and the hard-hit balls a batter's family record holds. *)
Definition familyHits (s : Stores) (bid : Z) (fam : Family) : Z :=
  match batterVsPitchStats s !! bid with
  | Some b => hits (bfGet b fam)
  | None => 0
  end.

Definition familyHardHit (s : Stores) (bid : Z) (fam : Family) : Z :=
  match batterVsPitchStats s !! bid with
  | Some b => hardHit (bfGet b fam)
  | None => 0
  end.

(** The nine zone labels. *)
Definition zoneLabels : list string :=
  [ "HIGH_ARM"; "HIGH_MIDDLE"; "HIGH_GLOVE";
    "MID_ARM"; "MID_MIDDLE"; "MID_GLOVE";
    "LOW_ARM"; "LOW_MIDDLE"; "LOW_GLOVE" ].

(** A location record as the code that consumes it expects it: a true
    location carries its two coordinates and its two zone bounds, and a
    movement reading is not a true location and carries a break. *)
Definition wfLocation (l : Location) : Prop :=
  (hasLocation l = true ->
   is_Some (l_px l) /\ is_Some (l_pz l) /\
   is_Some (l_szTop l) /\ is_Some (l_szBot l)) /\
  (isBreakData l = true ->
   hasLocation l = false /\ (is_Some (l_hb l) \/ is_Some (l_vb l))).

(** Two records give the same reading of a pitch: the same flags,
    coordinates and movement, and the same zone bounds when the reading is a
    true location. *)
Definition sameReading (l l' : Location) : Prop :=
  hasLocation l = hasLocation l' /\ isBreakData l = isBreakData l' /\
  l_px l = l_px l' /\ l_pz l = l_pz l' /\
  l_hb l = l_hb l' /\ l_vb l = l_vb l' /\
  l_angle l = l_angle l' /\ l_length l = l_length l' /\
  (hasLocation l = true -> l_szTop l = l_szTop l' /\ l_szBot l = l_szBot l').

(** ** Specifications of computations *)

(** From a state that satisfies [P], the computation either returns a value
    and a state that satisfy [Q], or raises in a state that satisfies [E]. *)
Definition hoare {A : Type} (P : Stores -> Prop) (m : M A)
  (Q : A -> Stores -> Prop) (E : Stores -> Prop) : Prop :=
  forall s, P s ->
    match m s with
    | (Ok a, s') => Q a s'
    | (TypeError, s') => E s'
    end.

(** ** What holds of the stores throughout a replay *)

(** A usage record counts each typed pitch once, under its family. *)
Definition wfGameStats (g : GameStats) : Prop :=
  (0 <= gs_fastball g /\ 0 <= gs_breaking g /\ 0 <= gs_change g /\
   gs_total g = gs_fastball g + gs_breaking g + gs_change g /\
   0 < gs_total g)%Z.

Definition wfAggression (a : AggressionStats) : Prop :=
  (0 <= ag_swings a /\ ag_swings a <= ag_pitches a /\ 0 < ag_pitches a)%Z.

(** The counters of a family or zone record: every whiff and every ball in
    play is a swing, every swing a pitch seen, and no more hits or hard-hit
    balls than pitches seen. *)
Definition wfFamStats (st : FamStats) : Prop :=
  (0 <= whiffs st /\ whiffs st <= swings st /\
   0 <= inPlay st /\ inPlay st <= swings st /\
   swings st <= seen st /\
   0 <= hits st /\ hits st <= seen st /\
   0 <= hardHit st /\ hardHit st <= seen st)%Z.

Definition wfCommand (cs : CommandStats) : Prop :=
  (0 < cs_pitches cs /\
   0 <= missesHigh cs /\ missesHigh cs <= cs_pitches cs /\
   0 <= missesLow cs /\ missesLow cs <= cs_pitches cs /\
   0 <= missesArm cs /\ missesArm cs <= cs_pitches cs /\
   0 <= missesGlove cs /\ missesGlove cs <= cs_pitches cs)%Z /\
  (List.length (velos cs) <= 8)%nat /\
  (Z.of_nat (List.length (velos cs)) <= cs_pitches cs)%Z.

(** Every record of the profile stores is well formed. *)
Definition wfProfiles (s : Stores) : Prop :=
  (forall pid g, pitcherGameStats s !! pid = Some g -> wfGameStats g) /\
  (forall bid a, batterAggressionStats s !! bid = Some a -> wfAggression a) /\
  (forall pid cs, pitcherCommandStats s !! pid = Some cs -> wfCommand cs) /\
  (forall bid b fam,
      batterVsPitchStats s !! bid = Some b -> wfFamStats (bfGet b fam)) /\
  (forall bid zone fam z,
      batterVsZoneStats s !! (bid, zone, fam) = Some z ->
      wfFamStats z /\ In zone zoneLabels).

(** The stores agree with one another: a pitcher has no more typed pitches
    than pitches, a batter's three families hold no more pitches than they
    faced, and a zone record no more than the record of its family. *)
Definition countsAgree (s : Stores) : Prop :=
  (forall p, 0 <= pitchesTyped s p /\ pitchesTyped s p <= pitchesThrown s p)%Z /\
  (forall b fam, 0 <= familySeen s b fam)%Z /\
  (forall b,
      familySeen s b fastball + familySeen s b breaking
      + familySeen s b change <= pitchesFaced s b)%Z /\
  (forall b z fam, 0 <= zoneSeen s b z fam /\
                   zoneSeen s b z fam <= familySeen s b fam)%Z.

(** The pitches recorded over all pitchers, and over all batters. *)
Definition totalThrown (s : Stores) : Z :=
  map_fold (fun _ cs acc => (cs_pitches cs + acc)%Z) 0%Z
           (pitcherCommandStats s).

Definition totalFaced (s : Stores) : Z :=
  map_fold (fun _ a acc => (ag_pitches a + acc)%Z) 0%Z
           (batterAggressionStats s).

(** The pitch index of a game: what [buildPitchIndexMap] stores. *)
Definition pitchIndexOf (game : Game) : list (nat * nat) :=
  pitchIndicesFrom 0 (allPlays game).

(** A true location that some event of the game carries. *)
Definition fromGame (game : Game) (px pz szTop szBot : Q) : Prop :=
  exists play ev,
    In play (allPlays game) /\ In ev (p_playEvents play) /\
    extractCoordinatesFromPitch (Some ev) = trueLocation px pz szTop szBot.

(** The movement reading that the cache tier rebuilds. *)
Definition cachedBreak (hb vb : Q) (angle length : option Q) : Location :=
  mkLocation false true None None (Some 3.5) (Some 1.5)
             (Some hb) (Some vb) angle length.

(** The readings the resolver gives on a game: none, a true location of one
    of its events, or a movement reading, fresh or from the cache. *)
Inductive resolved (game : Game) : Location -> Prop :=
| resolved_none : resolved game noLocation
| resolved_true px pz szTop szBot :
    fromGame game px pz szTop szBot ->
    resolved game (trueLocation px pz szTop szBot)
| resolved_break hb vb angle length :
    resolved game (breakResult hb vb angle length)
| resolved_cached hb vb angle length :
    resolved game (cachedBreak hb vb angle length).

(** The entries the resolver writes to the cache. *)
Inductive cacheEntryOf (game : Game) : CacheEntry -> Prop :=
| cacheEntry_true px pz szTop szBot :
    fromGame game px pz szTop szBot ->
    cacheEntryOf game
      (mkCacheEntry (Some px) (Some pz) szTop szBot None None None None)
| cacheEntry_break hb vb angle length :
    cacheEntryOf game
      (mkCacheEntry None None 3.5 1.5 (Some hb) (Some vb) angle length).

(** The invariant of a replay of [game]. *)
Definition replayInv (game : Game) (s : Stores) : Prop :=
  (* the pitch index, once built, is that of the game *)
  (pitchIndexMap s = [] \/ pitchIndexMap s = pitchIndexOf game) /\
  (replayModeActive s = true -> pitchIndexMap s = pitchIndexOf game) /\
  (* the pointer stays within the index and counts the recorded pitches *)
  (pitchPointer s <= List.length (pitchIndexOf game))%nat /\
  totalThrown s = Z.of_nat (pitchPointer s) /\
  totalFaced s = Z.of_nat (pitchPointer s) /\
  (* before the replay has begun nothing is recorded *)
  (replayModeActive s = false ->
   pitcherGameStats s = ∅ /\ batterAggressionStats s = ∅ /\
   pitcherCommandStats s = ∅ /\ batterVsPitchStats s = ∅ /\
   batterVsZoneStats s = ∅ /\ simulatedOuts s = 0%Z) /\
  (0 <= simulatedOuts s <= 2)%Z /\
  wfProfiles s /\
  countsAgree s /\
  (forall k c, pitchCoordCache s !! k = Some c -> cacheEntryOf game c) /\
  (forall tc, lastCtx s = Some tc ->
     exists loc, tc_location tc = Some loc /\ resolved game loc).

(** Whether the zone an event carries with its true location, if it carries
    one, has a height; and whether that holds of every event of the game. *)
Definition properZone (ev : PitchEvent) : bool :=
  let loc := extractCoordinatesFromPitch (Some ev) in
  if hasLocation loc then
    match l_szTop loc, l_szBot loc with
    | Some szTop, Some szBot => negb (Qeq_bool (szTop - szBot) 0)
    | _, _ => true
    end
  else true.

Definition zonesProper (game : Game) : bool :=
  forallb (fun play => forallb properZone (p_playEvents play))
          (allPlays game).

(** A mix whose shares are not negative and add up to 1. *)
Definition distribution (m : Mix) : Prop :=
  nonneg m /\ m_fastball m + m_breaking m + m_change m == 1.

(** The invariant, with the replay flag and the place of the pointer. *)
Definition replayAt (game : Game) (active : bool) (p : nat) (s : Stores)
  : Prop :=
  replayInv game s /\ replayModeActive s = active /\ pitchPointer s = p.

(** Some event of the game carries a true location whose zone top equals its
    zone bottom. *)
Definition degenerate (game : Game) : Prop :=
  exists px pz szTop szBot, fromGame game px pz szTop szBot /\ szTop == szBot.

(** A share that is absent, or a proportion. *)
Definition proportion (q : option Q) : Prop :=
  match q with Some q => 0 <= q /\ q <= 1 | None => True end.

(** A batter profile as the replay sees it: well-formed counters, a whiff
    rate that is a proportion, hit rates that are not negative, and no
    vulnerability score above 1. *)
Definition profileOk (bp : BatterProfile) : Prop :=
  forall fam,
    let st := bfGet (bp_raw bp) fam in
    wfFamStats st /\
    (exists w h hh,
        whiffRate st = Some w /\ hitRate st = Some h /\
        hardHitRate st = Some hh /\
        0 <= w /\ w <= 1 /\ 0 <= h /\ 0 <= hh) /\
    mixGet (vuln bp) fam <= 1.

(** What the replay knows of a context it has assembled, given the outs
    before the pitch and the context remembered from the pitch before. *)
Definition ctxOk (game : Game) (outsBefore : Z) (prev : option TunnelCtx)
  (c : Ctx) : Prop :=
  outs c = outsBefore /\
  resolved game (location c) /\
  match pitcherGameMix c with Some m => distribution m | None => True end /\
  proportion (batterAggression c) /\
  match batterVsPitch c with Some bp => profileOk bp | None => True end /\
  tunnelInfo c
  = detectTunnel prev
      (Some (mkTunnelCtx (lastPitchType c) (Some (location c)))) /\
  lastPitchLocationZone c = zoneOfContext (Some c) /\
  lastPitchLocationLabel c = prettyLocationLabel (lastPitchLocationZone c).

(** Two states agree on what directs the replay: the pitch index, the replay
    flag, the pointer, the outs, the coordinate cache and the remembered
    context. *)
Definition sameControl (s t : Stores) : Prop :=
  pitchIndexMap s = pitchIndexMap t /\
  replayModeActive s = replayModeActive t /\
  pitchPointer s = pitchPointer t /\
  simulatedOuts s = simulatedOuts t /\
  pitchCoordCache s = pitchCoordCache t /\
  lastCtx s = lastCtx t.

(** The order of the feed on pairs of a play index and an event index. *)
Definition feedOrder (x y : nat * nat) : Prop :=
  (fst x < fst y)%nat \/ (fst x = fst y /\ (snd x < snd y)%nat).

(** The speeds of the pitches of a pitcher in a run of calls of
    [updatePitcherCommand], for the pitches that carry a speed; and the number
    of their pitches. *)
Definition speedsOf (pid : Z) (calls : list Call) : list Q :=
  omap (fun '(play, pitch, _) =>
          if bool_decide (mu_pitcherId (p_matchup play) = pid)
          then startSpeed pitch else None)
       calls.

Definition pitchesOf (pid : Z) (calls : list Call) : nat :=
  List.length
    (List.filter
       (fun '(play, _, _) => bool_decide (mu_pitcherId (p_matchup play) = pid))
       calls).

(** The fallback code of a family. *)
Definition fallbackCode (family : Family) : string :=
  match family with
  | fastball => "FF"
  | breaking => "SL"
  | change => "CH"
  end.

(** The resolver as a function of the coordinate cache, the only store it
    reads or writes: its result and the cache it leaves. *)
Definition resolveOn (game : Game) (cache : gmap string CacheEntry)
  (playIdx pitchIdx : nat) : Res Location * gmap string CacheEntry :=
  let r := run (getPitchCoordinates game playIdx pitchIdx)
               (set_pitchCoordCache cache (initialStores ∅)) in
  (fst r, pitchCoordCache (snd r)).

(** What the loader counts of a record: the player id, the family, the
    code and the usage, for a record with a player id that is not 0, a pitch
    type that is not empty and a usage. *)
Definition rowFamily (row : ArsenalRow) : option (Z * Family * string * Q) :=
  match row_player_id row, row_pitch_type row, row_pitch_usage row with
  | Some id, Some pitchType, Some usage =>
    if (id =? 0)%Z || negb (truthy (Some pitchType)) then None
    else
      let code := normalizedCode (toUpperCase pitchType) in
      match mapPitchCodeToBucket (Some code) with
      | Some family => Some (id, family, code, usage)
      | None => None
      end
  | _, _, _ => None
  end.

(** The usage of the records of a pitcher in a family, added up in the order
    of the file. *)
Definition usageOf (pid : Z) (fam : Family) (records : list ArsenalRow) : Q :=
  fold_left
    (fun acc row =>
       match rowFamily row with
       | Some (id, family, _, usage) =>
         if bool_decide (id = pid) && bool_decide (family = fam)
         then acc + usage else acc
       | None => acc
       end)
    records 0.

(** The sum of the shares of a list of entries. *)
Definition sumShares (entries : list (string * Q)) : Q :=
  fold_right (fun kv acc => snd kv + acc) 0 entries.

(** No record carries a negative usage. *)
Definition usagesNonneg (records : list ArsenalRow) : Prop :=
  forall row u, In row records -> row_pitch_usage row = Some u -> 0 <= u.

(** ** Notions of the returned distributions *)






(** The shares add up to 1 within 1e-6, a tolerance that absorbs the rounding
    of the engine. *)
Definition sumsToOne (m : Mix) : Prop := Qabs (mixSum m - 1) <= 1 # 1000000.

(** The same of a list of entries. *)
Definition sharesSumToOne (entries : list (string * Q)) : Prop :=
  Qabs (sumShares entries - 1) <= 1 # 1000000.

(** Three shares between 0 and 1. *)
Definition proportions (m : Mix) : Prop :=
  forall fam, 0 <= mixGet m fam /\ mixGet m fam <= 1.

(** * Example inputs *)

(** A grounded-into-double-play at-bat of one pitch, put in play at 88 mph. *)
Definition dpPitch : PitchEvent :=
  {| ev_pitchNumber := Some 1%Z;
     ev_details :=
       Some {| d_typeCode := Some "SI";
               d_description := Some "In play, out(s)";
               d_isInPlay := true;
               d_coordinates := None;
               d_startSpeed := Some 93.1;
               d_pitchNumber := None |};
     ev_pitchData := None;
     ev_breaks := None;
     ev_count := Some {| c_balls := Some 0%Z; c_strikes := Some 0%Z |};
     ev_launchSpeed := Some 88;
     ev_isPitch := true |}.

Definition dpPlay : Play :=
  {| p_about := {| atBatIndex := Some 7%Z; ab_inning := 2;
                   ab_halfInning := "top" |};
     p_matchup := {| mu_pitcherId := 10; mu_batterId := 20;
                     mu_pitchHand := Some "R"; mu_batSide := Some "R" |};
     p_runners := Some [1%Z];
     p_event := Some "Grounded Into DP";
     p_eventType := Some "grounded_into_double_play";
     p_playEvents := [dpPitch] |}.

(** A left-hander facing a right-handed batter at three balls and one
    strike, the previous pitch a changeup taken for a ball; no profile of
    either player yet. *)
Definition ctxNeg : Ctx :=
  mkCtx 5 "Top" 3 1 0 (mkRunnersOn false false false)
        (Some "CH") "Ball" ["FF"; "CH"] None None "L" "R" noLocation
        None None None None 10 20 None.


(** A slider taken for a called strike, and the stores after it has been
    recorded for batter 20 as the first pitch they see. *)
Definition takenSlider : PitchEvent :=
  {| ev_pitchNumber := Some 1%Z;
     ev_details :=
       Some {| d_typeCode := Some "SL";
               d_description := Some "Called Strike";
               d_isInPlay := false;
               d_coordinates := None;
               d_startSpeed := Some 86.4;
               d_pitchNumber := None |};
     ev_pitchData := None;
     ev_breaks := None;
     ev_count := Some {| c_balls := Some 0%Z; c_strikes := Some 0%Z |};
     ev_launchSpeed := None;
     ev_isPitch := true |}.

Definition afterOneSlider : Stores :=
  snd (run (updateBatterVsPitchStats dpPlay takenSlider (Some breaking)
                                     false None)
           (initialStores ∅)).



(** Ten pitches that miss high and to the arm side of a regular zone. *)
Definition highArm : Location := trueLocation 2 4 3.5 1.5.

Definition highArmCalls : list Call :=
  repeat (dpPlay, dpPitch, Some highArm) 10.

(** A game in which the second pitch of at-bat 3 is recorded twice: once
    with its Statcast coordinates, and once, under another play entry, with
    neither coordinates nor a breaks block. *)
Definition locatedPitch : PitchEvent :=
  {| ev_pitchNumber := Some 2%Z;
     ev_details :=
       Some {| d_typeCode := Some "FF";
               d_description := Some "Called Strike";
               d_isInPlay := false;
               d_coordinates := None;
               d_startSpeed := None;
               d_pitchNumber := None |};
     ev_pitchData :=
       Some {| pd_coordinates :=
                 Some {| sc_pX := Some 0.42; sc_pZ := Some 2.31 |};
               pd_strikeZoneTop := Some 3.4;
               pd_strikeZoneBottom := Some 1.6;
               pd_startSpeed := Some 96.2;
               pd_pitchNumber := None |};
     ev_breaks := None;
     ev_count := Some {| c_balls := Some 1%Z; c_strikes := Some 0%Z |};
     ev_launchSpeed := None;
     ev_isPitch := true |}.

Definition barePitch : PitchEvent :=
  {| ev_pitchNumber := Some 2%Z;
     ev_details := None;
     ev_pitchData := None;
     ev_breaks := None;
     ev_count := None;
     ev_launchSpeed := None;
     ev_isPitch := true |}.

Definition atBat3 (evs : list PitchEvent) : Play :=
  {| p_about := {| atBatIndex := Some 3%Z; ab_inning := 1;
                   ab_halfInning := "bottom" |};
     p_matchup := {| mu_pitcherId := 10; mu_batterId := 20;
                     mu_pitchHand := Some "R"; mu_batSide := Some "L" |};
     p_runners := None;
     p_event := None;
     p_eventType := None;
     p_playEvents := evs |}.

Definition twiceRecorded : Game :=
  {| allPlays := [atBat3 [locatedPitch]; atBat3 [barePitch]] |}.

(** A game of one pitch that carries no pitch-type code and no location. *)
Definition uncodedPitch : PitchEvent :=
  {| ev_pitchNumber := Some 1%Z;
     ev_details :=
       Some {| d_typeCode := None;
               d_description := Some "Ball";
               d_isInPlay := false;
               d_coordinates := None;
               d_startSpeed := None;
               d_pitchNumber := None |};
     ev_pitchData := None;
     ev_breaks := None;
     ev_count := Some {| c_balls := Some 0%Z; c_strikes := Some 0%Z |};
     ev_launchSpeed := None;
     ev_isPitch := true |}.

Definition uncodedGame : Game :=
  {| allPlays := [atBat3 [uncodedPitch]] |}.

(** An at-bat with a given terminal event type. *)
Definition atBatEnding (eventType : string) : Play :=
  {| p_about := {| atBatIndex := Some 3%Z; ab_inning := 1;
                   ab_halfInning := "bottom" |};
     p_matchup := {| mu_pitcherId := 10; mu_batterId := 20;
                     mu_pitchHand := Some "R"; mu_batSide := Some "L" |};
     p_runners := None;
     p_event := None;
     p_eventType := Some eventType;
     p_playEvents := [dpPitch] |}.



(** A usage table with one pitcher: two fastballs, one breaking ball and no
    changeup. *)
Definition usageOfTen : TypeUsage :=
  {[ 10%Z := mkFamilyTypes [("FF", 0.7); ("SI", 0.3)] [("SL", 1)] [] ]}.

(** * The threshold tests on binary64 numbers *)

(** The numbers of JavaScript are IEEE 754 binary64 values.  Where the answer
    of a function turns on comparing a computed number with a threshold, or
    two computed numbers with one another, exact arithmetic and binary64
    arithmetic can disagree.  The two functions of the engine of which a
    property of that kind is stated are therefore embedded a second time
    here, on the primitive binary64 numbers, whose operations round as the
    ones of the engine do; a decimal literal stands for the nearest binary64
    value, as it does in the script. *)

Set Warnings "-inexact-float".

Module Binary64.
Import PrimFloat.
Local Open Scope float_scope.

(** A counter as a number.  The counters of the stores are integers, which a
    binary64 number holds exactly up to [2^53]. *)
Definition ofZ (n : Z) : float :=
  FloatOps.SF2Prim
    (SpecFloat.binary_normalize FloatOps.prec FloatOps.emax n 0 false).

(** ** Tunnel detection *)

(** What the resolver returns, as in [Location] above. *)
Record Location : Type := mkLocation {
  hasLocation : bool;
  isBreakData : bool;
  l_px : option float;
  l_pz : option float;
  l_szTop : option float;
  l_szBot : option float;
  l_hb : option float;
  l_vb : option float;
  l_angle : option float;
  l_length : option float;
}.

(** [{ lastPitchType, location }] *)
Record TunnelCtx : Type := mkTunnelCtx {
  tc_lastPitchType : option string;
  tc_location : option Location;
}.

Record TunnelInfo : Type := mkTunnelInfo {
  pxDiff : float;
  pzDiff : float;
  hbDiff : float;
  vbDiff : float;
  totalBreakDiff : float;
  label : string;
}.

Definition TUNNEL_HORIZONTAL_THRESHOLD : float := 0.3.
Definition TUNNEL_VERTICAL_THRESHOLD : float := 0.3.
Definition TUNNEL_BREAK_DIFF_THRESHOLD : float := 3.0.

Definition detectTunnel (prevCtx currCtx : option TunnelCtx)
  : option TunnelInfo :=
  match prevCtx, currCtx with
  | Some prevCtx, Some currCtx =>
    match tc_location prevCtx, tc_location currCtx with
    | Some A, Some B =>
      (* Must have some form of trajectory / movement *)
      if negb (hasLocation A) && negb (isBreakData A) then None
      else if negb (hasLocation B) && negb (isBreakData B) then None
      else
        (* early trajectory similarity *)
        let pxA := l_px A ?? 0 in
        let pxB := l_px B ?? 0 in
        let pzA := l_pz A ?? 0 in
        let pzB := l_pz B ?? 0 in
        let pxDiff := abs (pxA - pxB) in
        let pzDiff := abs (pzA - pzB) in
        let earlyAligned :=
          (pxDiff <? TUNNEL_HORIZONTAL_THRESHOLD)
          && (pzDiff <? TUNNEL_VERTICAL_THRESHOLD) in
        if negb earlyAligned then None
        else
          (* late flight divergence *)
          let hbDiff := abs ((l_hb A ?? 0) - (l_hb B ?? 0)) in
          let vbDiff := abs ((l_vb A ?? 0) - (l_vb B ?? 0)) in
          let totalBreakDiff := hbDiff + vbDiff in
          if totalBreakDiff <? TUNNEL_BREAK_DIFF_THRESHOLD then None
          else
            Some (mkTunnelInfo pxDiff pzDiff hbDiff vbDiff totalBreakDiff
                    (tunnelLabel (tc_lastPitchType prevCtx)
                                 (tc_lastPitchType currCtx)))
    | _, _ => None
    end
  | _, _ => None
  end.

(** ** Batter against pitch family *)

(** [batterVsPitchStats[batterId][family]]: the six counters, and the three
    rates that [getBatterVsPitchProfile] attaches. *)
Record FamStats : Type := mkFamStats {
  seen : Z;
  swings : Z;
  whiffs : Z;
  inPlay : Z;
  hits : Z;
  hardHit : Z;
  whiffRate : option float;
  hitRate : option float;
  hardHitRate : option float;
}.

(** [batterVsPitchStats[batterId]] *)
Record BatterFamilies : Type := mkBatterFamilies {
  bf_fastball : FamStats;
  bf_breaking : FamStats;
  bf_change : FamStats;
}.

Definition bfGet (b : BatterFamilies) (fam : Family) : FamStats :=
  match fam with
  | fastball => bf_fastball b
  | breaking => bf_breaking b
  | change => bf_change b
  end.

Definition bfSet (b : BatterFamilies) (fam : Family) (s : FamStats)
  : BatterFamilies :=
  match fam with
  | fastball => mkBatterFamilies s (bf_breaking b) (bf_change b)
  | breaking => mkBatterFamilies (bf_fastball b) s (bf_change b)
  | change => mkBatterFamilies (bf_fastball b) (bf_breaking b) s
  end.

(** [vuln]: a score for each of the three families. *)
Record Scores : Type := mkScores {
  v_fastball : float;
  v_breaking : float;
  v_change : float;
}.

Definition vGet (v : Scores) (fam : Family) : float :=
  match fam with
  | fastball => v_fastball v
  | breaking => v_breaking v
  | change => v_change v
  end.

Definition vSet (v : Scores) (fam : Family) (x : float) : Scores :=
  match fam with
  | fastball => mkScores x (v_breaking v) (v_change v)
  | breaking => mkScores (v_fastball v) x (v_change v)
  | change => mkScores (v_fastball v) (v_breaking v) x
  end.

(** [{ ...raw, vuln, topWeakFamily }] *)
Record BatterProfile : Type := mkBatterProfile {
  bp_raw : BatterFamilies;
  vuln : Scores;
  topWeakFamily : option Family;
}.

(** [den > 0 ? num / den : 0] on two counters. *)
Definition rateOf (num den : Z) : float :=
  if (0 <? den)%Z then ofZ num / ofZ den else 0.

(** [0.6 * whiffRate + 0.25 * (1 - hitRate) + 0.15 * (1 - hardHitRate)] *)
Definition vulnScore (whiffRate hitRate hardHitRate : float) : float :=
  0.6 * whiffRate + 0.25 * (1 - hitRate) + 0.15 * (1 - hardHitRate).

(** One turn of the loop of [getBatterVsPitchProfile] over the families: the
    family records (with the rates attached), the scores so far, the weakest
    family so far and its score. *)
Definition profileStep
  (acc : BatterFamilies * Scores * option Family * float) (fam : Family)
  : BatterFamilies * Scores * option Family * float :=
  let '(raw, vuln, topWeakFamily, bestScore) := acc in
  let s := bfGet raw fam in
  let whiffRate := rateOf (whiffs s) (swings s) in
  let hitRate := rateOf (hits s) (inPlay s) in
  let hardHitRate := rateOf (hardHit s) (inPlay s) in
  (* Higher score = batter worse vs that family *)
  let score := vulnScore whiffRate hitRate hardHitRate in
  let vuln := vSet vuln fam score in
  let better := (3 <=? seen s)%Z && (bestScore <? score) in
  (* attach the derived rates back on raw[fam] *)
  let s' := mkFamStats (seen s) (swings s) (whiffs s) (inPlay s) (hits s)
                       (hardHit s) (Some whiffRate) (Some hitRate)
                       (Some hardHitRate) in
  (bfSet raw fam s', vuln,
   if better then Some fam else topWeakFamily,
   if better then score else bestScore).

(** [getBatterVsPitchProfile], on the one store it reads and writes: the
    profile it returns and the store it leaves. *)
Definition getBatterVsPitchProfile (batterId : Z)
  (batterVsPitchStats : gmap Z BatterFamilies)
  : option BatterProfile * gmap Z BatterFamilies :=
  match batterVsPitchStats !! batterId with
  | None => (None, batterVsPitchStats)
  | Some raw =>
    let '(raw', vuln, topWeakFamily, _) :=
      fold_left profileStep families
                (raw, mkScores 0 0 0, None, neg_infinity) in
    (Some (mkBatterProfile raw' vuln topWeakFamily),
     <[batterId := raw']> batterVsPitchStats)
  end.

(** ** Notions used in the statements *)

(** The differences [detectTunnel] computes for two location records. *)
Definition pxDiffOf (A B : Location) : float :=
  abs ((l_px A ?? 0) - (l_px B ?? 0)).
Definition pzDiffOf (A B : Location) : float :=
  abs ((l_pz A ?? 0) - (l_pz B ?? 0)).
Definition breakDiffOf (A B : Location) : float :=
  abs ((l_hb A ?? 0) - (l_hb B ?? 0)) + abs ((l_vb A ?? 0) - (l_vb B ?? 0)).

(** The record [detectTunnel] returns for two location records and the two
    pitch types. *)
Definition tunnelOf (A B : Location) (prevType currType : option string)
  : TunnelInfo :=
  mkTunnelInfo (pxDiffOf A B) (pzDiffOf A B)
               (abs ((l_hb A ?? 0) - (l_hb B ?? 0)))
               (abs ((l_vb A ?? 0) - (l_vb B ?? 0)))
               (breakDiffOf A B)
               (tunnelLabel prevType currType).

(** The score of a record of counters. *)
Definition scoreOf (s : FamStats) : float :=
  vulnScore (rateOf (whiffs s) (swings s))
            (rateOf (hits s) (inPlay s))
            (rateOf (hardHit s) (inPlay s)).

(** ** Example inputs *)

(** A movement-only reading. *)
Definition breakResult (hb vb : float) : Location :=
  mkLocation false true None None None None (Some hb) (Some vb) None None.

(** A true location with the usual zone. *)
Definition located (px pz : float) : Location :=
  mkLocation true false (Some px) (Some pz) (Some 3.5) (Some 1.5)
             None None None None.

(** Two consecutive movement-only readings whose horizontal breaks differ by
    exactly three inches. *)
Definition tunnelPrev : TunnelCtx :=
  mkTunnelCtx (Some "FF") (Some (breakResult 3 0)).
Definition tunnelCurr : TunnelCtx :=
  mkTunnelCtx (Some "SL") (Some (breakResult 0 0)).

(** A record of counters without rates. *)
Definition counters (seen swings whiffs inPlay hits hardHit : Z) : FamStats :=
  mkFamStats seen swings whiffs inPlay hits hardHit None None None.

(** A batter who has seen three fastballs (three swings, one whiff, one ball
    in play, a hard hit) and three breaking balls (two swings, no whiff, two
    balls in play, one hit, one hard hit): in exact arithmetic both scores
    are 1/5. *)
Definition closeScores : gmap Z BatterFamilies :=
  {[ 20%Z := mkBatterFamilies (counters 3 3 1 1 1 1) (counters 3 2 0 2 1 1)
                              (counters 0 0 0 0 0 0) ]}.

End Binary64.

(** * Properties *)

(** ** Comparisons of numbers *)

Lemma Qltb_lt (a b : Q) : Qltb a b = true <-> a < b.
Proof.
  unfold Qltb. rewrite negb_true_iff.
  split; intros H.
  - apply Qnot_le_lt. intros Hle. apply Qle_bool_iff in Hle. congruence.
  - destruct (Qle_bool b a) eqn:E; [|reflexivity].
    apply Qle_bool_iff in E. exfalso. exact (Qlt_not_le _ _ H E).
Qed.

Lemma Qltb_ge (a b : Q) : Qltb a b = false <-> b <= a.
Proof.
  unfold Qltb. rewrite negb_false_iff. apply Qle_bool_iff.
Qed.

Lemma Qgeb_le (a b : Q) : Qgeb a b = true <-> b <= a.
Proof. apply Qle_bool_iff. Qed.

Lemma Qgtb_gt (a b : Q) : Qgtb a b = true <-> b < a.
Proof. apply Qltb_lt. Qed.

Lemma Qgtb_le (a b : Q) : Qgtb a b = false <-> a <= b.
Proof. apply Qltb_ge. Qed.

Lemma Qeq_bool_false (a b : Q) : Qeq_bool a b = false <-> ~ a == b.
Proof.
  split.
  - intros H E. apply Qeq_bool_iff in E. congruence.
  - intros H. destruct (Qeq_bool a b) eqn:E; [|reflexivity].
    apply Qeq_bool_iff in E. contradiction.
Qed.

(** ** The pitch family mapping *)

Lemma truthy_Some (s : string) : s <> "" -> truthy (Some s) = true.
Proof.
  intros H. unfold truthy. apply negb_true_iff.
  destruct (String.eqb s "") eqn:E; [|reflexivity].
  apply String.eqb_eq in E. contradiction.
Qed.

Lemma arrIncludes_In (arr : list string) (x : string) :
  arrIncludes arr x = true <-> In x arr.
Proof.
  unfold arrIncludes. rewrite existsb_exists. split.
  - intros [y [Hy E]]. apply String.eqb_eq in E. now subst.
  - intros H. exists x. split; [assumption|apply String.eqb_refl].
Qed.

Lemma normalizedCode_known (c : string) (fam : Family) :
  In (normalizedCode c, fam) knownCodes -> exists fam', In (c, fam') knownCodes.
Proof.
  unfold normalizedCode.
  destruct (String.eqb c "FT") eqn:E1.
  { apply String.eqb_eq in E1. subst. intros _. exists fastball. simpl. tauto. }
  destruct (String.eqb c "ST") eqn:E2.
  { apply String.eqb_eq in E2. subst. intros _. exists breaking. simpl. tauto. }
  intros H. now exists fam.
Qed.

(** A missing code and the empty code get no family. *)
Lemma mapPitchCodeToBucket_no_code :
  mapPitchCodeToBucket None = None /\ mapPitchCodeToBucket (Some "") = None.
Proof. split; reflexivity. Qed.

(** C6, as the code has it.  The pitch-family classifier is a function of
    the code alone (it is not a computation on the stores).  It answers
    [null] exactly for a missing code and for the empty code; every other
    code gets a family: a code whose upper-case form is one of the listed
    codes gets the family of its list, and only that one; any other code gets
    fastball; the two preferences are applied before the lookup, so a
    two-seam code (FT) is classified as a sinker code (SI) is and an ST code
    as a sweeper code (SW) is, and a knuckle-curve code (KC) is classified as
    a sweeper code is. *)
Theorem mapPitchCodeToBucket_total (code : option string) :
  (mapPitchCodeToBucket code = None <-> code = None \/ code = Some "") /\
  (forall c,
      code = Some c -> c <> "" ->
      (exists fam, mapPitchCodeToBucket code = Some fam) /\
      (forall fam, In (toUpperCase c, fam) knownCodes ->
                   mapPitchCodeToBucket code = Some fam) /\
      ((forall fam, ~ In (toUpperCase c, fam) knownCodes) ->
       mapPitchCodeToBucket code = Some fastball)) /\
  mapPitchCodeToBucket (Some "FT") = mapPitchCodeToBucket (Some "SI") /\
  mapPitchCodeToBucket (Some "ST") = mapPitchCodeToBucket (Some "SW") /\
  mapPitchCodeToBucket (Some "KC") = mapPitchCodeToBucket (Some "SW").
Proof.
  assert (Hmap : forall c, c <> "" ->
    mapPitchCodeToBucket (Some c) =
    let normalized := normalizedCode (toUpperCase c) in
    if arrIncludes ["FF"; "FT"; "SI"; "FC"; "FA"] normalized then Some fastball
    else if arrIncludes ["FS"] normalized then Some change
    else if arrIncludes ["CH"; "SF"; "FO"; "SC"] normalized then Some change
    else if arrIncludes ["SL"; "CU"; "KC"; "KN"; "SV"; "ST"; "SW"] normalized
    then Some breaking else Some fastball).
  { intros c Hc. unfold mapPitchCodeToBucket. rewrite (truthy_Some c Hc).
    reflexivity. }
  assert (Hsome : forall c, c <> "" ->
                            exists fam, mapPitchCodeToBucket (Some c) = Some fam).
  { intros c Hc. rewrite (Hmap c Hc). cbv zeta.
    repeat match goal with |- context [if ?b then _ else _] => destruct b end;
      eauto. }
  split; [|split; [|split; [|split]]]; try reflexivity.
  - split.
    + destruct code as [c|]; [|now left].
      destruct (String.eqb_spec c "") as [->|Hc]; [now right|].
      destruct (Hsome c Hc) as [fam ->]. discriminate.
    + intros [->| ->]; reflexivity.
  - intros c -> Hc. split; [exact (Hsome c Hc)|]. split.
    + intros fam Hin. rewrite (Hmap c Hc).
      simpl in Hin.
      repeat (destruct Hin as [Hin | Hin];
              [injection Hin as Hc' Hf; rewrite <- Hc'; subst fam; reflexivity|]).
      contradiction.
    + intros Hunknown. rewrite (Hmap c Hc). cbv zeta.
      assert (Hno : forall l fam,
                 (forall x, In x l -> In (x, fam) knownCodes) ->
                 arrIncludes l (normalizedCode (toUpperCase c)) = false).
      { intros l fam Hl.
        destruct (arrIncludes l (normalizedCode (toUpperCase c))) eqn:E;
          [|reflexivity].
        apply arrIncludes_In in E. apply Hl in E.
        apply normalizedCode_known in E. destruct E as [fam' E].
        exfalso. exact (Hunknown fam' E). }
      rewrite (Hno _ fastball), (Hno _ change), (Hno _ change),
              (Hno _ breaking); [reflexivity|..];
        intros x Hx; simpl in Hx; simpl;
        repeat (destruct Hx as [Hx | Hx]; [subst x; tauto|]); contradiction.
Qed.

(** ** The threshold tests in binary64 *)

Section Binary64Facts.
Import PrimFloat.

(** The order of binary64 numbers, on their specification. *)
Lemma SFltb_chain (a b c : SpecFloat.spec_float) :
  SpecFloat.SFltb b a = false -> SpecFloat.SFltb b c = true ->
  SpecFloat.SFltb c a = false.
Proof.
  unfold SpecFloat.SFltb, SpecFloat.SFcompare.
  destruct a as [sa|sa| |sa ma ea], b as [sb|sb| |sb mb eb],
           c as [sc|sc| |sc mc ec];
    repeat match goal with s : bool |- _ => destruct s end;
    cbn; try congruence;
    repeat match goal with
           | |- context [(?x ?= ?y)%Z] => destruct (Z.compare_spec x y)
           end;
    cbn; try congruence; try lia;
    repeat match goal with
           | |- context [Pos.compare_cont Eq ?x ?y] =>
               change (Pos.compare_cont Eq x y) with (x ?= y)%positive;
               destruct (Pos.compare_spec x y)
           end;
    cbn; try congruence; try lia.
Qed.

Lemma SFltb_asym (a b : SpecFloat.spec_float) :
  SpecFloat.SFltb a b = true -> SpecFloat.SFltb b a = false.
Proof.
  unfold SpecFloat.SFltb, SpecFloat.SFcompare.
  destruct a as [sa|sa| |sa ma ea], b as [sb|sb| |sb mb eb];
    repeat match goal with s : bool |- _ => destruct s end;
    cbn; try congruence;
    repeat match goal with
           | |- context [(?x ?= ?y)%Z] => destruct (Z.compare_spec x y)
           end;
    cbn; try congruence; try lia;
    repeat match goal with
           | |- context [Pos.compare_cont Eq ?x ?y] =>
               change (Pos.compare_cont Eq x y) with (x ?= y)%positive;
               destruct (Pos.compare_spec x y)
           end;
    cbn; try congruence; try lia.
Qed.

(** If [a] is not above [b] and [c] is above [b], then [a] is not above
    [c]; this holds also when [a] is not a number. *)
Lemma ltb_chain (a b c : float) :
  (b <? a)%float = false -> (b <? c)%float = true -> (c <? a)%float = false.
Proof. rewrite !FloatAxioms.ltb_spec. apply SFltb_chain. Qed.

Lemma ltb_asym (a b : float) :
  (a <? b)%float = true -> (b <? a)%float = false.
Proof. rewrite !FloatAxioms.ltb_spec. apply SFltb_asym. Qed.

Lemma ltb_irrefl (a : float) : (a <? a)%float = false.
Proof.
  destruct (a <? a)%float eqn:E; [|reflexivity].
  now rewrite (ltb_asym a a E) in E.
Qed.

(** *** The tunnel detector *)

(** A summed break difference of exactly 3.0 is reported as a tunnel. *)
Lemma detectTunnel_at_break_threshold :
  exists t,
    Binary64.detectTunnel (Some Binary64.tunnelPrev)
                          (Some Binary64.tunnelCurr) = Some t /\
    (Binary64.pxDiff t <? 0.3)%float = true /\
    (Binary64.pzDiff t <? 0.3)%float = true /\
    Binary64.totalBreakDiff t = 3.0%float.
Proof.
  eexists. split; [vm_compute; reflexivity|].
  repeat split; reflexivity.
Qed.

(** The differences are rounded as the engine rounds them.  Between the
    sides 1.2 and 0.9 the computed planar difference is below 0.3, so a
    tunnel is reported; between the breaks 4.1 and 1.1 the computed
    difference is below 3.0, so none is. *)
Lemma detectTunnel_rounds_as_binary64 :
  (exists t,
      Binary64.detectTunnel
        (Some (Binary64.mkTunnelCtx None
                 (Some (Binary64.mkLocation true true (Some 1.2%float)
                          (Some 2%float) (Some 3.5%float) (Some 1.5%float)
                          (Some 5%float) (Some 0%float) None None))))
        (Some (Binary64.mkTunnelCtx None
                 (Some (Binary64.located 0.9 2)))) = Some t /\
      (Binary64.pxDiff t <? 0.3)%float = true) /\
  Binary64.detectTunnel
    (Some (Binary64.mkTunnelCtx None (Some (Binary64.breakResult 4.1 0))))
    (Some (Binary64.mkTunnelCtx None (Some (Binary64.breakResult 1.1 0))))
  = None.
Proof.
  split; [|vm_compute; reflexivity].
  eexists. split; [vm_compute; reflexivity|reflexivity].
Qed.

(** C3, as the code has it.  [detectTunnel] returns a result exactly when
    both contexts are there, both carry a location record with a true
    location or a movement reading, both early-trajectory planar differences
    (a missing coordinate counted as 0), as the engine computes them, are
    strictly below 0.3, and the computed sum of the absolute break
    differences is not below 3.0; the result carries the four differences,
    their sum and the label.  So a computed planar difference of exactly 0.3
    gives no tunnel, and a computed summed break difference of exactly 3.0
    gives one. *)
Theorem detectTunnel_iff (prevCtx currCtx : option Binary64.TunnelCtx) :
  (forall t,
      Binary64.detectTunnel prevCtx currCtx = Some t <->
      exists p c A B,
        prevCtx = Some p /\ currCtx = Some c /\
        Binary64.tc_location p = Some A /\
        Binary64.tc_location c = Some B /\
        (Binary64.hasLocation A || Binary64.isBreakData A = true)%bool /\
        (Binary64.hasLocation B || Binary64.isBreakData B = true)%bool /\
        (Binary64.pxDiffOf A B <? 0.3)%float = true /\
        (Binary64.pzDiffOf A B <? 0.3)%float = true /\
        (Binary64.breakDiffOf A B <? 3.0)%float = false /\
        t = Binary64.tunnelOf A B (Binary64.tc_lastPitchType p)
                              (Binary64.tc_lastPitchType c)) /\
  (forall p c A B,
      prevCtx = Some p -> currCtx = Some c ->
      Binary64.tc_location p = Some A -> Binary64.tc_location c = Some B ->
      (Binary64.pxDiffOf A B = 0.3%float \/
       Binary64.pzDiffOf A B = 0.3%float ->
       Binary64.detectTunnel prevCtx currCtx = None) /\
      ((Binary64.hasLocation A || Binary64.isBreakData A = true)%bool ->
       (Binary64.hasLocation B || Binary64.isBreakData B = true)%bool ->
       (Binary64.pxDiffOf A B <? 0.3)%float = true ->
       (Binary64.pzDiffOf A B <? 0.3)%float = true ->
       Binary64.breakDiffOf A B = 3.0%float ->
       Binary64.detectTunnel prevCtx currCtx
       = Some (Binary64.tunnelOf A B (Binary64.tc_lastPitchType p)
                                 (Binary64.tc_lastPitchType c)))).
Proof.
  assert (Hiff : forall t,
      Binary64.detectTunnel prevCtx currCtx = Some t <->
      exists p c A B,
        prevCtx = Some p /\ currCtx = Some c /\
        Binary64.tc_location p = Some A /\
        Binary64.tc_location c = Some B /\
        (Binary64.hasLocation A || Binary64.isBreakData A = true)%bool /\
        (Binary64.hasLocation B || Binary64.isBreakData B = true)%bool /\
        (Binary64.pxDiffOf A B <? 0.3)%float = true /\
        (Binary64.pzDiffOf A B <? 0.3)%float = true /\
        (Binary64.breakDiffOf A B <? 3.0)%float = false /\
        t = Binary64.tunnelOf A B (Binary64.tc_lastPitchType p)
                              (Binary64.tc_lastPitchType c)).
  { intros t.
    unfold Binary64.detectTunnel, Binary64.tunnelOf, Binary64.pxDiffOf,
           Binary64.pzDiffOf, Binary64.breakDiffOf,
           Binary64.TUNNEL_HORIZONTAL_THRESHOLD,
           Binary64.TUNNEL_VERTICAL_THRESHOLD,
           Binary64.TUNNEL_BREAK_DIFF_THRESHOLD.
    split.
    - destruct prevCtx as [p|]; [|discriminate].
      destruct currCtx as [c|]; [|discriminate].
      destruct (Binary64.tc_location p) as [A|] eqn:EA; [|discriminate].
      destruct (Binary64.tc_location c) as [B|] eqn:EB; [|discriminate].
      destruct (negb (Binary64.hasLocation A)
                && negb (Binary64.isBreakData A)) eqn:HA; [discriminate|].
      destruct (negb (Binary64.hasLocation B)
                && negb (Binary64.isBreakData B)) eqn:HB; [discriminate|].
      cbv zeta.
      destruct (abs ((Binary64.l_px A ?? 0) - (Binary64.l_px B ?? 0)) <? 0.3)%float
        eqn:Hx; [|discriminate].
      destruct (abs ((Binary64.l_pz A ?? 0) - (Binary64.l_pz B ?? 0)) <? 0.3)%float
        eqn:Hz; [|discriminate].
      cbn [andb negb].
      destruct (_ <? 3.0)%float eqn:Hb; [discriminate|].
      intros Ht. injection Ht as <-.
      exists p, c, A, B.
      repeat split; try assumption.
      + destruct (Binary64.hasLocation A), (Binary64.isBreakData A);
          try reflexivity; discriminate.
      + destruct (Binary64.hasLocation B), (Binary64.isBreakData B);
          try reflexivity; discriminate.
    - intros (p & c & A & B & -> & -> & EA & EB & HA & HB & Hx & Hz & Hb & ->).
      rewrite EA, EB.
      replace (negb (Binary64.hasLocation A)
               && negb (Binary64.isBreakData A)) with false
        by (destruct (Binary64.hasLocation A), (Binary64.isBreakData A);
            try reflexivity; discriminate).
      replace (negb (Binary64.hasLocation B)
               && negb (Binary64.isBreakData B)) with false
        by (destruct (Binary64.hasLocation B), (Binary64.isBreakData B);
            try reflexivity; discriminate).
      cbv zeta. rewrite Hx, Hz. cbn [andb negb]. rewrite Hb. reflexivity. }
  split; [exact Hiff|].
  intros p c A B Ep Ec EA EB. split.
  - intros Hd.
    destruct (Binary64.detectTunnel prevCtx currCtx) as [t|] eqn:Et;
      [|reflexivity].
    destruct (proj1 (Hiff t) eq_refl)
      as (p' & c' & A' & B' & Ep' & Ec' & EA' & EB' & _ & _ & Hx & Hz & _).
    rewrite Ep in Ep'. injection Ep' as <-.
    rewrite Ec in Ec'. injection Ec' as <-.
    rewrite EA in EA'. injection EA' as <-.
    rewrite EB in EB'. injection EB' as <-.
    destruct Hd as [Hd|Hd]; [rewrite Hd in Hx|rewrite Hd in Hz];
      discriminate.
  - intros HA HB Hx Hz Hb. apply Hiff.
    exists p, c, A, B.
    split; [exact Ep|]. split; [exact Ec|]. split; [exact EA|].
    split; [exact EB|]. split; [exact HA|]. split; [exact HB|].
    split; [exact Hx|]. split; [exact Hz|].
    split; [now rewrite Hb|reflexivity].
Qed.

(** *** The batter profile *)

(** The scores are rounded as the engine rounds them: for the batter of
    [closeScores] the two scores, equal in exact arithmetic, are computed as
    two different numbers, and the engine names breaking. *)
Lemma getBatterVsPitchProfile_rounds_as_binary64 :
  exists p,
    fst (Binary64.getBatterVsPitchProfile 20 Binary64.closeScores) = Some p /\
    (Binary64.v_fastball (Binary64.vuln p)
     <? Binary64.v_breaking (Binary64.vuln p))%float = true /\
    Binary64.topWeakFamily p = Some breaking.
Proof.
  eexists. split; [vm_compute; reflexivity|].
  split; reflexivity.
Qed.

(** The weakest family after the three turns of the loop. *)
Lemma profileFold_top (raw : Binary64.BatterFamilies) :
  let '(_, v, top, _) :=
    fold_left Binary64.profileStep families
              (raw, Binary64.mkScores 0 0 0, None, neg_infinity) in
  (forall fam,
      Binary64.vGet v fam = Binary64.scoreOf (Binary64.bfGet raw fam)) /\
  (forall fam,
      top = Some fam ->
      (3 <= Binary64.seen (Binary64.bfGet raw fam))%Z /\
      forall g,
        (3 <= Binary64.seen (Binary64.bfGet raw g))%Z ->
        (Binary64.scoreOf (Binary64.bfGet raw fam)
         <? Binary64.scoreOf (Binary64.bfGet raw g))%float = false) /\
  (top = None ->
   forall g,
     (3 <= Binary64.seen (Binary64.bfGet raw g))%Z ->
     (neg_infinity <? Binary64.scoreOf (Binary64.bfGet raw g))%float = false).
Proof.
  destruct raw as [f b c].
  unfold families, fold_left, Binary64.profileStep.
  cbn [Binary64.bfGet Binary64.bfSet Binary64.bf_fastball
       Binary64.bf_breaking Binary64.bf_change Binary64.vSet
       Binary64.v_fastball Binary64.v_breaking Binary64.v_change
       Binary64.seen Binary64.swings Binary64.whiffs Binary64.inPlay
       Binary64.hits Binary64.hardHit].
  fold (Binary64.scoreOf f) (Binary64.scoreOf b) (Binary64.scoreOf c).
  set (sf := Binary64.scoreOf f). set (sb := Binary64.scoreOf b).
  set (sc := Binary64.scoreOf c).
  split; [intros []; reflexivity|].
  destruct (3 <=? Binary64.seen f)%Z eqn:Qf;
    [apply Z.leb_le in Qf|apply Z.leb_gt in Qf];
    (destruct (neg_infinity <? sf)%float eqn:C1);
    cbn [andb];
    (destruct (3 <=? Binary64.seen b)%Z eqn:Qb;
     [apply Z.leb_le in Qb|apply Z.leb_gt in Qb]);
    cbn [andb];
    repeat match goal with
           | |- context [(?x <? ?y)%float] =>
               lazymatch goal with
               | H : (x <? y)%float = _ |- _ => rewrite H
               | _ => let E := fresh "C" in destruct (x <? y)%float eqn:E
               end
           | |- context [(3 <=? ?n)%Z] =>
               let E := fresh "Q" in
               destruct (3 <=? n)%Z eqn:E;
               [apply Z.leb_le in E|apply Z.leb_gt in E]
           end;
    cbn [andb];
    (split;
     [ intros fam Hfam; injection Hfam as <- || discriminate Hfam
     | intros Hnone; try discriminate Hnone ]);
    try (split; [assumption|]);
    intros g Hg; destruct g;
    cbn [Binary64.bfGet Binary64.bf_fastball Binary64.bf_breaking
         Binary64.bf_change] in *;
    fold sf sb sc;
    try lia; try assumption; try apply ltb_irrefl;
    try (apply ltb_asym; assumption);
    try (eapply ltb_chain; eassumption);
    try (eapply ltb_chain; [|eassumption]; eapply ltb_asym; eassumption);
    try (eapply ltb_chain; [|eassumption]; assumption);
    try (eapply ltb_chain; [|eassumption]; eapply ltb_chain; eassumption).
Qed.

(** C4, as the code has it.  For a batter with no entry in the store the
    read is absent.  For a batter with an entry it reports, for every family
    and whatever the number of pitches seen, the score
    0.6 * whiffRate + 0.25 * (1 - hitRate) + 0.15 * (1 - hardHitRate) as the
    engine computes it (0.4 for a family with no swing and no ball in play);
    only the top weak family is restricted to families
    with at least 3 observations: it has been seen at least 3 times and no
    family seen at least 3 times has a higher computed score, and it is
    absent only if no family seen at least 3 times has a score above minus
    infinity. *)
Theorem getBatterVsPitchProfile_scores (batterId : Z)
  (batterVsPitchStats : gmap Z Binary64.BatterFamilies) :
  match batterVsPitchStats !! batterId with
  | None =>
    fst (Binary64.getBatterVsPitchProfile batterId batterVsPitchStats) = None
  | Some raw =>
    exists p,
      fst (Binary64.getBatterVsPitchProfile batterId batterVsPitchStats)
      = Some p /\
      (forall fam,
          Binary64.vGet (Binary64.vuln p) fam
          = Binary64.vulnScore
              (Binary64.rateOf (Binary64.whiffs (Binary64.bfGet raw fam))
                               (Binary64.swings (Binary64.bfGet raw fam)))
              (Binary64.rateOf (Binary64.hits (Binary64.bfGet raw fam))
                               (Binary64.inPlay (Binary64.bfGet raw fam)))
              (Binary64.rateOf (Binary64.hardHit (Binary64.bfGet raw fam))
                               (Binary64.inPlay (Binary64.bfGet raw fam)))) /\
      (forall fam,
          Binary64.swings (Binary64.bfGet raw fam) = 0%Z ->
          Binary64.inPlay (Binary64.bfGet raw fam) = 0%Z ->
          Binary64.vGet (Binary64.vuln p) fam = 0.4%float) /\
      (forall fam,
          Binary64.topWeakFamily p = Some fam ->
          (3 <= Binary64.seen (Binary64.bfGet raw fam))%Z /\
          forall g,
            (3 <= Binary64.seen (Binary64.bfGet raw g))%Z ->
            (Binary64.scoreOf (Binary64.bfGet raw fam)
             <? Binary64.scoreOf (Binary64.bfGet raw g))%float = false) /\
      (Binary64.topWeakFamily p = None ->
       forall g,
         (3 <= Binary64.seen (Binary64.bfGet raw g))%Z ->
         (neg_infinity <? Binary64.scoreOf (Binary64.bfGet raw g))%float
         = false)
  end.
Proof.
  unfold Binary64.getBatterVsPitchProfile.
  destruct (batterVsPitchStats !! batterId) as [raw|]; [|reflexivity].
  pose proof (profileFold_top raw) as H.
  destruct (fold_left Binary64.profileStep families
              (raw, Binary64.mkScores 0 0 0, None, neg_infinity))
    as [[[raw' v] top] best].
  eexists. split; [reflexivity|]. cbn [Binary64.vuln Binary64.topWeakFamily].
  destruct H as (Hv & Htop & Hnone).
  split; [exact Hv|]. split; [|split; [exact Htop|exact Hnone]].
  intros fam Hs Hi. rewrite Hv. unfold Binary64.scoreOf, Binary64.rateOf.
  rewrite Hs, Hi. reflexivity.
Qed.

End Binary64Facts.

(** ** Read-only computations *)

Section ReadsOnly.
Context {B : Type} (proj : Stores -> B).

Lemma readsOnly_ret {A : Type} (a : A) : readsOnly proj (ret a).
Proof. intros s. split; [reflexivity|]. intros s' _. reflexivity. Qed.

Lemma readsOnly_throw {A : Type} : readsOnly proj (@throw A).
Proof. intros s. split; [reflexivity|]. intros s' _. reflexivity. Qed.

Lemma readsOnly_deref {A : Type} (x : option A) : readsOnly proj (deref x).
Proof. destruct x; [apply readsOnly_ret|apply readsOnly_throw]. Qed.

Lemma readsOnly_gets {A : Type} (f : Stores -> A) :
  (forall s s', proj s' = proj s -> f s' = f s) ->
  readsOnly proj (gets f).
Proof.
  intros Hf s. split; [reflexivity|].
  intros s' E. unfold gets. simpl. now rewrite (Hf s s' E).
Qed.

Lemma readsOnly_bind {A C : Type} (m : M A) (k : A -> M C) :
  readsOnly proj m -> (forall a, readsOnly proj (k a)) ->
  readsOnly proj (bind m k).
Proof.
  intros Hm Hk s. unfold bind.
  destruct (Hm s) as [Hs Hr].
  split.
  - destruct (m s) as [[a|] s1] eqn:E; simpl in Hs; subst s1.
    + apply (Hk a s).
    + reflexivity.
  - intros s' Es'.
    specialize (Hr s' Es').
    destruct (Hm s') as [Hs' _].
    destruct (m s) as [[a|] s1] eqn:E; destruct (m s') as [[a'|] s1'] eqn:E';
      simpl in *; subst; try discriminate.
    + injection Hr as ->. apply (Hk a s). assumption.
    + reflexivity.
Qed.
End ReadsOnly.

Lemma getBatterZoneEV_readsOnly (batterId : Z) (zone : string) (fam : Family) :
  readsOnly batterVsZoneStats (getBatterZoneEV batterId zone fam).
Proof.
  unfold getBatterZoneEV. apply readsOnly_bind.
  - apply readsOnly_gets. intros s s' E. now rewrite E.
  - intros [z|]; [|apply readsOnly_ret].
    destruct (seen z <? 3)%Z; apply readsOnly_ret.
Qed.

Lemma scoreFamily_readsOnly (ctx : Ctx) (base : Mix) (v : option Mix)
  (fam : Family) :
  readsOnly batterVsZoneStats (scoreFamily ctx base v fam).
Proof.
  unfold scoreFamily. cbv zeta.
  destruct (truthy (lastPitchLocationZone ctx) && negb (batterId ctx =? 0)%Z).
  - apply readsOnly_bind; [apply getBatterZoneEV_readsOnly|].
    intros [ev|]; apply readsOnly_ret.
  - apply readsOnly_ret.
Qed.

Lemma optimalScores_readsOnly (ctx : option Ctx) :
  readsOnly batterVsZoneStats (optimalScores ctx).
Proof.
  unfold optimalScores.
  apply readsOnly_bind; [apply readsOnly_deref|]. intros c. cbv zeta.
  repeat (apply readsOnly_bind; [apply scoreFamily_readsOnly|]; intros ?).
  apply readsOnly_ret.
Qed.

Lemma recommendOptimalPitch_readsOnly (ctx : option Ctx) :
  readsOnly batterVsZoneStats (recommendOptimalPitch ctx).
Proof.
  unfold recommendOptimalPitch.
  apply readsOnly_bind; [apply optimalScores_readsOnly|].
  intros scores. apply readsOnly_ret.
Qed.

(** C9.  The optimal pitch recommender is idempotent and deterministic: a
    call leaves every store as it found it, a second call on the same
    context returns the same result (the same mix and the same best family,
    or the same exception), and the result depends on the stores only through
    the zone-effectiveness store, which the call only reads. *)
Theorem recommendOptimalPitch_idempotent (ctx : option Ctx) (s : Stores) :
  let (r1, s1) := run (recommendOptimalPitch ctx) s in
  s1 = s /\
  run (recommendOptimalPitch ctx) s1 = (r1, s1) /\
  forall s', batterVsZoneStats s' = batterVsZoneStats s ->
             fst (run (recommendOptimalPitch ctx) s') = r1.
Proof.
  unfold run.
  destruct (recommendOptimalPitch_readsOnly ctx s) as [Hs Hr].
  destruct (recommendOptimalPitch ctx s) as [r1 s1] eqn:E.
  simpl in Hs, Hr. subst s1.
  repeat split.
  - exact E.
  - exact Hr.
Qed.

(** ** An absent context *)

(** C2, at the failing input.  For an absent context the prediction mixer
    returns its default distribution and leaves the stores alone, and context
    assembly for a play index past the last play yields an absent context;
    but the optimal pitch recommender dereferences the absent context and
    ends in a [TypeError]. *)
Theorem recommendOptimalPitch_null_throws (game : Game) (s : Stores)
  (pitchIdx : nat) (outsBefore : Z) :
  run (predictPitchType None) s = (Ok defaultPrediction, s) /\
  fst (run (buildReplayPitchContext game (List.length (allPlays game))
                                    pitchIdx outsBefore) s) = Ok None /\
  run (recommendOptimalPitch None) s = (TypeError, s).
Proof.
  repeat split.
  unfold run, buildReplayPitchContext, tryCatch, bind, deref.
  rewrite (lookup_ge_None_2 (allPlays game) (List.length (allPlays game)))
    by lia.
  reflexivity.
Qed.

(** ** Hits and hard-hit balls *)

(** The family record of the batter after a pitch of family [fam]. *)
Lemma updateBatterVsPitchStats_family (play : Play) (pitch : PitchEvent)
  (fam : Family) (isLastPitch : bool) (zone : option string) (t : Stores) :
  let bid := mu_batterId (p_matchup play) in
  let fams := (batterVsPitchStats t !! bid) ?? zeroBatterFamilies in
  let desc := toLowerCase (description pitch ?? "") in
  batterVsPitchStats
    (snd (updateBatterVsPitchStats play pitch (Some fam) isLastPitch zone t))
    !! bid
  = Some (bfSet fams fam
            (bump (bfGet fams fam) (isSwing pitch)
                  (isSwing pitch && includes desc "swinging"
                   && negb (includes desc "foul")
                   && negb (includes desc "in play"))
                  (detailsIsInPlay pitch || includes desc "in play")
                  (isLastPitch && hitEvent play)
                  (isLastPitch && hardHitBall pitch))).
Proof.
  cbv zeta. unfold updateBatterVsPitchStats. cbv zeta.
  set (bid := mu_batterId (p_matchup play)).
  set (fams := (batterVsPitchStats t !! bid) ?? zeroBatterFamilies).
  unfold bind, ensureBatterFamily, ensureBatterZoneFamily, modify, ret.
  set (t1 := match batterVsPitchStats t !! bid with
             | Some _ => t
             | None => set_batterVsPitchStats
                         (<[bid:=zeroBatterFamilies]> (batterVsPitchStats t)) t
             end).
  assert (H1 : batterVsPitchStats t1 !! bid = Some fams).
  { subst t1 fams. destruct (batterVsPitchStats t !! bid) as [x|] eqn:E.
    - exact E.
    - cbn [batterVsPitchStats set_batterVsPitchStats].
      apply lookup_insert_eq. }
  clearbody t1. rewrite H1.
  set (t2 := set_batterVsPitchStats _ t1).
  assert (H2 : batterVsPitchStats t2 !! bid
               = Some (bfSet fams fam
                  (bump (bfGet fams fam) (isSwing pitch)
                        (isSwing pitch
                         && includes (toLowerCase (description pitch ?? ""))
                                     "swinging"
                         && negb (includes
                                    (toLowerCase (description pitch ?? ""))
                                    "foul")
                         && negb (includes
                                    (toLowerCase (description pitch ?? ""))
                                    "in play"))
                        (detailsIsInPlay pitch
                         || includes (toLowerCase (description pitch ?? ""))
                                     "in play")
                        (isLastPitch && hitEvent play)
                        (isLastPitch && hardHitBall pitch)))).
  { subst t2. cbn [batterVsPitchStats set_batterVsPitchStats].
    apply lookup_insert_eq. }
  clearbody t2.
  destruct (truthy zone); [|exact H2].
  set (t3 := match batterVsZoneStats t2 !! (bid, zone ?? "", fam) with
             | Some _ => t2
             | None => set_batterVsZoneStats
                         (<[(bid, zone ?? "", fam):=zeroFamStats]>
                            (batterVsZoneStats t2)) t2
             end).
  assert (H3 : batterVsPitchStats t3 = batterVsPitchStats t2 /\
               exists Z0, batterVsZoneStats t3 !! (bid, zone ?? "", fam)
                          = Some Z0).
  { subst t3.
    destruct (batterVsZoneStats t2 !! (bid, zone ?? "", fam)) as [Z0|] eqn:E.
    - split; [reflexivity|]. now exists Z0.
    - split; [reflexivity|]. exists zeroFamStats.
      cbn [batterVsZoneStats set_batterVsZoneStats]. apply lookup_insert_eq. }
  clearbody t3. destruct H3 as [E3 [Z0 Hz]]. rewrite Hz.
  cbn [snd batterVsPitchStats set_batterVsZoneStats]. rewrite E3. exact H2.
Qed.

(** C5, on the code and at the failing input.  A pitch of family [fam]
    adds to the hits of the batter's family record exactly when it is the
    last pitch of the at-bat and the hit test holds of the event type, and to
    the hard-hit balls exactly when it is the last pitch and the exit speed is
    at least 95.  But the hit test is a substring test: it holds of a single,
    a double, a triple and a home run, and also of a
    grounded-into-double-play and of a triple play, while it fails of a
    strikeout; so the last pitch of a grounded-into-double-play at-bat is
    counted as a hit. *)
Theorem updateBatterVsPitchStats_double_play_hit :
  (forall (play : Play) (pitch : PitchEvent) (fam : Family)
          (isLastPitch : bool) (zone : option string) (t : Stores),
      let bid := mu_batterId (p_matchup play) in
      let t' := snd (run (updateBatterVsPitchStats play pitch (Some fam)
                                                   isLastPitch zone) t) in
      familyHits t' bid fam
      = (familyHits t bid fam + oneIf (isLastPitch && hitEvent play))%Z /\
      familyHardHit t' bid fam
      = (familyHardHit t bid fam
         + oneIf (isLastPitch
                  && match ev_launchSpeed pitch with
                     | Some ls => Qle_bool 95 ls
                     | None => false
                     end))%Z) /\
  (forall ev,
      In ev ["single"; "double"; "triple"; "home_run";
             "grounded_into_double_play"; "triple_play"] ->
      hitEvent (atBatEnding ev) = true) /\
  hitEvent (atBatEnding "strikeout") = false /\
  hitEvent dpPlay = true /\
  let s := snd (run (updateBatterVsPitchStats dpPlay dpPitch (Some fastball)
                                              true None)
                    (initialStores ∅)) in
  familyHits s 20 fastball = 1%Z.
Proof.
  split; [|split; [|split; [|split]]].
  - intros play pitch fam isLastPitch zone t. cbv zeta. unfold run.
    unfold familyHits, familyHardHit.
    rewrite updateBatterVsPitchStats_family. cbv zeta.
    destruct (batterVsPitchStats t !! mu_batterId (p_matchup play))
      as [[f b c]|]; cbn [orElse];
      destruct fam, (isLastPitch && hitEvent play),
               (isLastPitch && hardHitBall pitch) eqn:Eh;
      unfold hardHitBall, Qgeb in Eh; rewrite Eh; cbn; split; lia.
  - intros ev Hev. simpl in Hev.
    repeat (destruct Hev as [<-|Hev]; [vm_compute; reflexivity|]).
    contradiction.
  - vm_compute. reflexivity.
  - vm_compute. reflexivity.
  - vm_compute. reflexivity.
Qed.

(** ** The final normalization *)

Lemma mixSum_eq (m : Mix) :
  mixSum m == m_fastball m + m_breaking m + m_change m.
Proof. unfold mixSum. ring. Qed.

Lemma normalize_sum_one (m : Mix) :
  ~ mixSum m == 0 -> mixSum (normalize m) == 1.
Proof.
  intros H. unfold normalize.
  apply Qeq_bool_false in H as Hb. rewrite Hb.
  rewrite mixSum_eq. cbn [m_fastball m_breaking m_change].
  rewrite mixSum_eq in H |- *. field. exact H.
Qed.

Lemma Qdiv_nonneg (a b : Q) : 0 <= a -> 0 < b -> 0 <= a / b.
Proof.
  intros Ha Hb. unfold Qdiv.
  apply Qmult_le_0_compat; [assumption|].
  apply Qlt_le_weak. now apply Qinv_lt_0_compat.
Qed.

Lemma normalize_nonneg (m : Mix) : nonneg m -> nonneg (normalize m).
Proof.
  intros (Hf & Hb & Hc). unfold normalize, nonneg.
  cbn [m_fastball m_breaking m_change].
  assert (Hs : 0 < (if Qeq_bool (mixSum m) 0 then 1 else mixSum m)).
  { destruct (Qeq_bool (mixSum m) 0) eqn:E; [reflexivity|].
    apply Qeq_bool_false in E. rewrite mixSum_eq in E |- *.
    destruct (Qlt_le_dec 0 (m_fastball m + m_breaking m + m_change m))
      as [Hlt|Hle]; [assumption|].
    exfalso. apply E. lra. }
  repeat split; apply Qdiv_nonneg; assumption.
Qed.

Lemma getPitcherWildness_ok (pid : Z) (s : Stores) :
  exists w, getPitcherWildness pid s = (Ok w, s).
Proof.
  unfold getPitcherWildness, bind, gets, ret.
  destruct (pitcherCommandStats s !! pid) as [cs|]; [|eauto].
  destruct (cs_pitches cs <? 10)%Z; eauto.
Qed.

Lemma getPitcherVeloTrend_ok (pid : Z) (s : Stores) :
  exists v, getPitcherVeloTrend pid s = (Ok v, s).
Proof.
  unfold getPitcherVeloTrend, bind, gets, ret.
  destruct (pitcherCommandStats s !! pid) as [cs|]; [|eauto].
  destruct (List.length (velos cs) <? 4)%nat; eauto.
Qed.

Lemma applySequencingAdjustments_ok (mix : Mix) (ctx : option Ctx)
  (s : Stores) :
  exists m, applySequencingAdjustments mix ctx s = (Ok m, s).
Proof.
  destruct ctx as [ctx|]; [|simpl; unfold ret; eauto].
  unfold applySequencingAdjustments. cbv zeta. unfold bind.
  destruct (getPitcherWildness_ok (pitcherId ctx) s) as [w ->].
  destruct (getPitcherVeloTrend_ok (pitcherId ctx) s) as [v ->].
  unfold ret. eauto.
Qed.

Lemma predictStages_ok (ctx : Ctx) (s : Stores) :
  exists raw, predictStages ctx s = (Ok raw, s).
Proof.
  unfold predictStages. cbv zeta. unfold bind.
  match goal with
  | |- context [applySequencingAdjustments ?m ?c s] =>
      destruct (applySequencingAdjustments_ok m c s) as [m' ->]
  end.
  unfold ret. eauto.
Qed.


(** ** The batter vulnerability read *)

(** A score is reported for a family the batter has never seen. *)
Lemma getBatterVsPitchProfile_scores_unseen_family :
  exists p,
    fst (run (getBatterVsPitchProfile 20) afterOneSlider) = Ok (Some p) /\
    seen (bf_fastball (bp_raw p)) = 0%Z /\
    m_fastball (vuln p) == 0.4 /\
    topWeakFamily p = None.
Proof.
  eexists. split; [vm_compute; reflexivity|].
  repeat split.
Qed.

(** ** Pitcher command *)










(** ** The coordinate cache *)

Lemma extractCoordinatesFromPitch_true (pitch : option PitchEvent) :
  hasLocation (extractCoordinatesFromPitch pitch) = true ->
  exists px pz szTop szBot,
    extractCoordinatesFromPitch pitch = trueLocation px pz szTop szBot.
Proof.
  unfold extractCoordinatesFromPitch.
  destruct pitch as [pitch|]; [|discriminate].
  destruct (ev_pitchData pitch) as [[[[[pX|] [pZ|]]|] top bot sp pn]|];
    try (intros _; eauto 6; fail);
    destruct (ev_details pitch) as [[tc ds ip [[[px|] [pz|] t b]|] ss dn]|];
    try discriminate; intros _; eauto 6.
Qed.

(** C7.  Once the resolver has resolved a pitch whose event carries true
    planar coordinates, it has returned them and cached them under the key
    of the pitch; and as long as that cache entry stands, every lookup of a
    pitch reference with the same key that reaches the cache tier (it has no
    coordinates and no movement pair of its own, and has a pitch number and
    an at-bat index) returns a true location with exactly the same px and
    pz. *)
Theorem cache_round_trip (game : Game) (s : Stores) (playIdx pitchIdx : nat)
  (play : Play) (pitch : PitchEvent)
  (Hplay : allPlays game !! playIdx = Some play)
  (Hpitch : p_playEvents play !! pitchIdx = Some pitch)
  (Hloc : hasLocation (extractCoordinatesFromPitch (Some pitch)) = true) :
  let direct := extractCoordinatesFromPitch (Some pitch) in
  let s1 := snd (run (getPitchCoordinates game playIdx pitchIdx) s) in
  fst (run (getPitchCoordinates game playIdx pitchIdx) s) = Ok direct /\
  exists px pz,
    l_px direct = Some px /\ l_pz direct = Some pz /\
    forall (game' : Game) (s2 : Stores) (playIdx' pitchIdx' : nat)
           (play' : Play) (pitch' : PitchEvent),
      pitchCoordCache s2 !! getCoordKey play pitch
      = pitchCoordCache s1 !! getCoordKey play pitch ->
      allPlays game' !! playIdx' = Some play' ->
      p_playEvents play' !! pitchIdx' = Some pitch' ->
      getCoordKey play' pitch' = getCoordKey play pitch ->
      hasLocation (extractCoordinatesFromPitch (Some pitch')) = false ->
      breaksPair (ev_breaks pitch') = None ->
      is_Some (anyPitchNumber pitch') ->
      is_Some (atBatIndex (p_about play')) ->
      exists loc,
        run (getPitchCoordinates game' playIdx' pitchIdx') s2 = (Ok loc, s2) /\
        hasLocation loc = true /\
        l_px loc = Some px /\ l_pz loc = Some pz.
Proof.
  cbv zeta.
  destruct (extractCoordinatesFromPitch_true _ Hloc)
    as (px & pz & szTop & szBot & Hdirect).
  assert (Hrun : run (getPitchCoordinates game playIdx pitchIdx) s
                 = (Ok (trueLocation px pz szTop szBot),
                    set_pitchCoordCache
                      (<[getCoordKey play pitch :=
                           mkCacheEntry (Some px) (Some pz) szTop szBot
                                        None None None None]>
                         (pitchCoordCache s)) s)).
  { unfold run, getPitchCoordinates, bind, deref.
    rewrite Hplay. unfold ret at 1. rewrite Hpitch, Hdirect. reflexivity. }
  rewrite Hrun, Hdirect. cbn [fst snd].
  split; [reflexivity|].
  exists px, pz. split; [reflexivity|]. split; [reflexivity|].
  intros game' s2 playIdx' pitchIdx' play' pitch' Hcache Hplay' Hpitch' Hkey
         Hloc' Hbr' [n Hn] [a Ha].
  cbn [pitchCoordCache set_pitchCoordCache] in Hcache.
  rewrite lookup_insert_eq in Hcache.
  eexists.
  unfold run, getPitchCoordinates, bind, deref.
  rewrite Hplay'. unfold ret at 1. rewrite Hpitch', Hloc', Hbr', Hn, Ha.
  unfold gets. rewrite Hkey, Hcache.
  split; [reflexivity|].
  repeat split.
Qed.

Lemma cache_round_trip_witness :
  allPlays twiceRecorded !! 0%nat = Some (atBat3 [locatedPitch]) /\
  p_playEvents (atBat3 [locatedPitch]) !! 0%nat = Some locatedPitch /\
  hasLocation (extractCoordinatesFromPitch (Some locatedPitch)) = true /\
  let s1 := snd (run (getPitchCoordinates twiceRecorded 0 0)
                     (initialStores ∅)) in
  exists loc,
    run (getPitchCoordinates twiceRecorded 1 0) s1 = (Ok loc, s1) /\
    hasLocation loc = true /\ l_px loc = Some 0.42 /\ l_pz loc = Some 2.31.
Proof.
  split; [reflexivity|]. split; [reflexivity|]. split; [reflexivity|].
  cbv zeta.
  destruct (cache_round_trip twiceRecorded (initialStores ∅) 0 0
              (atBat3 [locatedPitch]) locatedPitch
              eq_refl eq_refl eq_refl)
    as (_ & px & pz & Hpx & Hpz & Hlater).
  injection Hpx as <-. injection Hpz as <-.
  apply (Hlater twiceRecorded _ 1%nat 0%nat (atBat3 [barePitch]) barePitch);
    try reflexivity; eexists; reflexivity.
Defined.


(** ** The order of a replay tick *)

Lemma sameProfiles_refl (s : Stores) : sameProfiles s s.
Proof. unfold sameProfiles. repeat split. Qed.

Lemma sameProfiles_sym (s t : Stores) : sameProfiles s t -> sameProfiles t s.
Proof. unfold sameProfiles. intros (?&?&?&?&?&?). repeat split; congruence. Qed.

Lemma sameProfiles_trans (s t u : Stores) :
  sameProfiles s t -> sameProfiles t u -> sameProfiles s u.
Proof.
  unfold sameProfiles. intros (?&?&?&?&?&?) (?&?&?&?&?&?).
  repeat split; congruence.
Qed.

Lemma keeps_ret {A : Type} (a : A) : keeps (ret a).
Proof. intros s. split; [apply sameProfiles_refl|reflexivity]. Qed.

Lemma keeps_throw {A : Type} : keeps (@throw A).
Proof. intros s. split; [apply sameProfiles_refl|reflexivity]. Qed.

Lemma keeps_deref {A : Type} (x : option A) : keeps (deref x).
Proof. destruct x; [apply keeps_ret|apply keeps_throw]. Qed.

Lemma keeps_gets {A : Type} (f : Stores -> A) : keeps (gets f).
Proof. intros s. split; [apply sameProfiles_refl|reflexivity]. Qed.

Lemma keeps_modify (f : Stores -> Stores) :
  (forall s, sameProfiles (f s) s /\ pitchPointer (f s) = pitchPointer s) ->
  keeps (modify f).
Proof. intros Hf s. exact (Hf s). Qed.

Lemma keeps_bind {A B : Type} (m : M A) (k : A -> M B) :
  keeps m -> (forall a, keeps (k a)) -> keeps (bind m k).
Proof.
  intros Hm Hk s. unfold bind.
  destruct (Hm s) as [Hp Hq].
  destruct (m s) as [[a|] s1]; cbn [snd] in *.
  - destruct (Hk a s1) as [Hp' Hq'].
    split; [eapply sameProfiles_trans; eassumption|congruence].
  - split; assumption.
Qed.

Lemma keeps_tryCatch {A : Type} (m h : M A) :
  keeps m -> keeps h -> keeps (tryCatch m h).
Proof.
  intros Hm Hh s. unfold tryCatch.
  destruct (Hm s) as [Hp Hq].
  destruct (m s) as [[a|] s1]; cbn [snd] in *.
  - split; assumption.
  - destruct (Hh s1) as [Hp' Hq'].
    split; [eapply sameProfiles_trans; eassumption|congruence].
Qed.

Lemma keeps_when (c : bool) (m : M unit) : keeps m -> keeps (when c m).
Proof. intros Hm. destruct c; [exact Hm|apply keeps_ret]. Qed.

Lemma keeps_readsOnly {A B : Type} (proj : Stores -> B) (m : M A) :
  readsOnly proj m -> keeps m.
Proof.
  intros Hm s. destruct (Hm s) as [-> _].
  split; [apply sameProfiles_refl|reflexivity].
Qed.

Ltac keeps_step :=
  first
    [ apply keeps_ret | apply keeps_throw | apply keeps_deref
    | apply keeps_gets
    | apply keeps_when
    | apply keeps_tryCatch
    | apply keeps_bind; [|intros ?]
    | apply keeps_modify; intros ?;
      split; [unfold sameProfiles; repeat split|reflexivity] ].

Lemma storeCoordsInCache_keeps (play : Play) (pitch : PitchEvent)
  (coord : option Location) : keeps (storeCoordsInCache play pitch coord).
Proof. unfold storeCoordsInCache. destruct coord; keeps_step. Qed.

Lemma getPitchCoordinates_keeps (game : Game) (playIdx pitchIdx : nat) :
  keeps (getPitchCoordinates game playIdx pitchIdx).
Proof.
  unfold getPitchCoordinates.
  keeps_step; [keeps_step|].
  destruct (p_playEvents a !! pitchIdx) as [pitch|]; [|keeps_step].
  cbv zeta.
  destruct (hasLocation (extractCoordinatesFromPitch (Some pitch))).
  { keeps_step; [apply storeCoordsInCache_keeps|keeps_step]. }
  destruct (breaksPair (ev_breaks pitch)) as [[[[hb vb] angle] len]|].
  { keeps_step; [apply storeCoordsInCache_keeps|keeps_step]. }
  destruct (anyPitchNumber pitch) as [n|]; [|keeps_step].
  destruct (atBatIndex (p_about a)) as [i|]; [|keeps_step].
  keeps_step; [keeps_step|].
  destruct a0 as [c|]; [keeps_step|].
  destruct (searchPlays i n (allPlays game)) as [[toStore result]|];
    [|keeps_step].
  keeps_step; [apply storeCoordsInCache_keeps|keeps_step].
Qed.

Lemma getPitcherGameMix_keeps (pid : Z) : keeps (getPitcherGameMix pid).
Proof.
  unfold getPitcherGameMix. keeps_step; [keeps_step|].
  destruct a as [st|]; [|keeps_step].
  destruct (gs_total st =? 0)%Z; keeps_step.
Qed.

Lemma getBatterAggression_keeps (bid : Z) : keeps (getBatterAggression bid).
Proof.
  unfold getBatterAggression. keeps_step; [keeps_step|].
  destruct a as [st|]; [|keeps_step].
  destruct (ag_pitches st =? 0)%Z; keeps_step.
Qed.

Lemma profileStep_erase (acc : BatterFamilies * Mix * option Family * option Q)
  (fam : Family) :
  eraseRatesB (profileStep acc fam).1.1.1 = eraseRatesB acc.1.1.1.
Proof.
  destruct acc as [[[raw v] top] best]. destruct raw as [f b c].
  destruct fam; reflexivity.
Qed.

Lemma profileFold_erase (fams : list Family)
  (acc : BatterFamilies * Mix * option Family * option Q) :
  eraseRatesB (fold_left profileStep fams acc).1.1.1 = eraseRatesB acc.1.1.1.
Proof.
  revert acc. induction fams as [|fam fams IH]; intros acc; [reflexivity|].
  cbn [fold_left]. rewrite IH. apply profileStep_erase.
Qed.

Lemma getBatterVsPitchProfile_keeps (bid : Z) :
  keeps (getBatterVsPitchProfile bid).
Proof.
  intros s. unfold getBatterVsPitchProfile, bind, gets.
  destruct (batterVsPitchStats s !! bid) as [raw|] eqn:E;
    [|split; [apply sameProfiles_refl|reflexivity]].
  pose proof (profileFold_erase families (raw, mkMix 0 0 0, None, None)) as He.
  destruct (fold_left profileStep families (raw, mkMix 0 0 0, None, None))
    as [[[raw' v] top] best].
  cbn [fst snd] in He. unfold modify, ret. cbn [snd].
  split; [|reflexivity].
  unfold sameProfiles. repeat split.
  cbn [batterVsPitchStats set_batterVsPitchStats].
  rewrite fmap_insert. apply insert_id.
  rewrite lookup_fmap, E. cbn. now rewrite He.
Qed.

Lemma predictPitchType_readsOnly (ctx : option Ctx) :
  readsOnly pitcherCommandStats (predictPitchType ctx).
Proof.
  assert (Hg : forall pid, readsOnly pitcherCommandStats
                 (gets (fun s => pitcherCommandStats s !! pid))).
  { intros pid. apply readsOnly_gets. intros s s' E. now rewrite E. }
  assert (Hw : forall pid, readsOnly pitcherCommandStats (getPitcherWildness pid)).
  { intros pid. unfold getPitcherWildness.
    apply readsOnly_bind; [apply Hg|]. intros [cs|]; [|apply readsOnly_ret].
    destruct (cs_pitches cs <? 10)%Z; apply readsOnly_ret. }
  assert (Hv : forall pid, readsOnly pitcherCommandStats (getPitcherVeloTrend pid)).
  { intros pid. unfold getPitcherVeloTrend.
    apply readsOnly_bind; [apply Hg|]. intros [cs|]; [|apply readsOnly_ret].
    destruct (List.length (velos cs) <? 4)%nat; apply readsOnly_ret. }
  destruct ctx as [c|]; [|apply readsOnly_ret].
  unfold predictPitchType, predictStages. cbv zeta.
  apply readsOnly_bind; [|intros ?; apply readsOnly_ret].
  apply readsOnly_bind; [|intros ?; apply readsOnly_ret].
  unfold applySequencingAdjustments. cbv zeta.
  apply readsOnly_bind; [apply Hw|]. intros w.
  apply readsOnly_bind; [apply Hv|]. intros v.
  apply readsOnly_ret.
Qed.

Lemma buildReplayPitchContext_keeps (game : Game) (playIdx pitchIdx : nat)
  (outsBefore : Z) :
  keeps (buildReplayPitchContext game playIdx pitchIdx outsBefore).
Proof.
  unfold buildReplayPitchContext.
  apply keeps_tryCatch; [|apply keeps_ret].
  apply keeps_bind; [apply keeps_deref|]. intros play. cbv zeta.
  apply keeps_bind; [apply getPitchCoordinates_keeps|]. intros loc.
  apply keeps_bind; [apply getPitcherGameMix_keeps|]. intros gm.
  apply keeps_bind; [apply getBatterAggression_keeps|]. intros ba.
  apply keeps_bind; [apply keeps_gets|]. intros am.
  apply keeps_bind; [apply getBatterVsPitchProfile_keeps|]. intros bvp.
  apply keeps_bind; [apply keeps_gets|]. intros prev.
  apply keeps_bind; [apply keeps_deref|]. intros pitch.
  repeat keeps_step.
Qed.

Lemma showInningHeader_keeps (ctx : Ctx) : keeps (showInningHeader ctx).
Proof. unfold showInningHeader. repeat keeps_step. Qed.

Lemma detectChanges_keeps (play : Play) : keeps (detectChanges play).
Proof. unfold detectChanges. repeat keeps_step. Qed.

Lemma asciiStrikeZone_keeps (loc : option Location) : keeps (asciiStrikeZone loc).
Proof.
  unfold asciiStrikeZone.
  destruct loc as [l|]; [|keeps_step].
  destruct (hasLocation l); [|keeps_step].
  destruct (l_szTop l) as [t|], (l_szBot l) as [b|]; try keeps_step.
  destruct (Qeq_bool (t - b) 0); keeps_step.
Qed.

Lemma analyzeSequence_keeps (newType : string) : keeps (analyzeSequence newType).
Proof. unfold analyzeSequence. repeat keeps_step. Qed.

Lemma updatePitcherStats_counts (play : Play) (pitch : PitchEvent)
  (t : Stores) :
  exists t',
    updatePitcherStats play pitch t = (Ok tt, t') /\
    pitchPointer t' = pitchPointer t /\
    pitcherCommandStats t' = pitcherCommandStats t /\
    batterAggressionStats t' = batterAggressionStats t /\
    batterVsPitchStats t' = batterVsPitchStats t /\
    batterVsZoneStats t' = batterVsZoneStats t /\
    forall p,
      pitchesTyped t' p
      = (pitchesTyped t p
         + oneIf (bool_decide (is_Some (mapPitchCodeToBucket (typeCode pitch)))
                  && bool_decide (p = mu_pitcherId (p_matchup play))))%Z.
Proof.
  unfold updatePitcherStats.
  destruct (mapPitchCodeToBucket (typeCode pitch)) as [bucket|].
  - eexists. split; [reflexivity|]. repeat split.
    intros p. unfold pitchesTyped.
    cbn [pitcherGameStats set_pitcherGameStats].
    rewrite lookup_insert.
    rewrite (bool_decide_eq_true_2 (is_Some (Some bucket))) by eauto.
    cbn [andb].
    destruct (decide (mu_pitcherId (p_matchup play) = p)) as [<-|Hne].
    + rewrite bool_decide_eq_true_2 by reflexivity.
      destruct (pitcherGameStats t !! mu_pitcherId (p_matchup play)) as [g|];
        destruct bucket; cbn; lia.
    + rewrite bool_decide_eq_false_2 by congruence.
      unfold oneIf. destruct (pitcherGameStats t !! p); lia.
  - eexists. split; [reflexivity|]. repeat split.
    intros p. rewrite (bool_decide_eq_false_2 (is_Some None)).
    + unfold oneIf. cbn [andb]. lia.
    + intros [x Hx]. discriminate.
Qed.

Lemma updateBatterStats_counts (play : Play) (pitch : PitchEvent)
  (t : Stores) :
  exists t',
    updateBatterStats play pitch t = (Ok tt, t') /\
    pitchPointer t' = pitchPointer t /\
    pitcherCommandStats t' = pitcherCommandStats t /\
    pitcherGameStats t' = pitcherGameStats t /\
    batterVsPitchStats t' = batterVsPitchStats t /\
    batterVsZoneStats t' = batterVsZoneStats t /\
    forall b,
      pitchesFaced t' b
      = (pitchesFaced t b
         + oneIf (bool_decide (b = mu_batterId (p_matchup play))))%Z.
Proof.
  unfold updateBatterStats.
  eexists. split; [reflexivity|]. repeat split.
  intros b. unfold pitchesFaced.
  cbn [batterAggressionStats set_batterAggressionStats].
  rewrite lookup_insert.
  destruct (decide (mu_batterId (p_matchup play) = b)) as [<-|Hne].
  - rewrite bool_decide_eq_true_2 by reflexivity.
    destruct (batterAggressionStats t !! mu_batterId (p_matchup play));
      cbn; lia.
  - rewrite bool_decide_eq_false_2 by congruence.
    unfold oneIf. destruct (batterAggressionStats t !! b); lia.
Qed.

Lemma updatePitcherCommand_counts (play : Play) (pitch : PitchEvent)
  (loc : option Location) (t : Stores) :
  exists t',
    updatePitcherCommand play pitch loc t = (Ok tt, t') /\
    pitchPointer t' = pitchPointer t /\
    batterAggressionStats t' = batterAggressionStats t /\
    pitcherGameStats t' = pitcherGameStats t /\
    batterVsPitchStats t' = batterVsPitchStats t /\
    batterVsZoneStats t' = batterVsZoneStats t /\
    forall p,
      pitchesThrown t' p
      = (pitchesThrown t p
         + oneIf (bool_decide (p = mu_pitcherId (p_matchup play))))%Z.
Proof.
  unfold updatePitcherCommand.
  eexists. split; [reflexivity|]. repeat split.
  intros p. unfold pitchesThrown. cbv zeta.
  cbn [pitcherCommandStats set_pitcherCommandStats].
  rewrite lookup_insert.
  destruct (decide (mu_pitcherId (p_matchup play) = p)) as [<-|Hne].
  - rewrite bool_decide_eq_true_2 by reflexivity.
    destruct (pitcherCommandStats t !! mu_pitcherId (p_matchup play));
      cbn; lia.
  - rewrite bool_decide_eq_false_2 by congruence.
    unfold oneIf. destruct (pitcherCommandStats t !! p); lia.
Qed.

Lemma seen_bump (st : FamStats) (a b c d e : bool) :
  seen (bump st a b c d e) = (seen st + 1)%Z.
Proof. reflexivity. Qed.

Lemma updateBatterVsPitchStats_counts (play : Play) (pitch : PitchEvent)
  (bucket : option Family) (isLastPitch : bool) (zone : option string)
  (t : Stores) :
  exists t',
    updateBatterVsPitchStats play pitch bucket isLastPitch zone t
    = (Ok tt, t') /\
    pitchPointer t' = pitchPointer t /\
    pitcherCommandStats t' = pitcherCommandStats t /\
    batterAggressionStats t' = batterAggressionStats t /\
    pitcherGameStats t' = pitcherGameStats t /\
    (forall b fam,
        familySeen t' b fam
        = (familySeen t b fam
           + oneIf (bool_decide (b = mu_batterId (p_matchup play))
                    && bool_decide (bucket = Some fam)))%Z) /\
    (forall b z fam,
        zoneSeen t' b z fam
        = (zoneSeen t b z fam
           + oneIf (bool_decide (b = mu_batterId (p_matchup play))
                    && bool_decide (bucket = Some fam)
                    && truthy zone
                    && bool_decide (zone = Some z)))%Z).
Proof.
  destruct bucket as [bucket|]; cycle 1.
  { eexists. split; [reflexivity|]. repeat split.
    - intros b fam. rewrite (bool_decide_eq_false_2 (None = Some fam))
        by discriminate.
      rewrite andb_false_r. unfold oneIf. lia.
    - intros b z fam. rewrite (bool_decide_eq_false_2 (None = Some fam))
        by discriminate.
      rewrite andb_false_r. unfold oneIf. cbn [andb]. lia. }
  unfold updateBatterVsPitchStats. cbv zeta.
  set (bid := mu_batterId (p_matchup play)).
  set (swung := isSwing pitch).
  set (ss := swung && _ && _ && _).
  set (ip := detailsIsInPlay pitch || _).
  set (ih := isLastPitch && hitEvent play).
  set (hh := isLastPitch && hardHitBall pitch).
  unfold bind, ensureBatterFamily, ensureBatterZoneFamily, modify, ret.
  (* family level *)
  set (t1 := match batterVsPitchStats t !! bid with
             | Some _ => t
             | None => set_batterVsPitchStats
                         (<[bid:=zeroBatterFamilies]> (batterVsPitchStats t)) t
             end).
  assert (H1 : exists fams,
             batterVsPitchStats t1 !! bid = Some fams /\
             fams = (batterVsPitchStats t !! bid) ?? zeroBatterFamilies /\
             (forall b, b <> bid ->
                        batterVsPitchStats t1 !! b = batterVsPitchStats t !! b) /\
             pitchPointer t1 = pitchPointer t /\
             pitcherCommandStats t1 = pitcherCommandStats t /\
             batterAggressionStats t1 = batterAggressionStats t /\
             pitcherGameStats t1 = pitcherGameStats t /\
             batterVsZoneStats t1 = batterVsZoneStats t).
  { subst t1. destruct (batterVsPitchStats t !! bid) as [fams|] eqn:E.
    - exists fams. rewrite E. repeat split.
    - exists zeroBatterFamilies.
      cbn [batterVsPitchStats set_batterVsPitchStats].
      rewrite lookup_insert_eq. repeat split.
      intros b Hb. now rewrite lookup_insert_ne. }
  clearbody t1.
  destruct H1 as (fams & Hf & Hfams & Hother & Hpp & Hcs & Hag & Hgs & Hzs).
  rewrite Hf.
  set (t2 := set_batterVsPitchStats _ t1).
  assert (Hfam : forall b fam,
             familySeen t2 b fam
             = (familySeen t b fam
                + oneIf (bool_decide (b = bid)
                         && bool_decide (Some bucket = Some fam)))%Z).
  { intros b fam. unfold familySeen. subst t2.
    cbn [batterVsPitchStats set_batterVsPitchStats].
    rewrite lookup_insert.
    destruct (decide (bid = b)) as [<-|Hne].
    - rewrite bool_decide_eq_true_2 by reflexivity. cbn [andb].
      replace (match batterVsPitchStats t !! bid with
               | Some b => seen (bfGet b fam) | None => 0%Z end)
        with (seen (bfGet fams fam))
        by (rewrite Hfams; destruct (batterVsPitchStats t !! bid);
            [reflexivity|destruct fam; reflexivity]).
      destruct (decide (bucket = fam)) as [<-|Hb].
      + rewrite bool_decide_eq_true_2 by reflexivity.
        destruct bucket, fams; cbn; lia.
      + rewrite bool_decide_eq_false_2 by congruence.
        destruct bucket, fam, fams; try congruence; cbn; lia.
    - rewrite bool_decide_eq_false_2 by congruence. cbn [andb oneIf].
      rewrite Hother by congruence.
      destruct (batterVsPitchStats t !! b); lia. }
  assert (H2 : pitchPointer t2 = pitchPointer t /\
               pitcherCommandStats t2 = pitcherCommandStats t /\
               batterAggressionStats t2 = batterAggressionStats t /\
               pitcherGameStats t2 = pitcherGameStats t /\
               batterVsZoneStats t2 = batterVsZoneStats t).
  { subst t2. repeat split; assumption. }
  assert (H2b : batterVsPitchStats
                  (if truthy zone then t2 else t2) = batterVsPitchStats t2)
    by (destruct (truthy zone); reflexivity).
  clearbody t2. clear H2b.
  destruct H2 as (Hpp2 & Hcs2 & Hag2 & Hgs2 & Hzs2).
  destruct (truthy zone) eqn:Htz; cycle 1.
  { eexists. split; [reflexivity|].
    repeat split; try assumption.
    intros b z fam. rewrite andb_false_r. cbn [andb oneIf].
    unfold zoneSeen. rewrite Hzs2. lia. }
  destruct zone as [zn|]; [|discriminate]. cbn [orElse].
  set (t3 := match batterVsZoneStats t2 !! (bid, zn, bucket) with
             | Some _ => t2
             | None => set_batterVsZoneStats
                         (<[(bid, zn, bucket):=zeroFamStats]>
                            (batterVsZoneStats t2)) t2
             end).
  assert (H3 : exists Z0,
             batterVsZoneStats t3 !! (bid, zn, bucket) = Some Z0 /\
             seen Z0 = zoneSeen t bid zn bucket /\
             (forall k, k <> (bid, zn, bucket) ->
                        batterVsZoneStats t3 !! k = batterVsZoneStats t !! k) /\
             pitchPointer t3 = pitchPointer t /\
             pitcherCommandStats t3 = pitcherCommandStats t /\
             batterAggressionStats t3 = batterAggressionStats t /\
             pitcherGameStats t3 = pitcherGameStats t /\
             batterVsPitchStats t3 = batterVsPitchStats t2).
  { subst t3. unfold zoneSeen. rewrite <- Hzs2.
    destruct (batterVsZoneStats t2 !! (bid, zn, bucket)) as [Z0|] eqn:E.
    - exists Z0. rewrite E. repeat split; assumption.
    - exists zeroFamStats.
      cbn [batterVsZoneStats set_batterVsZoneStats].
      rewrite lookup_insert_eq. repeat split; try assumption.
      intros k Hk. now rewrite lookup_insert_ne. }
  clearbody t3.
  destruct H3 as (Z0 & Hz & Hseen & Hzother & Hpp3 & Hcs3 & Hag3 & Hgs3 & Hbv3).
  rewrite Hz.
  eexists. split; [reflexivity|].
  repeat split; try assumption.
  - intros b fam. unfold familySeen.
    cbn [batterVsPitchStats set_batterVsZoneStats]. rewrite Hbv3.
    apply Hfam.
  - intros b z fam. unfold zoneSeen at 1.
    cbn [batterVsZoneStats set_batterVsZoneStats].
    rewrite lookup_insert. cbn [andb].
    destruct (decide ((bid, zn, bucket) = (b, z, fam))) as [E|Hne].
    + injection E as <- <- <-.
      rewrite !bool_decide_eq_true_2 by reflexivity.
      rewrite seen_bump, Hseen. reflexivity.
    + rewrite Hzother by congruence. fold (zoneSeen t b z fam).
      repeat case_bool_decide; simplify_eq; cbn [andb oneIf]; lia.
Qed.

Lemma applyUpdates_counts (play : Play) (pitch : PitchEvent)
  (ctx : option Ctx) (isLastPitch : bool) (t : Stores) :
  exists t',
    applyUpdates play pitch ctx isLastPitch t = (Ok tt, t') /\
    pitchPointer t' = S (pitchPointer t) /\
    (forall p,
        pitchesThrown t' p
        = (pitchesThrown t p
           + oneIf (bool_decide (p = mu_pitcherId (p_matchup play))))%Z) /\
    (forall b,
        pitchesFaced t' b
        = (pitchesFaced t b
           + oneIf (bool_decide (b = mu_batterId (p_matchup play))))%Z) /\
    (forall p,
        pitchesTyped t' p
        = (pitchesTyped t p
           + oneIf (bool_decide
                      (is_Some (mapPitchCodeToBucket (typeCode pitch)))
                    && bool_decide (p = mu_pitcherId (p_matchup play))))%Z) /\
    (forall b fam,
        familySeen t' b fam
        = (familySeen t b fam
           + oneIf (bool_decide (b = mu_batterId (p_matchup play))
                    && bool_decide
                         (mapPitchCodeToBucket (typeCode pitch) = Some fam)))%Z) /\
    (forall b z fam,
        zoneSeen t' b z fam
        = (zoneSeen t b z fam
           + oneIf (bool_decide (b = mu_batterId (p_matchup play))
                    && bool_decide
                         (mapPitchCodeToBucket (typeCode pitch) = Some fam)
                    && truthy (zoneOfContext ctx)
                    && bool_decide (zoneOfContext ctx = Some z)))%Z).
Proof.
  unfold applyUpdates. cbv zeta. unfold bind.
  destruct (updatePitcherStats_counts play pitch t)
    as (t1 & -> & Hpp1 & Hcs1 & Hag1 & Hbv1 & Hzs1 & Hty1).
  destruct (updateBatterStats_counts play pitch t1)
    as (t2 & -> & Hpp2 & Hcs2 & Hgs2 & Hbv2 & Hzs2 & Hfa2).
  destruct (updatePitcherCommand_counts play pitch (option_map location ctx) t2)
    as (t3 & -> & Hpp3 & Hag3 & Hgs3 & Hbv3 & Hzs3 & Hth3).
  destruct (updateBatterVsPitchStats_counts play pitch
              (mapPitchCodeToBucket (typeCode pitch)) isLastPitch
              (zoneOfContext ctx) t3)
    as (t4 & -> & Hpp4 & Hcs4 & Hag4 & Hgs4 & Hfam4 & Hzone4).
  set (t5 := snd (when isLastPitch
                    (modify (fun s =>
                       set_simulatedOuts
                         (if (3 <=? simulatedOuts s + outsFromPlay play)%Z
                          then 0%Z else (simulatedOuts s + outsFromPlay play)%Z)
                         s)) t4)).
  assert (H5 : when isLastPitch
                 (modify (fun s =>
                    set_simulatedOuts
                      (if (3 <=? simulatedOuts s + outsFromPlay play)%Z
                       then 0%Z else (simulatedOuts s + outsFromPlay play)%Z)
                      s)) t4 = (Ok tt, t5) /\
               pitchPointer t5 = pitchPointer t4 /\
               pitcherCommandStats t5 = pitcherCommandStats t4 /\
               batterAggressionStats t5 = batterAggressionStats t4 /\
               pitcherGameStats t5 = pitcherGameStats t4 /\
               batterVsPitchStats t5 = batterVsPitchStats t4 /\
               batterVsZoneStats t5 = batterVsZoneStats t4).
  { subst t5. destruct isLastPitch; repeat split. }
  clearbody t5.
  destruct H5 as (-> & Hpp5 & Hcs5 & Hag5 & Hgs5 & Hbv5 & Hzs5).
  eexists. split; [reflexivity|].
  unfold pitchesThrown, pitchesFaced, pitchesTyped, familySeen, zoneSeen in *.
  cbn [pitchPointer pitcherCommandStats batterAggressionStats pitcherGameStats
       batterVsPitchStats batterVsZoneStats set_pitchPointer].
  rewrite Hpp5, Hcs5, Hag5, Hgs5, Hbv5, Hzs5.
  repeat split.
  - congruence.
  - intros p. rewrite Hcs4, Hth3, Hcs2, Hcs1. reflexivity.
  - intros b. rewrite Hag4, Hag3, Hfa2, Hag1. reflexivity.
  - intros p. rewrite Hgs4, Hgs3, Hgs2, Hty1. reflexivity.
  - intros b fam. rewrite Hfam4, Hbv3, Hbv2, Hbv1. reflexivity.
  - intros b z fam. rewrite Hzone4, Hzs3, Hzs2, Hzs1. reflexivity.
Qed.

Lemma sameProfiles_counts (s t : Stores) :
  sameProfiles s t ->
  (forall p, pitchesThrown s p = pitchesThrown t p) /\
  (forall b, pitchesFaced s b = pitchesFaced t b) /\
  (forall p, pitchesTyped s p = pitchesTyped t p) /\
  (forall b fam, familySeen s b fam = familySeen t b fam) /\
  (forall b z fam, zoneSeen s b z fam = zoneSeen t b z fam).
Proof.
  intros (Hgs & Hag & Hcs & Hzs & _ & Hbv).
  unfold pitchesThrown, pitchesFaced, pitchesTyped, familySeen, zoneSeen.
  rewrite Hgs, Hag, Hcs, Hzs. repeat split.
  intros b fam.
  assert (E : eraseRatesB <$> (batterVsPitchStats s !! b)
              = eraseRatesB <$> (batterVsPitchStats t !! b))
    by (rewrite <- !lookup_fmap; now rewrite Hbv).
  destruct (batterVsPitchStats s !! b) as [x|],
           (batterVsPitchStats t !! b) as [y|];
    try discriminate; [|reflexivity].
  cbn in E.
  assert (E2 : seen (bfGet (eraseRatesB x) fam)
               = seen (bfGet (eraseRatesB y) fam)) by congruence.
  destruct x, y, fam; exact E2.
Qed.

Lemma beginReplay_ok (game : Game) (s : Stores) :
  exists s0, beginReplay game s = (Ok tt, s0).
Proof.
  unfold beginReplay, bind, gets.
  destruct (replayModeActive s); cbn; eauto.
Qed.

Lemma zoneOfContext_truthy (ctx : option Ctx) (z : string) :
  zoneOfContext ctx = Some z -> truthy (zoneOfContext ctx) = true.
Proof.
  intros H. rewrite H. revert H.
  unfold zoneOfContext, classifyLocation.
  destruct ctx as [c|]; [|discriminate].
  destruct (hasLocation (location c)); [|discriminate].
  destruct (l_px (location c)) as [px|]; [|discriminate].
  destruct (l_pz (location c)) as [pz|]; [|discriminate].
  destruct (l_szTop (location c)) as [t|]; [|discriminate].
  destruct (l_szBot (location c)) as [b|]; [|discriminate].
  cbv zeta. intros H. injection H as <-.
  destruct (Qgeb pz _); [reflexivity|].
  destruct (Qle_bool pz _); reflexivity.
Qed.

(** C8, as the code has it.  A tick of the replay that reports on a pitch
    assembles the context and computes the likely mix and the optimal
    recommendation on the profiles as they stood when the tick began (context
    assembly only caches the derived rates on the batter's family records,
    which changes no counter and which neither computation reads), and only
    then applies the four profile updates, once, before the pitch pointer
    moves to the next pitch.  The pitcher command and batter aggression
    stores record the pitch exactly once; the pitcher usage and batter-vs-family
    stores record it once when the pitch has a pitch-type code and not at all
    otherwise; the batter-vs-zone store records it once when the pitch has a
    code and a true location, and not at all otherwise. *)
Theorem handleReplayMode_updates_after_outputs (game : Game) (s s' : Stores)
  (rep : Report)
  (Hrun : run (handleReplayMode game) s = (Ok (Some rep), s')) :
  let s0 := snd (run (beginReplay game) s) in
  exists (playIdx pitchIdx : nat) (play : Play) (pitch : PitchEvent),
    pitchIndexMap s0 !! pitchPointer s0 = Some (playIdx, pitchIdx) /\
    allPlays game !! playIdx = Some play /\
    p_playEvents play !! pitchIdx = Some pitch /\
    (exists sb outsBefore,
        sameProfiles sb s0 /\
        fst (run (buildReplayPitchContext game playIdx pitchIdx outsBefore) sb)
        = Ok (rep_ctx rep)) /\
    fst (run (predictPitchType (rep_ctx rep)) s0) = Ok (rep_likelyMix rep) /\
    fst (run (recommendOptimalPitch (rep_ctx rep)) s0)
    = Ok (rep_optimal rep) /\
    (exists sd,
        sameProfiles sd s0 /\
        run (applyUpdates play pitch (rep_ctx rep)
                          (isLastPitchOf play pitchIdx)) sd = (Ok tt, s')) /\
    pitchPointer s' = S (pitchPointer s0) /\
    let pid := mu_pitcherId (p_matchup play) in
    let bid := mu_batterId (p_matchup play) in
    let bucket := mapPitchCodeToBucket (typeCode pitch) in
    (forall p,
        pitchesThrown s' p
        = (pitchesThrown s0 p + oneIf (bool_decide (p = pid)))%Z) /\
    (forall b,
        pitchesFaced s' b
        = (pitchesFaced s0 b + oneIf (bool_decide (b = bid)))%Z) /\
    (forall p,
        pitchesTyped s' p
        = (pitchesTyped s0 p
           + oneIf (bool_decide (is_Some bucket) && bool_decide (p = pid)))%Z) /\
    (forall b fam,
        familySeen s' b fam
        = (familySeen s0 b fam
           + oneIf (bool_decide (b = bid)
                    && bool_decide (bucket = Some fam)))%Z) /\
    (forall b z fam,
        zoneSeen s' b z fam
        = (zoneSeen s0 b z fam
           + oneIf (bool_decide (b = bid)
                    && bool_decide (bucket = Some fam)
                    && bool_decide (zoneOfContext (rep_ctx rep) = Some z)))%Z).
Proof.
  unfold run in *. cbv zeta.
  unfold handleReplayMode in Hrun. unfold bind at 1 in Hrun.
  destruct (beginReplay_ok game s) as [s0 H0]. rewrite H0 in *. cbn [snd].
  unfold bind at 1 in Hrun. unfold gets at 1 in Hrun.
  unfold bind at 1 in Hrun. unfold gets at 1 in Hrun.
  destruct (pitchIndexMap s0 !! pitchPointer s0) as [[playIdx pitchIdx]|] eqn:Hidx;
    [|discriminate].
  unfold bind at 1 in Hrun.
  destruct (allPlays game !! playIdx) as [play|] eqn:Hplay; [|discriminate].
  unfold deref at 1, ret at 1 in Hrun. cbv zeta in Hrun.
  unfold bind at 1 in Hrun. unfold gets at 1 in Hrun.
  unfold bind at 1 in Hrun. unfold gets at 1 in Hrun.
  unfold bind at 1 in Hrun.
  match type of Hrun with
  | context [when ?c ?m s0] =>
      pose proof (keeps_when c m ltac:(repeat keeps_step) s0) as [Hk1 Hp1];
      destruct (when c m s0) as [[[]|] s1] eqn:E1;
      [|destruct c; discriminate]
  end.
  cbn [snd] in Hk1, Hp1.
  unfold bind at 1 in Hrun. unfold gets at 1 in Hrun.
  unfold bind at 1 in Hrun.
  destruct (p_playEvents play !! pitchIdx) as [pitch|] eqn:Hpitch;
    [|discriminate].
  unfold deref at 1, ret at 1 in Hrun.
  unfold bind at 1 in Hrun.
  match type of Hrun with
  | context [when ?c ?m s1] =>
      pose proof (keeps_when c m (analyzeSequence_keeps _) s1) as [Hk2 Hp2];
      destruct (when c m s1) as [[[]|] s2] eqn:E2;
      [|destruct c; discriminate]
  end.
  cbn [snd] in Hk2, Hp2.
  unfold bind at 1 in Hrun.
  pose proof (buildReplayPitchContext_keeps game playIdx pitchIdx
                (simulatedOuts s1) s2) as [Hk3 Hp3].
  destruct (buildReplayPitchContext game playIdx pitchIdx (simulatedOuts s1) s2)
    as [[ctx|] s3] eqn:E3; [|discriminate].
  cbn [snd] in Hk3, Hp3.
  unfold bind at 1 in Hrun.
  destruct (predictPitchType_readsOnly ctx s3) as [Hs4 Hr4].
  destruct (predictPitchType ctx s3) as [[likely|] s4] eqn:E4; [|discriminate].
  cbn [fst snd] in Hs4, Hr4. subst s4.
  unfold bind at 1 in Hrun.
  destruct (recommendOptimalPitch_readsOnly ctx s3) as [Hs5 Hr5].
  destruct (recommendOptimalPitch ctx s3) as [[optimal|] s5] eqn:E5;
    [|discriminate].
  cbn [fst snd] in Hs5, Hr5. subst s5.
  unfold bind at 1 in Hrun.
  match type of Hrun with
  | context [match ?m s3 with _ => _ end] =>
      assert (Hk6 : keeps m)
        by (destruct ctx; [apply showInningHeader_keeps|apply keeps_ret]);
      destruct (Hk6 s3) as [Hk6' Hp6];
      destruct (m s3) as [[[]|] s6] eqn:E6; [|discriminate]
  end.
  cbn [snd] in Hk6', Hp6.
  unfold bind at 1 in Hrun.
  pose proof (detectChanges_keeps play s6) as [Hk7 Hp7].
  destruct (detectChanges play s6) as [[[]|] s7] eqn:E7; [|discriminate].
  cbn [snd] in Hk7, Hp7.
  unfold bind at 1 in Hrun.
  pose proof (asciiStrikeZone_keeps (option_map location ctx) s7) as [Hk8 Hp8].
  destruct (asciiStrikeZone (option_map location ctx) s7) as [[[]|] s8] eqn:E8;
    [|discriminate].
  cbn [snd] in Hk8, Hp8.
  unfold bind at 1 in Hrun.
  fold (isLastPitchOf play pitchIdx) in Hrun.
  destruct (applyUpdates_counts play pitch ctx (isLastPitchOf play pitchIdx) s8)
    as (t' & Hup & Hpp & Hthrown & Hfaced & Htyped & Hfam & Hzone).
  rewrite Hup in Hrun. unfold ret in Hrun.
  injection Hrun as <- <-. cbn [rep_ctx rep_likelyMix rep_optimal].
  assert (Hs2 : sameProfiles s2 s0)
    by (eapply sameProfiles_trans; eassumption).
  assert (Hs3 : sameProfiles s3 s0)
    by (eapply sameProfiles_trans; eassumption).
  assert (Hs8 : sameProfiles s8 s0).
  { eapply sameProfiles_trans; [eassumption|].
    eapply sameProfiles_trans; [eassumption|].
    eapply sameProfiles_trans; eassumption. }
  exists playIdx, pitchIdx, play, pitch.
  split; [reflexivity|]. split; [exact Hplay|]. split; [exact Hpitch|].
  split.
  { exists s2, (simulatedOuts s1). split; [assumption|]. now rewrite E3. }
  split.
  { destruct Hs3 as (_ & _ & Hcs & _). apply Hr4. now rewrite Hcs. }
  split.
  { destruct Hs3 as (_ & _ & _ & Hzs & _). apply Hr5. now rewrite Hzs. }
  split.
  { exists s8. split; [assumption|exact Hup]. }
  split; [congruence|].
  destruct (sameProfiles_counts s8 s0 Hs8) as (K1 & K2 & K3 & K4 & K5).
  split; [intros p; now rewrite Hthrown, K1|].
  split; [intros b; now rewrite Hfaced, K2|].
  split; [intros p; now rewrite Htyped, K3|].
  split; [intros b fam; now rewrite Hfam, K4|].
  intros b z fam. rewrite Hzone, K5. f_equal. f_equal.
  destruct (bool_decide (zoneOfContext ctx = Some z)) eqn:Hz.
  - apply bool_decide_eq_true_1 in Hz.
    rewrite (zoneOfContext_truthy ctx z Hz). now rewrite andb_true_r.
  - now rewrite !andb_false_r.
Qed.

(** A pitch without a pitch-type code is replayed, and recorded by the
    command and aggression stores, without any write to the pitcher usage,
    batter-vs-family and batter-vs-zone stores. *)
Lemma handleReplayMode_uncoded_pitch :
  exists rep s',
    run (handleReplayMode uncodedGame) (initialStores ∅)
    = (Ok (Some rep), s') /\
    pitchPointer s' = 1%nat /\
    pitchesThrown s' 10 = 1%Z /\
    pitchesFaced s' 20 = 1%Z /\
    pitcherGameStats s' = ∅ /\
    batterVsPitchStats s' = ∅ /\
    batterVsZoneStats s' = ∅.
Proof.
  do 2 eexists. split; [vm_compute; reflexivity|].
  repeat split; vm_compute; reflexivity.
Qed.

Lemma handleReplayMode_updates_after_outputs_witness :
  exists rep s',
    run (handleReplayMode twiceRecorded) (initialStores ∅)
    = (Ok (Some rep), s') /\
    fst (run (predictPitchType (rep_ctx rep))
             (snd (run (beginReplay twiceRecorded) (initialStores ∅))))
    = Ok (rep_likelyMix rep) /\
    pitchPointer s' = 1%nat /\
    pitchesThrown s' 10 = 1%Z /\
    familySeen s' 20 fastball = 1%Z.
Proof.
  assert (Hr : exists rep s',
             run (handleReplayMode twiceRecorded) (initialStores ∅)
             = (Ok (Some rep), s')) by (vm_compute; eauto).
  destruct Hr as (rep & s' & Hrun). exists rep, s'.
  split; [exact Hrun|].
  destruct (handleReplayMode_updates_after_outputs twiceRecorded
              (initialStores ∅) s' rep Hrun)
    as (playIdx & pitchIdx & play & pitch & Hidx & Hplay & Hpitch & _
        & Hlikely & _ & _ & Hpp & Hthrown & _ & _ & Hfam & _).
  vm_compute in Hidx. injection Hidx as <- <-.
  vm_compute in Hplay. injection Hplay as <-.
  vm_compute in Hpitch. injection Hpitch as <-.
  split; [exact Hlikely|].
  split; [exact Hpp|].
  split; [rewrite Hthrown|rewrite Hfam]; vm_compute; reflexivity.
Defined.

(** * Further properties of the engine *)

(** ** Zone labels *)

(** X1.  [classifyLocation] answers exactly when the two coordinates and the
    two zone bounds are all there, and then with one of the nine zone labels;
    each of the nine has a display label of its own in
    [prettyLocationLabel], different from the other eight and never the raw
    zone string; and the zones the location-aware sequencing tests for are
    among the nine. *)
Theorem classifyLocation_labels (px pz szTop szBot : option Q) :
  (is_Some (classifyLocation px pz szTop szBot) <->
   is_Some px /\ is_Some pz /\ is_Some szTop /\ is_Some szBot) /\
  (forall zone,
      classifyLocation px pz szTop szBot = Some zone ->
      In zone zoneLabels /\
      exists lbl, prettyLocationLabel (Some zone) = Some lbl /\ lbl <> zone) /\
  (forall z1 z2,
      In z1 zoneLabels -> In z2 zoneLabels ->
      prettyLocationLabel (Some z1) = prettyLocationLabel (Some z2) ->
      z1 = z2) /\
  (forall zone, In zone zoneLabels ->
      startsWith zone "HIGH" = true <->
      In zone ["HIGH_ARM"; "HIGH_MIDDLE"; "HIGH_GLOVE"]) /\
  In "LOW_GLOVE" zoneLabels /\ In "LOW_ARM" zoneLabels /\
  In "MID_MIDDLE" zoneLabels.
Proof.
  split; [|split; [|split; [|split]]].
  - unfold classifyLocation.
    destruct px, pz, szTop, szBot; split;
      try (intros [x Hx]; discriminate);
      try (intros (H1 & H2 & H3 & H4);
           first [destruct H1 as [? H1]; discriminate
                 |destruct H2 as [? H2]; discriminate
                 |destruct H3 as [? H3]; discriminate
                 |destruct H4 as [? H4]; discriminate]).
    + intros _. repeat split; eauto.
    + intros _. eauto.
  - intros zone. unfold classifyLocation.
    destruct px as [x|], pz as [z|], szTop as [t|], szBot as [b|];
      try discriminate.
    cbv zeta. intros H. injection H as <-.
    repeat match goal with
           | |- context [if ?c then _ else _] => destruct c
           end;
      (split; [simpl; tauto|eexists; split; [reflexivity|discriminate]]).
  - intros z1 z2 H1 H2. simpl in H1, H2.
    repeat (destruct H1 as [<-|H1]); try contradiction;
      repeat (destruct H2 as [<-|H2]); try contradiction;
      first [reflexivity | (intros E; vm_compute in E; discriminate)].
  - intros zone H. simpl in H.
    repeat (destruct H as [<-|H]); try contradiction;
      (split; [intros E; first [simpl; tauto | vm_compute in E; discriminate]
              |intros E; first [reflexivity
                               | simpl in E;
                                 repeat (destruct E as [E|E];
                                         [discriminate|]);
                                 contradiction]]).
  - simpl. tauto.
Qed.

(** ** The coordinate resolver *)

Lemma extractCoordinatesFromPitch_cases (pitch : option PitchEvent) :
  extractCoordinatesFromPitch pitch = noLocation \/
  exists px pz szTop szBot,
    extractCoordinatesFromPitch pitch = trueLocation px pz szTop szBot.
Proof.
  destruct (hasLocation (extractCoordinatesFromPitch pitch)) eqn:E.
  - right. now apply extractCoordinatesFromPitch_true.
  - left. revert E. unfold extractCoordinatesFromPitch.
    destruct pitch as [pitch|]; [|reflexivity].
    destruct (ev_pitchData pitch) as [[[[[pX|] [pZ|]]|] top bot sp pn]|];
      try discriminate;
      destruct (ev_details pitch) as [[tc ds ip [[[px|] [pz|] t b]|] ss dn]|];
      try discriminate; reflexivity.
Qed.

Lemma breaksPair_cases (br : option Breaks) :
  breaksPair br = None \/
  exists hb vb angle len, breaksPair br = Some (hb, vb, angle, len).
Proof.
  destruct (breaksPair br) as [[[[hb vb] angle] len]|]; eauto 6.
Qed.

Lemma searchEvents_cases (pitchNum : Z) (evs : list PitchEvent) :
  searchEvents pitchNum evs = None \/
  (exists px pz szTop szBot ev,
      In ev evs /\
      extractCoordinatesFromPitch (Some ev) = trueLocation px pz szTop szBot /\
      searchEvents pitchNum evs
      = Some (trueLocation px pz szTop szBot,
              trueLocation px pz szTop szBot)) \/
  (exists hb vb angle len,
      searchEvents pitchNum evs
      = Some (movementCoord hb vb angle len, breakResult hb vb angle len)).
Proof.
  induction evs as [|ev rest IH]; [now left|].
  assert (IH' :
    searchEvents pitchNum rest = None \/
    (exists px pz szTop szBot ev0,
        In ev0 (ev :: rest) /\
        extractCoordinatesFromPitch (Some ev0)
        = trueLocation px pz szTop szBot /\
        searchEvents pitchNum rest
        = Some (trueLocation px pz szTop szBot,
                trueLocation px pz szTop szBot)) \/
    (exists hb vb angle len,
        searchEvents pitchNum rest
        = Some (movementCoord hb vb angle len, breakResult hb vb angle len))).
  { destruct IH as [H|[(px & pz & t & b & ev0 & Hin & He & H)|H]];
      [now left| |now right; right].
    right. left. exists px, pz, t, b, ev0.
    split; [now right|]. now split. }
  clear IH. cbn [searchEvents].
  destruct (negb (ev_isPitch ev)); [exact IH'|].
  destruct (anyPitchNumber ev) as [n|]; [|exact IH'].
  destruct (negb (n =? pitchNum)%Z); [exact IH'|].
  cbv zeta.
  destruct (extractCoordinatesFromPitch_cases (Some ev))
    as [E|(px & pz & t & b & E)]; rewrite E.
  - cbn [hasLocation noLocation].
    destruct (breaksPair_cases (ev_breaks ev))
      as [Eb|(hb & vb & angle & len & Eb)]; rewrite Eb.
    + exact IH'.
    + right. right. eauto 6.
  - cbn [hasLocation trueLocation]. right. left.
    exists px, pz, t, b, ev. split; [now left|]. now split.
Qed.

Lemma searchPlays_cases (atBat pitchNum : Z) (plays : list Play) :
  searchPlays atBat pitchNum plays = None \/
  (exists px pz szTop szBot play ev,
      In play plays /\ In ev (p_playEvents play) /\
      extractCoordinatesFromPitch (Some ev) = trueLocation px pz szTop szBot /\
      searchPlays atBat pitchNum plays
      = Some (trueLocation px pz szTop szBot,
              trueLocation px pz szTop szBot)) \/
  (exists hb vb angle len,
      searchPlays atBat pitchNum plays
      = Some (movementCoord hb vb angle len, breakResult hb vb angle len)).
Proof.
  induction plays as [|p2 rest IH]; [now left|].
  assert (IH' :
    searchPlays atBat pitchNum rest = None \/
    (exists px pz szTop szBot play ev,
        In play (p2 :: rest) /\ In ev (p_playEvents play) /\
        extractCoordinatesFromPitch (Some ev)
        = trueLocation px pz szTop szBot /\
        searchPlays atBat pitchNum rest
        = Some (trueLocation px pz szTop szBot,
                trueLocation px pz szTop szBot)) \/
    (exists hb vb angle len,
        searchPlays atBat pitchNum rest
        = Some (movementCoord hb vb angle len, breakResult hb vb angle len))).
  { destruct IH as [H|[(px & pz & t & b & play & ev & Hin & Hev & He & H)|H]];
      [now left| |now right; right].
    right. left. exists px, pz, t, b, play, ev.
    split; [now right|]. now repeat split. }
  clear IH. cbn [searchPlays].
  destruct (atBatIndex (p_about p2)) as [i|]; [|exact IH'].
  destruct (negb (i =? atBat)%Z); [exact IH'|].
  destruct (searchEvents_cases pitchNum (p_playEvents p2))
    as [E|[(px & pz & t & b & ev & Hev & He & E)
          |(hb & vb & angle & len & E)]]; rewrite E.
  - exact IH'.
  - right. left. exists px, pz, t, b, p2, ev.
    split; [now left|]. now repeat split.
  - right. right. eauto 6.
Qed.

(** The resolver on a play that exists, with the monad unfolded. *)
Lemma getPitchCoordinates_eq (game : Game) (s : Stores)
  (playIdx pitchIdx : nat) (play : Play) :
  allPlays game !! playIdx = Some play ->
  let put pitch coord :=
    set_pitchCoordCache
      (<[getCoordKey play pitch :=
           mkCacheEntry (l_px coord) (l_pz coord)
             (l_szTop coord ?? 3.5) (l_szBot coord ?? 1.5)
             (l_hb coord) (l_vb coord) (l_angle coord) (l_length coord)]>
         (pitchCoordCache s)) s in
  run (getPitchCoordinates game playIdx pitchIdx) s
  = match p_playEvents play !! pitchIdx with
    | None => (Ok noLocation, s)
    | Some pitch =>
      let direct := extractCoordinatesFromPitch (Some pitch) in
      if hasLocation direct then (Ok direct, put pitch direct)
      else
        match breaksPair (ev_breaks pitch) with
        | Some (hb, vb, angle, len) =>
            (Ok (breakResult hb vb angle len),
             put pitch (movementCoord hb vb angle len))
        | None =>
          match anyPitchNumber pitch, atBatIndex (p_about play) with
          | Some n, Some a =>
            match pitchCoordCache s !! getCoordKey play pitch with
            | Some c => (Ok (fromCache c), s)
            | None =>
              match searchPlays a n (allPlays game) with
              | Some (toStore, result) => (Ok result, put pitch toStore)
              | None => (Ok noLocation, s)
              end
            end
          | _, _ => (Ok noLocation, s)
          end
        end
    end.
Proof.
  intros Hplay. cbv zeta.
  unfold run, getPitchCoordinates, bind, deref. rewrite Hplay.
  unfold ret at 1. cbv beta iota.
  destruct (p_playEvents play !! pitchIdx) as [pitch|]; [|reflexivity].
  destruct (hasLocation (extractCoordinatesFromPitch (Some pitch)));
    [reflexivity|].
  destruct (breaksPair (ev_breaks pitch)) as [[[[hb vb] angle] len]|];
    [reflexivity|].
  destruct (anyPitchNumber pitch) as [n|]; [|reflexivity].
  destruct (atBatIndex (p_about play)) as [a|]; [|reflexivity].
  unfold gets. cbv beta iota.
  destruct (pitchCoordCache s !! getCoordKey play pitch) as [c|];
    [reflexivity|].
  destruct (searchPlays a n (allPlays game)) as [[toStore result]|];
    reflexivity.
Qed.

Lemma wfLocation_noLocation : wfLocation noLocation.
Proof. split; discriminate. Qed.

Lemma wfLocation_trueLocation (px pz t b : Q) :
  wfLocation (trueLocation px pz t b).
Proof. split; [intros _; repeat split; eauto|discriminate]. Qed.

Lemma wfLocation_breakResult (hb vb : Q) (angle len : option Q) :
  wfLocation (breakResult hb vb angle len).
Proof. split; [discriminate|]. intros _. split; [reflexivity|]. left. eauto. Qed.

Lemma wfLocation_fromCache (c : CacheEntry) : wfLocation (fromCache c).
Proof.
  unfold fromCache, wfLocation. cbn.
  destruct (ce_px c), (ce_pz c), (ce_hb c), (ce_vb c); cbn;
    split; try discriminate; intros _; repeat split; eauto.
Qed.

(** X2.  On a play index within the game the resolver never raises an
    exception, whatever the pitch index and the state of the cache; it
    changes nothing but the coordinate cache; and the record it returns is
    well formed: a true location carries px, pz and both zone bounds, and a
    movement reading is never a true location.  On a play index past the last
    play it raises a [TypeError] and changes nothing. *)
Theorem getPitchCoordinates_total (game : Game) (s : Stores)
  (playIdx pitchIdx : nat) :
  match allPlays game !! playIdx with
  | Some _ =>
    exists loc cache',
      run (getPitchCoordinates game playIdx pitchIdx) s
      = (Ok loc, set_pitchCoordCache cache' s) /\
      wfLocation loc
  | None =>
    run (getPitchCoordinates game playIdx pitchIdx) s = (TypeError, s)
  end.
Proof.
  destruct (allPlays game !! playIdx) as [play|] eqn:Hplay.
  - assert (Hs : s = set_pitchCoordCache (pitchCoordCache s) s)
      by (destruct s; reflexivity).
    rewrite (getPitchCoordinates_eq game s playIdx pitchIdx play Hplay).
    cbv zeta.
    destruct (p_playEvents play !! pitchIdx) as [pitch|].
    2:{ exists noLocation, (pitchCoordCache s). rewrite <- Hs.
        split; [reflexivity|apply wfLocation_noLocation]. }
    destruct (extractCoordinatesFromPitch_cases (Some pitch))
      as [E|(px & pz & t & b & E)]; rewrite E.
    2:{ eexists _, _. split; [reflexivity|apply wfLocation_trueLocation]. }
    cbn [hasLocation noLocation].
    destruct (breaksPair (ev_breaks pitch)) as [[[[hb vb] angle] len]|].
    { eexists _, _. split; [reflexivity|apply wfLocation_breakResult]. }
    destruct (anyPitchNumber pitch) as [n|].
    2:{ exists noLocation, (pitchCoordCache s). rewrite <- Hs.
        split; [reflexivity|apply wfLocation_noLocation]. }
    destruct (atBatIndex (p_about play)) as [a|].
    2:{ exists noLocation, (pitchCoordCache s). rewrite <- Hs.
        split; [reflexivity|apply wfLocation_noLocation]. }
    destruct (pitchCoordCache s !! getCoordKey play pitch) as [c|].
    { exists (fromCache c), (pitchCoordCache s). rewrite <- Hs.
      split; [reflexivity|apply wfLocation_fromCache]. }
    destruct (searchPlays_cases a n (allPlays game))
      as [Es|[(px & pz & t & b & pl & ev & _ & _ & _ & Es)
         |(hb & vb & angle & len & Es)]];
      rewrite Es.
    + exists noLocation, (pitchCoordCache s). rewrite <- Hs.
      split; [reflexivity|apply wfLocation_noLocation].
    + eexists _, _. split; [reflexivity|apply wfLocation_trueLocation].
    + eexists _, _. split; [reflexivity|apply wfLocation_breakResult].
  - unfold run, getPitchCoordinates, bind, deref. rewrite Hplay. reflexivity.
Qed.

(** Resolving the same pitch again, at once. *)
Lemma getPitchCoordinates_again (game : Game) (s : Stores)
  (playIdx pitchIdx : nat) :
  let r1 := run (getPitchCoordinates game playIdx pitchIdx) s in
  let r2 := run (getPitchCoordinates game playIdx pitchIdx) (snd r1) in
  snd r2 = snd r1 /\
  match fst r1, fst r2 with
  | Ok l1, Ok l2 => sameReading l1 l2
  | TypeError, TypeError => True
  | _, _ => False
  end.
Proof.
  cbv zeta.
  destruct (allPlays game !! playIdx) as [play|] eqn:Hplay.
  2:{ unfold run, getPitchCoordinates, bind, deref. rewrite Hplay.
      cbn. split; [reflexivity|exact I]. }
  assert (Hrefl : forall l, sameReading l l) by (intros l; repeat split).
  assert (Hput : forall k (e : CacheEntry),
             set_pitchCoordCache
               (<[k := e]>
                  (pitchCoordCache
                     (set_pitchCoordCache (<[k := e]> (pitchCoordCache s)) s)))
               (set_pitchCoordCache (<[k := e]> (pitchCoordCache s)) s)
             = set_pitchCoordCache (<[k := e]> (pitchCoordCache s)) s).
  { intros k e. cbn [set_pitchCoordCache pitchCoordCache].
    unfold set_pitchCoordCache. cbn. now rewrite insert_insert_eq. }
  rewrite (getPitchCoordinates_eq game s playIdx pitchIdx play Hplay).
  cbv zeta.
  destruct (p_playEvents play !! pitchIdx) as [pitch|] eqn:Hp.
  2:{ cbn [fst snd].
      rewrite (getPitchCoordinates_eq game s playIdx pitchIdx play Hplay).
      rewrite Hp. split; [reflexivity|apply Hrefl]. }
  destruct (hasLocation (extractCoordinatesFromPitch (Some pitch))) eqn:Hloc.
  { cbn [fst snd].
    rewrite (getPitchCoordinates_eq game _ playIdx pitchIdx play Hplay).
    cbv zeta. rewrite Hp, Hloc. cbn [fst snd].
    split; [apply Hput|apply Hrefl]. }
  destruct (breaksPair (ev_breaks pitch)) as [[[[hb vb] angle] len]|] eqn:Hbr.
  { cbn [fst snd].
    rewrite (getPitchCoordinates_eq game _ playIdx pitchIdx play Hplay).
    cbv zeta. rewrite Hp, Hloc, Hbr. cbn [fst snd].
    split; [apply Hput|apply Hrefl]. }
  destruct (anyPitchNumber pitch) as [n|] eqn:En.
  2:{ cbn [fst snd].
      rewrite (getPitchCoordinates_eq game s playIdx pitchIdx play Hplay).
      cbv zeta. rewrite Hp, Hloc, Hbr, En.
      split; [reflexivity|apply Hrefl]. }
  destruct (atBatIndex (p_about play)) as [a|] eqn:Ea.
  2:{ cbn [fst snd].
      rewrite (getPitchCoordinates_eq game s playIdx pitchIdx play Hplay).
      cbv zeta. rewrite Hp, Hloc, Hbr, En, Ea.
      split; [reflexivity|apply Hrefl]. }
  destruct (pitchCoordCache s !! getCoordKey play pitch) as [c|] eqn:Ec.
  { cbn [fst snd].
    rewrite (getPitchCoordinates_eq game s playIdx pitchIdx play Hplay).
    cbv zeta. rewrite Hp, Hloc, Hbr, En, Ea, Ec.
    split; [reflexivity|apply Hrefl]. }
  destruct (searchPlays_cases a n (allPlays game))
    as [Es|[(px & pz & t & b & pl & ev & _ & _ & _ & Es)
         |(hb & vb & angle & len & Es)]];
    rewrite Es; cbn [fst snd].
  - rewrite (getPitchCoordinates_eq game s playIdx pitchIdx play Hplay).
    cbv zeta. rewrite Hp, Hloc, Hbr, En, Ea, Ec, Es.
    split; [reflexivity|apply Hrefl].
  - rewrite (getPitchCoordinates_eq game _ playIdx pitchIdx play Hplay).
    cbv zeta. rewrite Hp, Hloc, Hbr, En, Ea.
    cbn [pitchCoordCache set_pitchCoordCache]. rewrite lookup_insert_eq.
    cbn [fst snd]. split; [reflexivity|].
    repeat split.
  - rewrite (getPitchCoordinates_eq game _ playIdx pitchIdx play Hplay).
    cbv zeta. rewrite Hp, Hloc, Hbr, En, Ea.
    cbn [pitchCoordCache set_pitchCoordCache]. rewrite lookup_insert_eq.
    cbn [fst snd]. split; [reflexivity|].
    unfold sameReading, fromCache, breakResult, movementCoord. cbn.
    repeat split; discriminate.
Qed.

(** The resolver reads and writes the stores only through the cache. *)
Lemma getPitchCoordinates_resolveOn (game : Game) (playIdx pitchIdx : nat)
  (s : Stores) :
  (fst (getPitchCoordinates game playIdx pitchIdx s),
   pitchCoordCache (snd (getPitchCoordinates game playIdx pitchIdx s)))
  = resolveOn game (pitchCoordCache s) playIdx pitchIdx.
Proof.
  unfold resolveOn. cbv zeta.
  set (t := set_pitchCoordCache (pitchCoordCache s) (initialStores ∅)).
  destruct (allPlays game !! playIdx) as [play|] eqn:Hplay.
  2:{ unfold run, getPitchCoordinates, bind, deref. rewrite Hplay.
      reflexivity. }
  pose proof (getPitchCoordinates_eq game s playIdx pitchIdx play Hplay) as E1.
  pose proof (getPitchCoordinates_eq game t playIdx pitchIdx play Hplay) as E2.
  unfold run in *. cbv zeta in E1, E2. rewrite E1, E2. clear E1 E2.
  change (pitchCoordCache t) with (pitchCoordCache s).
  destruct (p_playEvents play !! pitchIdx) as [pitch|]; [|reflexivity].
  destruct (hasLocation (extractCoordinatesFromPitch (Some pitch)));
    [reflexivity|].
  destruct (breaksPair (ev_breaks pitch)) as [[[[hb vb] angle] len]|];
    [reflexivity|].
  destruct (anyPitchNumber pitch) as [n|]; [|reflexivity].
  destruct (atBatIndex (p_about play)) as [i|]; [|reflexivity].
  destruct (pitchCoordCache s !! getCoordKey play pitch) as [c|];
    [reflexivity|].
  destruct (searchPlays i n (allPlays game)) as [[toStore result]|];
    reflexivity.
Qed.

(** A second resolution of a pitch, on the cache the first one left, gives
    the same reading and leaves that cache. *)
Lemma resolveOn_again (game : Game) (cache cache' : gmap string CacheEntry)
  (playIdx pitchIdx : nat) (l1 : Location) :
  resolveOn game cache playIdx pitchIdx = (Ok l1, cache') ->
  exists l2,
    resolveOn game cache' playIdx pitchIdx = (Ok l2, cache') /\
    sameReading l1 l2.
Proof.
  unfold resolveOn. cbv zeta.
  set (s := set_pitchCoordCache cache (initialStores ∅)).
  intros H.
  pose proof (getPitchCoordinates_again game s playIdx pitchIdx) as Ha.
  cbv zeta in Ha.
  pose proof (getPitchCoordinates_resolveOn game playIdx pitchIdx
                (snd (run (getPitchCoordinates game playIdx pitchIdx) s)))
    as Hr.
  unfold resolveOn in Hr. cbv zeta in Hr.
  unfold run in *.
  destruct (getPitchCoordinates game playIdx pitchIdx s) as [r1 s1].
  cbn [fst snd] in *. injection H as -> <-.
  rewrite <- Hr. destruct Ha as [Hs Hm]. rewrite Hs.
  destruct (getPitchCoordinates game playIdx pitchIdx s1) as [[l2|] s2];
    cbn [fst snd] in *; [|destruct Hm].
  exists l2. split; [reflexivity|exact Hm].
Qed.

(** X3.  Resolving the same pitch a second time changes nothing more and
    gives the same reading: the stores after the second call are the stores
    after the first, and the two records agree on the flags, the coordinates
    and the movement (and on the zone bounds of a true location). *)
Theorem getPitchCoordinates_twice (game : Game) (s : Stores)
  (playIdx pitchIdx : nat) :
  let r1 := run (getPitchCoordinates game playIdx pitchIdx) s in
  let r2 := run (getPitchCoordinates game playIdx pitchIdx) (snd r1) in
  snd r2 = snd r1 /\
  match fst r1, fst r2 with
  | Ok l1, Ok l2 => sameReading l1 l2
  | TypeError, TypeError => True
  | _, _ => False
  end.
Proof. exact (getPitchCoordinates_again game s playIdx pitchIdx). Qed.

(** ** Rules for specifications *)

Section Hoare.
Context {A : Type}.
Variables (P : Stores -> Prop) (Q : A -> Stores -> Prop) (E : Stores -> Prop).

Lemma hoare_ret (a : A) : (forall s, P s -> Q a s) -> hoare P (ret a) Q E.
Proof. intros H s Hs. exact (H s Hs). Qed.

Lemma hoare_throw : (forall s, P s -> E s) -> hoare P (@throw A) Q E.
Proof. intros H s Hs. exact (H s Hs). Qed.

Lemma hoare_gets (f : Stores -> A) :
  (forall s, P s -> Q (f s) s) -> hoare P (gets f) Q E.
Proof. intros H s Hs. exact (H s Hs). Qed.

Lemma hoare_deref (x : option A) :
  (forall a s, x = Some a -> P s -> Q a s) ->
  (forall s, x = None -> P s -> E s) ->
  hoare P (deref x) Q E.
Proof.
  intros Hq He s Hs. destruct x as [a|]; cbn.
  - now apply Hq.
  - now apply He.
Qed.

Lemma hoare_bind {B : Type} (m : M B) (k : B -> M A)
  (R : B -> Stores -> Prop) :
  hoare P m R E -> (forall b, hoare (R b) (k b) Q E) ->
  hoare P (bind m k) Q E.
Proof.
  intros Hm Hk s Hs. unfold bind. specialize (Hm s Hs).
  destruct (m s) as [[b|] s1]; [|exact Hm].
  exact (Hk b s1 Hm).
Qed.

Lemma hoare_conseq (P' : Stores -> Prop) (Q' : A -> Stores -> Prop)
  (E' : Stores -> Prop) (m : M A) :
  hoare P' m Q' E' ->
  (forall s, P s -> P' s) -> (forall a s, Q' a s -> Q a s) ->
  (forall s, E' s -> E s) ->
  hoare P m Q E.
Proof.
  intros Hm Hp Hq He s Hs. specialize (Hm s (Hp s Hs)).
  destruct (m s) as [[a|] s1]; [now apply Hq|now apply He].
Qed.

Lemma hoare_tryCatch (m h : M A) (E1 : Stores -> Prop) :
  hoare P m Q E1 -> hoare E1 h Q E -> hoare P (tryCatch m h) Q E.
Proof.
  intros Hm Hh s Hs. unfold tryCatch. specialize (Hm s Hs).
  destruct (m s) as [[a|] s1]; [exact Hm|].
  exact (Hh s1 Hm).
Qed.

End Hoare.

Lemma hoare_modify (P : Stores -> Prop) (f : Stores -> Stores)
  (Q : unit -> Stores -> Prop) (E : Stores -> Prop) :
  (forall s, P s -> Q tt (f s)) -> hoare P (modify f) Q E.
Proof. intros H s Hs. exact (H s Hs). Qed.

Lemma hoare_when (P : Stores -> Prop) (c : bool) (m : M unit)
  (Q : unit -> Stores -> Prop) (E : Stores -> Prop) :
  (c = true -> hoare P m Q E) -> (c = false -> forall s, P s -> Q tt s) ->
  hoare P (when c m) Q E.
Proof.
  intros Hm Hs. destruct c; cbn.
  - now apply Hm.
  - intros s Ps. now apply Hs.
Qed.

(** A computation that only reads, and always returns. *)
Lemma hoare_reads {A B : Type} (proj : Stores -> B) (m : M A)
  (P : Stores -> Prop) :
  readsOnly proj m -> (forall s, exists a, fst (m s) = Ok a) ->
  hoare P m (fun _ s => P s) (fun _ => False).
Proof.
  intros Hr Hok s Hs. destruct (Hr s) as [Hsnd _].
  destruct (Hok s) as [a Ha].
  destruct (m s) as [[a'|] s1]; cbn in *; [now subst|discriminate].
Qed.

(** ** The pitch index *)

Lemma pitchIndicesOf_spec (pIdx eIdx : nat) (evs : list PitchEvent)
  (p e : nat) :
  In (p, e) (pitchIndicesOf pIdx eIdx evs) <->
  p = pIdx /\ (eIdx <= e)%nat /\
  exists ev, evs !! (e - eIdx)%nat = Some ev /\ ev_isPitch ev = true.
Proof.
  revert eIdx. induction evs as [|ev rest IH]; intros eIdx; cbn [pitchIndicesOf].
  - split; [intros []|]. intros (_ & _ & ev & H & _). discriminate.
  - rewrite in_app_iff, IH. split.
    + intros [H|(-> & Hle & ev' & Hl & Hp)].
      * destruct (ev_isPitch ev) eqn:Ep; [|destruct H].
        destruct H as [H|[]]. injection H as <- <-.
        split; [reflexivity|]. split; [lia|].
        exists ev. rewrite Nat.sub_diag. now split.
      * split; [reflexivity|]. split; [lia|].
        exists ev'. split; [|exact Hp].
        replace (e - eIdx)%nat with (S (e - S eIdx)) by lia. exact Hl.
    + intros (-> & Hle & ev' & Hl & Hp).
      destruct (Nat.eq_dec e eIdx) as [->|Hne].
      * left. rewrite Nat.sub_diag in Hl. injection Hl as ->.
        rewrite Hp. now left.
      * right. split; [reflexivity|]. split; [lia|].
        exists ev'. split; [|exact Hp].
        replace (e - eIdx)%nat with (S (e - S eIdx)) in Hl by lia. exact Hl.
Qed.

Lemma pitchIndicesFrom_spec (pIdx : nat) (plays : list Play) (p e : nat) :
  In (p, e) (pitchIndicesFrom pIdx plays) <->
  (pIdx <= p)%nat /\
  exists play ev,
    plays !! (p - pIdx)%nat = Some play /\
    p_playEvents play !! e = Some ev /\ ev_isPitch ev = true.
Proof.
  revert pIdx. induction plays as [|play rest IH]; intros pIdx;
    cbn [pitchIndicesFrom].
  - split; [intros []|]. intros (_ & pl & ev & H & _). discriminate.
  - rewrite in_app_iff, IH, pitchIndicesOf_spec. split.
    + intros [(-> & _ & ev & Hl & Hp)|(Hle & pl & ev & Hl & He & Hp)].
      * split; [lia|]. exists play, ev. rewrite Nat.sub_diag.
        rewrite Nat.sub_0_r in Hl. now repeat split.
      * split; [lia|]. exists pl, ev.
        replace (p - pIdx)%nat with (S (p - S pIdx)) by lia.
        now repeat split.
    + intros (Hle & pl & ev & Hl & He & Hp).
      destruct (Nat.eq_dec p pIdx) as [->|Hne].
      * left. rewrite Nat.sub_diag in Hl. injection Hl as ->.
        split; [reflexivity|]. split; [lia|].
        exists ev. rewrite Nat.sub_0_r. now split.
      * right. split; [lia|]. exists pl, ev.
        replace (p - pIdx)%nat with (S (p - S pIdx)) in Hl by lia.
        now repeat split.
Qed.

(** An entry of the pitch index of a game points at a pitch event of the
    game. *)
Lemma pitchIndexOf_lookup (game : Game) (i p e : nat) :
  pitchIndexOf game !! i = Some (p, e) ->
  exists play ev,
    allPlays game !! p = Some play /\
    p_playEvents play !! e = Some ev /\ ev_isPitch ev = true.
Proof.
  intros H. apply list_elem_of_lookup_2, list_elem_of_In in H.
  apply pitchIndicesFrom_spec in H as (_ & play & ev & Hl & He & Hp).
  rewrite Nat.sub_0_r in Hl. eauto.
Qed.

(** ** The invariant of the replay *)

Ltac inv_open H :=
  destruct H as ((Hidx & Hact & Hptr & Hthr & Hfac & Hpre & Houts & Hwf
                  & Hcnt & Hcache & Hlast) & Hactive & Hpointer).

Ltac inv_close :=
  split;
  [split; [|split; [|split; [|split; [|split; [|split; [|split; [|split;
     [|split; [|split]]]]]]]]]
  |split];
  try assumption.

Lemma sum_insert {V : Type} (w : V -> Z) (m : gmap Z V) (k : Z) (v : V) :
  map_fold (fun _ x acc => (w x + acc)%Z) 0%Z (<[k := v]> m)
  = (map_fold (fun _ x acc => (w x + acc)%Z) 0%Z m + w v
     - match m !! k with Some x => w x | None => 0 end)%Z.
Proof.
  destruct (m !! k) as [x|] eqn:E.
  - rewrite <- insert_delete_eq.
    rewrite map_fold_insert_L;
      [|intros; lia|apply lookup_delete_eq].
    rewrite (map_fold_delete_L _ _ k x m); [lia|intros; lia|exact E].
  - rewrite map_fold_insert_L; [lia|intros; lia|exact E].
Qed.

Lemma countsAgree_same (s t : Stores) :
  sameProfiles s t -> countsAgree t -> countsAgree s.
Proof.
  intros H (H1 & H2 & H3 & H4).
  destruct (sameProfiles_counts s t H) as (E1 & E2 & E3 & E4 & E5).
  unfold countsAgree.
  repeat split; intros; rewrite ?E1, ?E2, ?E3, ?E4, ?E5;
    try apply H1; try apply H2; try apply H3; try apply H4.
Qed.

Lemma beginReplay_spec (game : Game) (a : bool) (p : nat) :
  hoare (replayAt game a p) (beginReplay game)
        (fun _ => replayAt game true p) (fun _ => False).
Proof.
  intros s H. unfold beginReplay, bind, gets.
  destruct (replayModeActive s) eqn:Ea; cbn.
  - destruct H as (H & _ & Hp). split; [exact H|split; [exact Ea|exact Hp]].
  - inv_open H.
    destruct (Hpre Ea) as (E1 & E2 & E3 & E4 & E5 & E6).
    assert (Hp0 : pitchPointer s = 0%nat).
    { unfold totalThrown in Hthr. rewrite E3, map_fold_empty in Hthr. lia. }
    unfold replayAt, replayInv, resetForReplay, buildPitchIndexMap, modify.
    cbn.
    split; [|now split].
    split; [now right|]. split; [reflexivity|].
    split; [assumption|].
    split; [unfold totalThrown; cbn; rewrite map_fold_empty; lia|].
    split; [unfold totalFaced; cbn; rewrite map_fold_empty; lia|].
    split; [discriminate|].
    split; [lia|].
    split.
    { unfold wfProfiles. cbn.
      repeat split; intros *; rewrite ?lookup_empty; discriminate. }
    split.
    { unfold countsAgree, pitchesTyped, pitchesThrown, familySeen,
        pitchesFaced, zoneSeen. cbn.
      repeat split; intros; rewrite ?lookup_empty; lia. }
    split; [intros k c Hk; discriminate|].
    intros tc Htc. discriminate.
Qed.

Lemma lookup_In {A : Type} (l : list A) (i : nat) (x : A) :
  l !! i = Some x -> In x l.
Proof. intros H. apply list_elem_of_In. exact (list_elem_of_lookup_2 l i x H). Qed.

(** The resolver keeps the invariant and gives one of the readings of the
    game. *)
Lemma getPitchCoordinates_spec (game : Game) (a : bool) (p : nat)
  (playIdx pitchIdx : nat) :
  hoare (replayAt game a p) (getPitchCoordinates game playIdx pitchIdx)
        (fun loc s => replayAt game a p s /\ resolved game loc)
        (fun s => replayAt game a p s /\ allPlays game !! playIdx = None).
Proof.
  intros s H.
  destruct (allPlays game !! playIdx) as [play|] eqn:Hplay.
  2:{ unfold getPitchCoordinates, bind, deref. rewrite Hplay. cbn.
      now split. }
  pose proof (getPitchCoordinates_eq game s playIdx pitchIdx play Hplay)
    as Heq.
  unfold run in Heq. cbv zeta in Heq. rewrite Heq. clear Heq.
  assert (Hput : forall pitch c,
             cacheEntryOf game c ->
             replayAt game a p
               (set_pitchCoordCache
                  (<[getCoordKey play pitch := c]> (pitchCoordCache s)) s)).
  { intros pitch c Hc. inv_open H. inv_close.
    intros k c' Hk. cbn in Hk.
    destruct (decide (getCoordKey play pitch = k)) as [<-|Hne].
    - rewrite lookup_insert_eq in Hk. injection Hk as <-. exact Hc.
    - rewrite lookup_insert_ne in Hk by exact Hne.
      eapply Hcache; eassumption. }
  destruct (p_playEvents play !! pitchIdx) as [pitch|] eqn:Hp.
  2:{ split; [exact H|constructor]. }
  destruct (extractCoordinatesFromPitch_cases (Some pitch))
    as [E|(px & pz & t & b & E)]; rewrite E.
  2:{ assert (Hg : fromGame game px pz t b).
      { exists play, pitch.
        split; [eapply lookup_In; eassumption|].
        split; [eapply lookup_In; eassumption|exact E]. }
      cbn [hasLocation trueLocation l_px l_pz l_szTop l_szBot l_hb l_vb
           l_angle l_length orElse].
      split; [apply Hput|]; now constructor. }
  cbn [hasLocation noLocation].
  destruct (breaksPair (ev_breaks pitch)) as [[[[hb vb] angle] len]|].
  { cbn [movementCoord l_px l_pz l_szTop l_szBot l_hb l_vb
         l_angle l_length orElse].
    split; [apply Hput|]; constructor. }
  destruct (anyPitchNumber pitch) as [n|]; [|split; [exact H|constructor]].
  destruct (atBatIndex (p_about play)) as [i|];
    [|split; [exact H|constructor]].
  destruct (pitchCoordCache s !! getCoordKey play pitch) as [c|] eqn:Ec.
  { split; [exact H|].
    destruct H as ((_ & _ & _ & _ & _ & _ & _ & _ & _ & Hcache & _) & _).
    destruct (Hcache _ _ Ec) as [px pz t b Hg|hb vb angle len].
    - exact (resolved_true game px pz t b Hg).
    - exact (resolved_cached game hb vb angle len). }
  destruct (searchPlays_cases i n (allPlays game))
    as [Es|[(px & pz & t & b & pl & ev & Hpl & Hev & He & Es)
           |(hb & vb & angle & len & Es)]]; rewrite Es.
  - split; [exact H|constructor].
  - assert (Hg : fromGame game px pz t b) by (exists pl, ev; auto).
    cbn [hasLocation trueLocation l_px l_pz l_szTop l_szBot l_hb l_vb
         l_angle l_length orElse].
    split; [apply Hput|]; now constructor.
  - cbn [movementCoord l_px l_pz l_szTop l_szBot l_hb l_vb
         l_angle l_length orElse].
    split; [apply Hput|]; constructor.
Qed.

(** ** The reads of the profile stores *)

Lemma inject_Z_pos (d : Z) : (0 < d)%Z -> 0 < inject_Z d.
Proof. intros H. unfold Qlt. cbn. lia. Qed.

Lemma ratio_proportion (n d : Z) :
  (0 <= n)%Z -> (n <= d)%Z -> (0 < d)%Z ->
  0 <= inject_Z n / inject_Z d /\ inject_Z n / inject_Z d <= 1.
Proof.
  intros Hn Hnd Hd. pose proof (inject_Z_pos d Hd) as Hq. split.
  - apply Qdiv_nonneg; [|exact Hq]. change 0 with (inject_Z 0). rewrite <- Zle_Qle. exact Hn.
  - apply Qle_shift_div_r; [exact Hq|]. rewrite Qmult_1_l.
    rewrite <- Zle_Qle. exact Hnd.
Qed.

Lemma rateOf_nonneg (n d : Z) : (0 <= n)%Z -> 0 <= rateOf n d.
Proof.
  intros Hn. unfold rateOf. destruct (0 <? d)%Z eqn:E; [|apply Qle_refl].
  apply Z.ltb_lt in E.
  apply Qdiv_nonneg; [|now apply inject_Z_pos].
  change 0 with (inject_Z 0). rewrite <- Zle_Qle. exact Hn.
Qed.

Lemma rateOf_le_1 (n d : Z) : (0 <= n)%Z -> (n <= d)%Z -> rateOf n d <= 1.
Proof.
  intros Hn Hnd. unfold rateOf. destruct (0 <? d)%Z eqn:E; [|discriminate].
  apply Z.ltb_lt in E. now apply ratio_proportion.
Qed.

Lemma getPitcherGameMix_spec (game : Game) (a : bool) (p : nat) (pid : Z) :
  hoare (replayAt game a p) (getPitcherGameMix pid)
        (fun m s =>
           replayAt game a p s /\
           match m with Some m => distribution m | None => True end)
        (fun _ => False).
Proof.
  intros s H. unfold getPitcherGameMix, bind, gets.
  destruct (pitcherGameStats s !! pid) as [g|] eqn:Eg; cbn;
    [|now split].
  destruct (gs_total g =? 0)%Z eqn:Et; cbn; [now split|].
  split; [exact H|].
  destruct H as ((_ & _ & _ & _ & _ & _ & _ & (Hgs & _) & _) & _).
  destruct (Hgs pid g Eg) as (Hf & Hb & Hc & Hsum & Hpos).
  set (m := mkMix (inject_Z (gs_fastball g)) (inject_Z (gs_breaking g))
                  (inject_Z (gs_change g))).
  assert (Hn : nonneg m).
  { unfold nonneg, m. cbn.
    repeat split; change 0 with (inject_Z 0); rewrite <- Zle_Qle;
      assumption. }
  split; [now apply normalize_nonneg|].
  rewrite <- mixSum_eq. apply normalize_sum_one.
  rewrite mixSum_eq. unfold m. cbn.
  rewrite <- !inject_Z_plus, <- Hsum.
  intros Hz. pose proof (inject_Z_pos _ Hpos) as Hq.
  rewrite Hz in Hq. discriminate.
Qed.

Lemma getBatterAggression_spec (game : Game) (a : bool) (p : nat) (bid : Z) :
  hoare (replayAt game a p) (getBatterAggression bid)
        (fun q s => replayAt game a p s /\ proportion q)
        (fun _ => False).
Proof.
  intros s H. unfold getBatterAggression, bind, gets.
  destruct (batterAggressionStats s !! bid) as [g|] eqn:Eg; cbn;
    [|now split].
  destruct (ag_pitches g =? 0)%Z eqn:Et; cbn; [now split|].
  split; [exact H|].
  destruct H as ((_ & _ & _ & _ & _ & _ & _ & (_ & Hag & _) & _) & _).
  destruct (Hag bid g Eg) as (Hs & Hsp & Hpos).
  now apply ratio_proportion.
Qed.

Lemma getPitcherGameMix_state (pid : Z) (s : Stores) :
  snd (getPitcherGameMix pid s) = s.
Proof.
  unfold getPitcherGameMix, bind, gets.
  destruct (pitcherGameStats s !! pid) as [g|]; [|reflexivity].
  destruct (gs_total g =? 0)%Z; reflexivity.
Qed.

Lemma getBatterAggression_state (bid : Z) (s : Stores) :
  snd (getBatterAggression bid s) = s.
Proof.
  unfold getBatterAggression, bind, gets.
  destruct (batterAggressionStats s !! bid) as [g|]; [|reflexivity].
  destruct (ag_pitches g =? 0)%Z; reflexivity.
Qed.

Lemma getPitchCoordinates_state (game : Game) (playIdx pitchIdx : nat)
  (s : Stores) :
  exists cache',
    snd (getPitchCoordinates game playIdx pitchIdx s)
    = set_pitchCoordCache cache' s.
Proof.
  assert (Hs : s = set_pitchCoordCache (pitchCoordCache s) s)
    by (destruct s; reflexivity).
  destruct (allPlays game !! playIdx) as [play|] eqn:Hplay.
  2:{ unfold getPitchCoordinates, bind, deref. rewrite Hplay.
      exists (pitchCoordCache s). exact Hs. }
  pose proof (getPitchCoordinates_eq game s playIdx pitchIdx play Hplay)
    as Heq.
  unfold run in Heq. cbv zeta in Heq. rewrite Heq. clear Heq.
  destruct (p_playEvents play !! pitchIdx) as [pitch|];
    [|exists (pitchCoordCache s); exact Hs].
  destruct (hasLocation (extractCoordinatesFromPitch (Some pitch)));
    [eexists; reflexivity|].
  destruct (breaksPair (ev_breaks pitch)) as [[[[hb vb] angle] len]|];
    [eexists; reflexivity|].
  destruct (anyPitchNumber pitch) as [n|];
    [|exists (pitchCoordCache s); exact Hs].
  destruct (atBatIndex (p_about play)) as [i|];
    [|exists (pitchCoordCache s); exact Hs].
  destruct (pitchCoordCache s !! getCoordKey play pitch) as [c|];
    [exists (pitchCoordCache s); exact Hs|].
  destruct (searchPlays i n (allPlays game)) as [[toStore result]|];
    [eexists; reflexivity|exists (pitchCoordCache s); exact Hs].
Qed.

(** The families of a batter after the loop of [getBatterVsPitchProfile]:
    the same counters with the rates attached, and the score of each
    family. *)
Lemma profileFold_spec (raw : BatterFamilies) :
  let attach st :=
    mkFamStats (seen st) (swings st) (whiffs st) (inPlay st) (hits st)
               (hardHit st) (Some (rateOf (whiffs st) (swings st)))
               (Some (rateOf (hits st) (inPlay st)))
               (Some (rateOf (hardHit st) (inPlay st))) in
  exists top best,
    fold_left profileStep families (raw, mkMix 0 0 0, None, None)
    = (mkBatterFamilies (attach (bf_fastball raw)) (attach (bf_breaking raw))
                        (attach (bf_change raw)),
       mkMix (scoreOf (bf_fastball raw)) (scoreOf (bf_breaking raw))
             (scoreOf (bf_change raw)),
       top, best).
Proof.
  destruct raw as [f b c]. cbv zeta. unfold families.
  cbn [fold_left]. unfold profileStep.
  cbn [bfGet bfSet mixSet bf_fastball bf_breaking bf_change
       m_fastball m_breaking m_change].
  eexists _, _. reflexivity.
Qed.

Lemma vulnScore_le_1 (w h hh : Q) :
  w <= 1 -> 0 <= h -> 0 <= hh -> vulnScore w h hh <= 1.
Proof. intros Hw Hh Hhh. unfold vulnScore. lra. Qed.

Lemma getBatterVsPitchProfile_spec (game : Game) (a : bool) (p : nat)
  (bid : Z) :
  hoare (replayAt game a p) (getBatterVsPitchProfile bid)
        (fun bp s =>
           replayAt game a p s /\
           match bp with Some bp => profileOk bp | None => True end)
        (fun _ => False).
Proof.
  intros s H.
  pose proof (getBatterVsPitchProfile_keeps bid s) as [Hsame _].
  revert Hsame.
  unfold getBatterVsPitchProfile, bind, gets.
  destruct (batterVsPitchStats s !! bid) as [raw|] eqn:Eraw;
    [|cbn; now split].
  destruct (profileFold_spec raw) as (top & best & ->).
  cbn. intros Hsame.
  inv_open H.
  assert (Hraw : forall fam, wfFamStats (bfGet raw fam)).
  { intros fam. destruct Hwf as (_ & _ & _ & Hbv & _). now apply (Hbv bid). }
  split.
  - inv_close.
    + intros Hf. destruct (Hpre Hf) as (_ & _ & _ & E4 & _).
      rewrite E4, lookup_empty in Eraw. discriminate.
    + destruct Hwf as (W1 & W2 & W3 & W4 & W5).
      split; [exact W1|]. split; [exact W2|]. split; [exact W3|].
      split; [|exact W5].
      intros bid' b fam Hb. cbn in Hb.
      destruct (decide (bid = bid')) as [<-|Hne].
      * rewrite lookup_insert_eq in Hb. injection Hb as <-.
        specialize (Hraw fam). destruct fam; exact Hraw.
      * rewrite lookup_insert_ne in Hb by exact Hne. now apply (W4 bid').
    + eapply countsAgree_same; [exact Hsame|exact Hcnt].
  - intros fam. cbv zeta. cbn [bp_raw vuln].
    pose proof (Hraw fam) as (Hw0 & Hws & Hi0 & His & Hss & Hh0 & Hhs
                              & Hhh0 & Hhhs).
    assert (Hrates :
      0 <= rateOf (whiffs (bfGet raw fam)) (swings (bfGet raw fam)) /\
      rateOf (whiffs (bfGet raw fam)) (swings (bfGet raw fam)) <= 1 /\
      0 <= rateOf (hits (bfGet raw fam)) (inPlay (bfGet raw fam)) /\
      0 <= rateOf (hardHit (bfGet raw fam)) (inPlay (bfGet raw fam))).
    { split; [now apply rateOf_nonneg|].
      split; [now apply rateOf_le_1|].
      split; now apply rateOf_nonneg. }
    destruct Hrates as (R1 & R2 & R3 & R4).
    split; [destruct fam; exact (conj Hw0 (conj Hws (conj Hi0 (conj His
              (conj Hss (conj Hh0 (conj Hhs (conj Hhh0 Hhhs))))))))|].
    split.
    + destruct fam; cbn [bfGet bf_fastball bf_breaking bf_change
                         whiffRate hitRate hardHitRate];
        eexists _, _, _; (split; [reflexivity|]);
        (split; [reflexivity|]); (split; [reflexivity|]);
        cbn [bfGet] in R1, R2, R3, R4; auto.
    + destruct fam; cbn [mixGet m_fastball m_breaking m_change];
        unfold scoreOf; cbn [bfGet] in R1, R2, R3, R4;
        now apply vulnScore_le_1.
Qed.

Lemma getBatterVsPitchProfile_state (bid : Z) (s : Stores) :
  exists stats',
    snd (getBatterVsPitchProfile bid s) = set_batterVsPitchStats stats' s.
Proof.
  unfold getBatterVsPitchProfile, bind, gets.
  destruct (batterVsPitchStats s !! bid) as [raw|].
  - destruct (profileFold_spec raw) as (top & best & ->). cbn.
    eexists. reflexivity.
  - exists (batterVsPitchStats s). destruct s; reflexivity.
Qed.

(** ** Context assembly *)

Lemma buildReplayPitchContext_spec (game : Game) (a : bool) (p : nat)
  (playIdx pitchIdx : nat) (outsBefore : Z) (prev : option TunnelCtx)
  (k0 : gmap string CacheEntry) :
  hoare (fun s => replayAt game a p s /\ lastCtx s = prev /\
                  pitchCoordCache s = k0)
        (buildReplayPitchContext game playIdx pitchIdx outsBefore)
        (fun ctx s =>
           replayAt game a p s /\
           match ctx with
           | Some c =>
             ctxOk game outsBefore prev c /\
             (exists play pitch,
                 allPlays game !! playIdx = Some play /\
                 p_playEvents play !! pitchIdx = Some pitch /\
                 pitcherId c = mu_pitcherId (p_matchup play) /\
                 batterId c = mu_batterId (p_matchup play) /\
                 lastPitchType c = typeCode pitch) /\
             lastCtx s
             = Some (mkTunnelCtx (lastPitchType c) (Some (location c))) /\
             resolveOn game k0 playIdx pitchIdx
             = (Ok (location c), pitchCoordCache s)
           | None =>
             allPlays game !! playIdx = None \/
             exists play,
               allPlays game !! playIdx = Some play /\
               p_playEvents play !! pitchIdx = None
           end)
        (fun _ => False).
Proof.
  intros s (H & Hprev & Hk0).
  unfold buildReplayPitchContext, tryCatch, bind, deref.
  destruct (allPlays game !! playIdx) as [play|] eqn:Hplay.
  2:{ cbn. split; [exact H|now left]. }
  unfold ret at 1. cbv beta iota zeta.
  (* the location *)
  pose proof (getPitchCoordinates_spec game a p playIdx pitchIdx s H) as H1.
  destruct (getPitchCoordinates_state game playIdx pitchIdx s)
    as [cache' Hst].
  pose proof (getPitchCoordinates_resolveOn game playIdx pitchIdx s) as Hro.
  rewrite Hk0 in Hro.
  destruct (getPitchCoordinates game playIdx pitchIdx s) as [[loc|] s1];
    cbn [fst snd] in Hst, Hro; [|destruct H1 as [_ H1]; congruence].
  destruct H1 as [H1 Hres].
  assert (Hl1 : lastCtx s1 = prev) by (rewrite Hst; exact Hprev).
  clear Hst cache' H Hprev Hk0 s.
  (* the pitcher's mix of the game *)
  pose proof (getPitcherGameMix_spec game a p
                (mu_pitcherId (p_matchup play)) s1 H1) as H2.
  pose proof (getPitcherGameMix_state (mu_pitcherId (p_matchup play)) s1)
    as Hst.
  destruct (getPitcherGameMix (mu_pitcherId (p_matchup play)) s1)
    as [[gm|] s2]; cbn [snd] in Hst; [subst s2|destruct H2].
  destruct H2 as [_ Hgm].
  (* the batter's aggression *)
  pose proof (getBatterAggression_spec game a p
                (mu_batterId (p_matchup play)) s1 H1) as H2.
  pose proof (getBatterAggression_state (mu_batterId (p_matchup play)) s1)
    as Hst.
  destruct (getBatterAggression (mu_batterId (p_matchup play)) s1)
    as [[ag|] s2]; cbn [snd] in Hst; [subst s2|destruct H2].
  destruct H2 as [_ Hag].
  unfold getPitcherArsenalMix, gets at 1. cbv beta iota.
  (* the batter's profile *)
  pose proof (getBatterVsPitchProfile_spec game a p
                (mu_batterId (p_matchup play)) s1 H1) as H2.
  destruct (getBatterVsPitchProfile_state (mu_batterId (p_matchup play)) s1)
    as [stats' Hst].
  destruct (getBatterVsPitchProfile (mu_batterId (p_matchup play)) s1)
    as [[bvp|] s2]; cbn [snd] in Hst; [|destruct H2].
  destruct H2 as [H2 Hbvp].
  assert (Hl2 : lastCtx s2 = prev) by (rewrite Hst; exact Hl1).
  assert (Hk2 : pitchCoordCache s2 = pitchCoordCache s1)
    by (rewrite Hst; reflexivity).
  clear Hst stats' H1 Hl1.
  unfold gets at 1. cbv beta iota.
  destruct (p_playEvents play !! pitchIdx) as [pitch|] eqn:Hpitch.
  2:{ cbn. split; [exact H2|]. right. now exists play. }
  cbn [ret modify gets fst snd]. unfold modify, gets, ret.
  cbv beta iota.
  split.
  { inv_open H2. inv_close.
    intros tc Htc. cbn in Htc. injection Htc as <-.
    exists loc. now split. }
  split; [|split; [|split]].
  - unfold ctxOk.
    cbn [outs location pitcherGameMix batterAggression batterVsPitch
         tunnelInfo lastPitchType lastPitchLocationZone
         lastPitchLocationLabel].
    split; [reflexivity|]. split; [exact Hres|]. split; [exact Hgm|].
    split; [exact Hag|]. split; [exact Hbvp|].
    split; [now rewrite Hl2|].
    split.
    + unfold zoneOfContext. cbn [location].
      destruct (hasLocation loc); [|reflexivity]. cbn [andb].
      destruct (l_px loc) as [px|]; [|reflexivity].
      destruct (l_pz loc) as [pz|]; reflexivity.
    + destruct (hasLocation loc && bool_decide (is_Some (l_px loc))
                && bool_decide (is_Some (l_pz loc))); reflexivity.
  - exists play, pitch. now repeat split.
  - reflexivity.
  - cbn [location pitchCoordCache set_lastCtx]. now rewrite Hk2, Hro.
Qed.

(** ** The profile updates *)

Lemma classifyLocation_In (px pz szTop szBot : option Q) (zone : string) :
  classifyLocation px pz szTop szBot = Some zone -> In zone zoneLabels.
Proof.
  unfold classifyLocation.
  destruct px as [px|], pz as [pz|], szTop as [t|], szBot as [b|];
    try discriminate.
  cbv zeta. intros H. injection H as <-.
  repeat match goal with
         | |- context [if ?c then _ else _] => destruct c
         end; cbn; tauto.
Qed.

Lemma zoneOfContext_In (ctx : option Ctx) (zone : string) :
  zoneOfContext ctx = Some zone -> In zone zoneLabels.
Proof.
  unfold zoneOfContext. destruct ctx as [c|]; [|discriminate].
  destruct (hasLocation (location c)); [|discriminate].
  apply classifyLocation_In.
Qed.

Lemma outsFromPlay_range (play : Play) : (0 <= outsFromPlay play <= 3)%Z.
Proof.
  unfold outsFromPlay.
  repeat match goal with
         | |- context [if ?c then _ else _] => destruct c
         end; lia.
Qed.

Lemma updatePitcherStats_wf (play : Play) (pitch : PitchEvent) (t : Stores) :
  let t' := snd (updatePitcherStats play pitch t) in
  sameControl t' t /\ totalThrown t' = totalThrown t /\
  totalFaced t' = totalFaced t /\ (wfProfiles t -> wfProfiles t').
Proof.
  cbv zeta. unfold updatePitcherStats.
  destruct (mapPitchCodeToBucket (typeCode pitch)) as [bucket|];
    [|unfold ret; cbn [snd];
      split; [repeat split|split; [reflexivity|split; [reflexivity|auto]]]].
  unfold modify. cbn [snd].
  split; [repeat split|]. split; [reflexivity|]. split; [reflexivity|].
  intros (W1 & W2 & W3 & W4 & W5).
  split; [|split; [exact W2|split; [exact W3|split; [exact W4|exact W5]]]].
  intros pid g Hg. cbn in Hg.
  destruct (decide (mu_pitcherId (p_matchup play) = pid)) as [<-|Hne].
  2:{ rewrite lookup_insert_ne in Hg by exact Hne. now apply (W1 pid). }
  rewrite lookup_insert_eq in Hg. injection Hg as <-.
  set (st := (pitcherGameStats t !! mu_pitcherId (p_matchup play))
               ?? zeroGameStats).
  assert (Hold : (0 <= gs_fastball st /\ 0 <= gs_breaking st /\
                  0 <= gs_change st /\
                  gs_total st
                  = gs_fastball st + gs_breaking st + gs_change st)%Z).
  { subst st.
    destruct (pitcherGameStats t !! mu_pitcherId (p_matchup play))
      as [g|] eqn:Eg; cbn; [|lia].
    destruct (W1 _ _ Eg) as (? & ? & ? & ? & ?). lia. }
  clearbody st.
  unfold wfGameStats.
  destruct bucket; cbn [gs_fastball gs_breaking gs_change gs_total]; lia.
Qed.

Lemma updateBatterStats_wf (play : Play) (pitch : PitchEvent) (t : Stores) :
  let t' := snd (updateBatterStats play pitch t) in
  sameControl t' t /\ totalThrown t' = totalThrown t /\
  totalFaced t' = (totalFaced t + 1)%Z /\ (wfProfiles t -> wfProfiles t').
Proof.
  cbv zeta. unfold updateBatterStats, modify. cbn [snd].
  split; [repeat split|]. split; [reflexivity|].
  split.
  { unfold totalFaced. cbn [batterAggressionStats set_batterAggressionStats].
    rewrite (sum_insert ag_pitches). cbn [ag_pitches].
    destruct (batterAggressionStats t !! mu_batterId (p_matchup play));
      cbn; lia. }
  intros (W1 & W2 & W3 & W4 & W5).
  split; [exact W1|].
  split; [|split; [exact W3|split; [exact W4|exact W5]]].
  intros bid g Hg. cbn in Hg.
  destruct (decide (mu_batterId (p_matchup play) = bid)) as [<-|Hne].
  2:{ rewrite lookup_insert_ne in Hg by exact Hne. now apply (W2 bid). }
  rewrite lookup_insert_eq in Hg. injection Hg as <-.
  unfold wfAggression. cbn.
  destruct (batterAggressionStats t !! mu_batterId (p_matchup play))
    as [g|] eqn:Eg; cbn.
  - destruct (W2 _ _ Eg) as (? & ? & ?). destruct (isSwing pitch); lia.
  - destruct (isSwing pitch); lia.
Qed.

Lemma length_pushVelo (vs : list Q) (v : Q) :
  (List.length vs <= 8)%nat ->
  (List.length (pushVelo vs v) <= 8)%nat /\
  (List.length (pushVelo vs v) <= S (List.length vs))%nat.
Proof.
  intros H. unfold pushVelo. cbv zeta.
  destruct (8 <? List.length (vs ++ [v])%list)%nat eqn:E.
  - destruct vs as [|x vs]; cbn in *; [lia|].
    rewrite length_app in *. cbn in *. lia.
  - apply Nat.ltb_ge in E. rewrite length_app in *. cbn in *. lia.
Qed.

Lemma updatePitcherCommand_wf (play : Play) (pitch : PitchEvent)
  (loc : option Location) (t : Stores) :
  let t' := snd (updatePitcherCommand play pitch loc t) in
  sameControl t' t /\ totalThrown t' = (totalThrown t + 1)%Z /\
  totalFaced t' = totalFaced t /\ (wfProfiles t -> wfProfiles t').
Proof.
  cbv zeta. unfold updatePitcherCommand, modify. cbn [snd]. cbv zeta.
  split; [repeat split|].
  split.
  { unfold totalThrown. cbn [pitcherCommandStats set_pitcherCommandStats].
    rewrite (sum_insert cs_pitches). cbn [cs_pitches].
    destruct (pitcherCommandStats t !! mu_pitcherId (p_matchup play));
      cbn; lia. }
  split; [reflexivity|].
  intros (W1 & W2 & W3 & W4 & W5).
  split; [exact W1|]. split; [exact W2|].
  split; [|split; [exact W4|exact W5]].
  intros pid cs Hcs. cbn [pitcherCommandStats set_pitcherCommandStats] in Hcs.
  destruct (decide (mu_pitcherId (p_matchup play) = pid)) as [<-|Hne].
  2:{ rewrite lookup_insert_ne in Hcs by exact Hne. now apply (W3 pid). }
  rewrite lookup_insert_eq in Hcs. injection Hcs as <-.
  assert (Hold : wfCommand
                   ((pitcherCommandStats t !! mu_pitcherId (p_matchup play))
                      ?? zeroCommandStats)
                 \/ (pitcherCommandStats t !! mu_pitcherId (p_matchup play))
                      ?? zeroCommandStats = zeroCommandStats).
  { destruct (pitcherCommandStats t !! mu_pitcherId (p_matchup play))
      as [cs|] eqn:Ecs; cbn; [left; now apply (W3 _ _ Ecs)|now right]. }
  set (cs := (pitcherCommandStats t !! mu_pitcherId (p_matchup play))
               ?? zeroCommandStats) in *.
  assert (Hc : (0 <= cs_pitches cs /\
                0 <= missesHigh cs <= cs_pitches cs /\
                0 <= missesLow cs <= cs_pitches cs /\
                0 <= missesArm cs <= cs_pitches cs /\
                0 <= missesGlove cs <= cs_pitches cs)%Z /\
               (List.length (velos cs) <= 8)%nat /\
               (Z.of_nat (List.length (velos cs)) <= cs_pitches cs)%Z).
  { destruct Hold as [(Hz & Hl & Hv) | ->]; [|cbn; lia].
    split; [lia|]. split; assumption. }
  clearbody cs. destruct Hc as (Hz & Hl & Hv).
  unfold wfCommand. cbn [cs_pitches missesHigh missesLow missesArm
                         missesGlove velos].
  split.
  { repeat match goal with
           | |- context [if ?c then _ else _] => destruct c
           end; lia. }
  destruct (startSpeed pitch) as [v|]; [|split; [exact Hl|lia]].
  destruct (length_pushVelo (velos cs) v Hl) as [L1 L2].
  split; [exact L1|lia].
Qed.

Lemma wfFamStats_zero : wfFamStats zeroFamStats.
Proof. unfold wfFamStats. cbn. lia. Qed.

Lemma wfFamStats_bump (st : FamStats) (swung whiff inPlay' isHit hard : bool) :
  (whiff = true -> swung = true) -> (inPlay' = true -> swung = true) ->
  wfFamStats st -> wfFamStats (bump st swung whiff inPlay' isHit hard).
Proof.
  intros Hw Hi H. unfold wfFamStats in *. cbn.
  destruct swung, whiff, inPlay', isHit, hard;
    try (specialize (Hw eq_refl); discriminate);
    try (specialize (Hi eq_refl); discriminate); lia.
Qed.

Lemma bfGet_bfSet (b : BatterFamilies) (fam fam' : Family) (st : FamStats) :
  bfGet (bfSet b fam st) fam' = if decide (fam = fam') then st else bfGet b fam'.
Proof. destruct fam, fam'; reflexivity. Qed.

Lemma isSwing_inPlay (pitch : PitchEvent) :
  detailsIsInPlay pitch
  || includes (toLowerCase (description pitch ?? "")) "in play" = true ->
  isSwing pitch = true.
Proof.
  unfold isSwing. cbv zeta.
  destruct (detailsIsInPlay pitch); [reflexivity|]. cbn [orb].
  intros ->.
  destruct (includes _ "swinging"); [reflexivity|].
  destruct (includes _ "foul"); reflexivity.
Qed.

Lemma updateBatterVsPitchStats_wf (play : Play) (pitch : PitchEvent)
  (bucket : option Family) (isLastPitch : bool) (zone : option string)
  (t : Stores) :
  (forall z, zone = Some z -> In z zoneLabels) ->
  let t' := snd (updateBatterVsPitchStats play pitch bucket isLastPitch zone t) in
  sameControl t' t /\ totalThrown t' = totalThrown t /\
  totalFaced t' = totalFaced t /\ (wfProfiles t -> wfProfiles t').
Proof.
  intros Hzone. cbv zeta. unfold updateBatterVsPitchStats.
  destruct bucket as [bucket|];
    [|unfold ret; cbn [snd];
      split; [repeat split|split; [reflexivity|split; [reflexivity|auto]]]].
  cbv zeta.
  set (bid := mu_batterId (p_matchup play)).
  set (swung := isSwing pitch).
  set (whiff := swung
                && includes (toLowerCase (description pitch ?? "")) "swinging"
                && negb (includes (toLowerCase (description pitch ?? "")) "foul")
                && negb (includes (toLowerCase (description pitch ?? ""))
                                  "in play")).
  set (inPlay' := detailsIsInPlay pitch
                  || includes (toLowerCase (description pitch ?? "")) "in play").
  set (isHit := isLastPitch && hitEvent play).
  set (hard := isLastPitch && hardHitBall pitch).
  assert (Hw : whiff = true -> swung = true).
  { unfold whiff. destruct swung; [reflexivity|discriminate]. }
  assert (Hi : inPlay' = true -> swung = true).
  { unfold inPlay', swung. apply isSwing_inPlay. }
  clearbody swung whiff inPlay' isHit hard.
  pose (K := fun u : Stores =>
               sameControl u t /\ totalThrown u = totalThrown t /\
               totalFaced u = totalFaced t /\ (wfProfiles t -> wfProfiles u)).
  assert (K0 : K t).
  { unfold K. split; [repeat split|]. auto. }
  (* the four writes *)
  assert (F1 : forall u, K u ->
      K (match batterVsPitchStats u !! bid with
         | Some _ => u
         | None => set_batterVsPitchStats
                     (<[bid := zeroBatterFamilies]> (batterVsPitchStats u)) u
         end)).
  { intros u Hu. destruct (batterVsPitchStats u !! bid) eqn:Eb; [exact Hu|].
    destruct Hu as (C & T1 & T2 & W).
    split; [exact C|]. split; [exact T1|]. split; [exact T2|].
    intros Ht. destruct (W Ht) as (W1 & W2 & W3 & W4 & W5).
    split; [exact W1|]. split; [exact W2|]. split; [exact W3|].
    split; [|exact W5].
    intros b' fams fam Hf. cbn in Hf.
    destruct (decide (bid = b')) as [<-|Hne].
    - rewrite lookup_insert_eq in Hf. injection Hf as <-.
      destruct fam; apply wfFamStats_zero.
    - rewrite lookup_insert_ne in Hf by exact Hne. eapply W4; eassumption. }
  assert (F2 : forall u, K u ->
      K (match batterVsPitchStats u !! bid with
         | Some fams =>
           set_batterVsPitchStats
             (<[bid := bfSet fams bucket
                         (bump (bfGet fams bucket) swung whiff inPlay'
                               isHit hard)]> (batterVsPitchStats u)) u
         | None => u
         end)).
  { intros u Hu. destruct (batterVsPitchStats u !! bid) as [fams|] eqn:Eb;
      [|exact Hu].
    destruct Hu as (C & T1 & T2 & W).
    split; [exact C|]. split; [exact T1|]. split; [exact T2|].
    intros Ht. destruct (W Ht) as (W1 & W2 & W3 & W4 & W5).
    split; [exact W1|]. split; [exact W2|]. split; [exact W3|].
    split; [|exact W5].
    intros b' fams' fam Hf. cbn in Hf.
    destruct (decide (bid = b')) as [<-|Hne].
    - rewrite lookup_insert_eq in Hf. injection Hf as <-.
      rewrite bfGet_bfSet. destruct (decide (bucket = fam)).
      + apply wfFamStats_bump; [exact Hw|exact Hi|]. eapply W4; eassumption.
      + eapply W4; eassumption.
    - rewrite lookup_insert_ne in Hf by exact Hne. eapply W4; eassumption. }
  assert (F3 : forall z u, In z zoneLabels -> K u ->
      K (match batterVsZoneStats u !! (bid, z, bucket) with
         | Some _ => u
         | None => set_batterVsZoneStats
                     (<[(bid, z, bucket) := zeroFamStats]>
                        (batterVsZoneStats u)) u
         end)).
  { intros z u Hz Hu.
    destruct (batterVsZoneStats u !! (bid, z, bucket)) eqn:Eb; [exact Hu|].
    destruct Hu as (C & T1 & T2 & W).
    split; [exact C|]. split; [exact T1|]. split; [exact T2|].
    intros Ht. destruct (W Ht) as (W1 & W2 & W3 & W4 & W5).
    split; [exact W1|]. split; [exact W2|]. split; [exact W3|].
    split; [exact W4|].
    intros b' z' fam st Hf. cbn in Hf.
    destruct (decide ((bid, z, bucket) = (b', z', fam))) as [Heq|Hne].
    - rewrite Heq, lookup_insert_eq in Hf. injection Hf as <-.
      injection Heq as <- <- <-. split; [apply wfFamStats_zero|exact Hz].
    - rewrite lookup_insert_ne in Hf by exact Hne. eapply W5; eassumption. }
  assert (F4 : forall z u, In z zoneLabels -> K u ->
      K (match batterVsZoneStats u !! (bid, z, bucket) with
         | Some Z =>
           set_batterVsZoneStats
             (<[(bid, z, bucket) := bump Z swung whiff inPlay' isHit hard]>
                (batterVsZoneStats u)) u
         | None => u
         end)).
  { intros z u Hz Hu.
    destruct (batterVsZoneStats u !! (bid, z, bucket)) as [Z|] eqn:Eb;
      [|exact Hu].
    destruct Hu as (C & T1 & T2 & W).
    split; [exact C|]. split; [exact T1|]. split; [exact T2|].
    intros Ht. destruct (W Ht) as (W1 & W2 & W3 & W4 & W5).
    split; [exact W1|]. split; [exact W2|]. split; [exact W3|].
    split; [exact W4|].
    intros b' z' fam st Hf. cbn in Hf.
    destruct (decide ((bid, z, bucket) = (b', z', fam))) as [Heq|Hne].
    - rewrite Heq, lookup_insert_eq in Hf. injection Hf as <-.
      injection Heq as <- <- <-.
      split; [|exact Hz].
      apply wfFamStats_bump; [exact Hw|exact Hi|].
      eapply W5; eassumption.
    - rewrite lookup_insert_ne in Hf by exact Hne. eapply W5; eassumption. }
  unfold ensureBatterFamily, ensureBatterZoneFamily, bind, modify.
  cbv beta iota.
  destruct zone as [z|]; cbn [truthy orElse].
  - destruct (negb (String.eqb z "")); cbn [snd].
    + apply (F4 z); [now apply Hzone|].
      apply (F3 z); [now apply Hzone|].
      now apply F2, F1.
    + now apply F2, F1.
  - cbn [snd]. now apply F2, F1.
Qed.

Lemma applyUpdates_spec (game : Game) (p : nat) (play : Play)
  (pitch : PitchEvent) (ctx : option Ctx) (isLastPitch : bool) :
  (p < List.length (pitchIndexOf game))%nat ->
  hoare (replayAt game true p) (applyUpdates play pitch ctx isLastPitch)
        (fun _ => replayAt game true (S p)) (fun _ => False).
Proof.
  intros Hlt t H.
  destruct (applyUpdates_counts play pitch ctx isLastPitch t)
    as (t' & Et & Hp & C1 & C2 & C3 & C4 & C5).
  rewrite Et.
  pose proof Et as Et2. unfold applyUpdates, bind in Et2.
  destruct (updatePitcherStats_counts play pitch t) as (t1 & E1 & _).
  pose proof (updatePitcherStats_wf play pitch t) as W1.
  rewrite E1 in W1, Et2. cbn [snd] in W1. cbv beta iota zeta in W1, Et2.
  destruct (updateBatterStats_counts play pitch t1) as (t2 & E2 & _).
  pose proof (updateBatterStats_wf play pitch t1) as W2.
  rewrite E2 in W2, Et2. cbn [snd] in W2. cbv beta iota zeta in W2, Et2.
  destruct (updatePitcherCommand_counts play pitch (option_map location ctx)
              t2) as (t3 & E3 & _).
  pose proof (updatePitcherCommand_wf play pitch (option_map location ctx) t2)
    as W3.
  rewrite E3 in W3, Et2. cbn [snd] in W3. cbv beta iota zeta in W3, Et2.
  destruct (updateBatterVsPitchStats_counts play pitch
              (mapPitchCodeToBucket (typeCode pitch)) isLastPitch
              (zoneOfContext ctx) t3) as (t4 & E4 & _).
  pose proof (updateBatterVsPitchStats_wf play pitch
                (mapPitchCodeToBucket (typeCode pitch)) isLastPitch
                (zoneOfContext ctx) t3 (zoneOfContext_In ctx)) as W4.
  rewrite E4 in W4, Et2. cbn [snd] in W4. cbv beta iota zeta in W4, Et2.
  destruct W1 as ((I1 & A1 & P1 & O1 & K1 & L1) & T1 & F1 & V1).
  destruct W2 as ((I2 & A2 & P2 & O2 & K2 & L2) & T2 & F2 & V2).
  destruct W3 as ((I3 & A3 & P3 & O3 & K3 & L3) & T3 & F3 & V3).
  destruct W4 as ((I4 & A4 & P4 & O4 & K4 & L4) & T4 & F4 & V4).
  inv_open H.
  assert (Hfinal :
    pitchIndexMap t' = pitchIndexMap t /\
    replayModeActive t' = replayModeActive t /\
    pitchCoordCache t' = pitchCoordCache t /\
    lastCtx t' = lastCtx t /\
    totalThrown t' = (totalThrown t + 1)%Z /\
    totalFaced t' = (totalFaced t + 1)%Z /\
    (0 <= simulatedOuts t' <= 2)%Z /\
    wfProfiles t').
  { pose proof (outsFromPlay_range play) as Ho.
    assert (Houts4 : (0 <= simulatedOuts t4 <= 2)%Z) by congruence.
    assert (Hwf4 : wfProfiles t4) by auto.
    assert (Hrest : forall o n,
      (0 <= o <= 2)%Z ->
      let u := set_pitchPointer n (set_simulatedOuts o t4) in
      pitchIndexMap u = pitchIndexMap t /\
      replayModeActive u = replayModeActive t /\
      pitchCoordCache u = pitchCoordCache t /\
      lastCtx u = lastCtx t /\
      totalThrown u = (totalThrown t + 1)%Z /\
      totalFaced u = (totalFaced t + 1)%Z /\
      (0 <= simulatedOuts u <= 2)%Z /\
      wfProfiles u).
    { intros o n Ho'. cbv zeta.
      split; [change (pitchIndexMap t4 = pitchIndexMap t); congruence|].
      split; [change (replayModeActive t4 = replayModeActive t); congruence|].
      split; [change (pitchCoordCache t4 = pitchCoordCache t); congruence|].
      split; [change (lastCtx t4 = lastCtx t); congruence|].
      split; [change (totalThrown t4 = (totalThrown t + 1)%Z); lia|].
      split; [change (totalFaced t4 = (totalFaced t + 1)%Z); lia|].
      split; [exact Ho'|exact Hwf4]. }
    destruct isLastPitch; unfold when, modify, ret in Et2;
      cbv beta iota zeta in Et2; injection Et2 as <-.
    - apply Hrest.
      destruct (3 <=? simulatedOuts t4 + outsFromPlay play)%Z eqn:E3o;
        [lia|]. apply Z.leb_gt in E3o. lia.
    - replace t4 with (set_simulatedOuts (simulatedOuts t4) t4) at 1
        by (destruct t4; reflexivity).
      now apply Hrest. }
  destruct Hfinal as (G1 & G2 & G3 & G4 & G5 & G6 & G7 & G8).
  split; [|split; [congruence|lia]].
  split; [rewrite G1; exact Hidx|].
  split; [intros _; rewrite G1; apply Hact; congruence|].
  split; [lia|].
  split; [lia|].
  split; [lia|].
  split; [intros Hf; congruence|].
  split; [exact G7|].
  split; [exact G8|].
  split.
  { destruct Hcnt as (N1 & N2 & N3 & N4).
    unfold countsAgree.
    split; [|split; [|split]].
    - intros q. rewrite C3, C1. specialize (N1 q).
      unfold oneIf. repeat case_bool_decide; cbn [andb]; lia.
    - intros b fam. rewrite C4. specialize (N2 b fam).
      unfold oneIf. repeat case_bool_decide; cbn [andb]; lia.
    - intros b. rewrite !C4, C2. specialize (N3 b).
      unfold oneIf. repeat case_bool_decide; simplify_eq; cbn [andb]; lia.
    - intros b z fam. rewrite C5, C4. specialize (N4 b z fam).
      unfold oneIf.
      destruct (truthy (zoneOfContext ctx));
        repeat case_bool_decide; cbn [andb]; lia. }
  split; [rewrite G3; exact Hcache|].
  rewrite G4. exact Hlast.
Qed.

(** ** One tick of the replay *)

Lemma predictPitchType_ok (ctx : option Ctx) (s : Stores) :
  exists m, predictPitchType ctx s = (Ok m, s).
Proof.
  destruct ctx as [c|]; [|eexists; reflexivity].
  unfold predictPitchType, bind.
  destruct (predictStages_ok c s) as [raw ->]. eexists. reflexivity.
Qed.

Lemma getBatterZoneEV_ok (bid : Z) (zone : string) (fam : Family)
  (s : Stores) :
  exists ev, getBatterZoneEV bid zone fam s = (Ok ev, s).
Proof.
  unfold getBatterZoneEV, bind, gets.
  destruct (batterVsZoneStats s !! (bid, zone, fam)) as [z|];
    [|eexists; reflexivity].
  destruct (seen z <? 3)%Z; eexists; reflexivity.
Qed.

Lemma scoreFamily_ok (ctx : Ctx) (base : Mix) (v : option Mix) (fam : Family)
  (s : Stores) :
  exists q, scoreFamily ctx base v fam s = (Ok q, s).
Proof.
  unfold scoreFamily. cbv zeta.
  destruct (truthy (lastPitchLocationZone ctx) && negb (batterId ctx =? 0)%Z);
    [|eexists; reflexivity].
  unfold bind.
  destruct (getBatterZoneEV_ok (batterId ctx)
              (lastPitchLocationZone ctx ?? "") fam s) as [[ev|] ->];
    eexists; reflexivity.
Qed.

Lemma recommendOptimalPitch_ok (ctx : Ctx) (s : Stores) :
  exists o, recommendOptimalPitch (Some ctx) s = (Ok o, s).
Proof.
  unfold recommendOptimalPitch, optimalScores, bind, deref.
  unfold ret at 1. cbv beta iota zeta.
  match goal with
  | |- context [scoreFamily ctx ?b ?v fastball s] =>
      destruct (scoreFamily_ok ctx b v fastball s) as [q1 ->];
      destruct (scoreFamily_ok ctx b v breaking s) as [q2 ->];
      destruct (scoreFamily_ok ctx b v change s) as [q3 ->]
  end.
  eexists. reflexivity.
Qed.

Lemma showInningHeader_state (ctx : Ctx) (s : Stores) :
  exists v, showInningHeader ctx s = (Ok tt, set_lastInningPrinted v s).
Proof.
  unfold showInningHeader, bind, gets. cbv zeta.
  destruct (negb (bool_decide (lastInningPrinted s
                               = Some (pretty (inning ctx) ++ " "
                                       ++ topBottom ctx)))).
  - eexists. reflexivity.
  - exists (lastInningPrinted s). destruct s; reflexivity.
Qed.

Lemma detectChanges_spec (game : Game) (a : bool) (p : nat) (play : Play) :
  hoare (replayAt game a p) (detectChanges play)
        (fun _ => replayAt game a p) (fun _ => False).
Proof.
  intros s H. unfold detectChanges, bind, gets. cbv zeta.
  destruct (negb (bool_decide (lastPitcherId s
                               = Some (mu_pitcherId (p_matchup play)))));
    cbn [when modify ret fst snd]; unfold modify, ret; cbv beta iota.
  - assert (H' : replayAt game a p
                   (set_lastCtx None
                      (set_pitchSequence []
                         (set_lastPitcherId
                            (Some (mu_pitcherId (p_matchup play))) s)))).
    { inv_open H. inv_close. intros tc Htc. discriminate. }
    match goal with
    | |- context [negb ?c] => destruct (negb c)
    end; cbn; exact H'.
  - match goal with
    | |- context [negb ?c] => destruct (negb c)
    end; cbn; exact H.
Qed.

Lemma asciiStrikeZone_spec (game : Game) (loc : Location) (s : Stores) :
  resolved game loc ->
  asciiStrikeZone (Some loc) s = (Ok tt, s) \/
  asciiStrikeZone (Some loc) s = (TypeError, s) /\ degenerate game.
Proof.
  intros [|px pz t b Hg|hb vb angle len|hb vb angle len];
    try (left; reflexivity).
  unfold asciiStrikeZone.
  cbn [hasLocation trueLocation l_szTop l_szBot].
  destruct (Qeq_bool (t - b) 0) eqn:E; [|left; reflexivity].
  right. split; [reflexivity|].
  exists px, pz, t, b. split; [exact Hg|].
  apply Qeq_bool_iff in E. lra.
Qed.

Lemma beginReplay_cache (game : Game) (s : Stores) :
  pitchCoordCache (snd (beginReplay game s))
  = if replayModeActive s then pitchCoordCache s else ∅.
Proof.
  unfold beginReplay, bind, gets. destruct (replayModeActive s); reflexivity.
Qed.

Lemma detectChanges_cache (play : Play) (s : Stores) :
  pitchCoordCache (snd (detectChanges play s)) = pitchCoordCache s.
Proof.
  unfold detectChanges, bind, gets. cbv zeta.
  destruct (negb (bool_decide (lastPitcherId s
                               = Some (mu_pitcherId (p_matchup play)))));
    cbn [when modify ret fst snd]; unfold modify, ret; cbv beta iota;
    match goal with
    | |- context [negb ?c] => destruct (negb c)
    end; reflexivity.
Qed.

Lemma applyUpdates_cache (play : Play) (pitch : PitchEvent)
  (ctx : option Ctx) (isLastPitch : bool) (t : Stores) :
  pitchCoordCache (snd (applyUpdates play pitch ctx isLastPitch t))
  = pitchCoordCache t.
Proof.
  unfold applyUpdates, bind.
  destruct (updatePitcherStats_counts play pitch t) as (t1 & E1 & _).
  pose proof (updatePitcherStats_wf play pitch t) as W1.
  rewrite E1 in W1 |- *. cbn [snd] in W1. cbv beta iota zeta in W1 |- *.
  destruct (updateBatterStats_counts play pitch t1) as (t2 & E2 & _).
  pose proof (updateBatterStats_wf play pitch t1) as W2.
  rewrite E2 in W2 |- *. cbn [snd] in W2. cbv beta iota zeta in W2 |- *.
  destruct (updatePitcherCommand_counts play pitch (option_map location ctx)
              t2) as (t3 & E3 & _).
  pose proof (updatePitcherCommand_wf play pitch (option_map location ctx) t2)
    as W3.
  rewrite E3 in W3 |- *. cbn [snd] in W3. cbv beta iota zeta in W3 |- *.
  destruct (updateBatterVsPitchStats_counts play pitch
              (mapPitchCodeToBucket (typeCode pitch)) isLastPitch
              (zoneOfContext ctx) t3) as (t4 & E4 & _).
  pose proof (updateBatterVsPitchStats_wf play pitch
                (mapPitchCodeToBucket (typeCode pitch)) isLastPitch
                (zoneOfContext ctx) t3 (zoneOfContext_In ctx)) as W4.
  rewrite E4 in W4 |- *. cbn [snd] in W4. cbv beta iota zeta in W4 |- *.
  destruct W1 as ((_ & _ & _ & _ & K1 & _) & _).
  destruct W2 as ((_ & _ & _ & _ & K2 & _) & _).
  destruct W3 as ((_ & _ & _ & _ & K3 & _) & _).
  destruct W4 as ((_ & _ & _ & _ & K4 & _) & _).
  destruct isLastPitch; unfold when, modify, ret; cbv beta iota zeta;
    cbn [snd]; change (pitchCoordCache t4 = pitchCoordCache t); congruence.
Qed.

Lemma beginReplay_lastCtx (game : Game) (s : Stores) :
  lastCtx (snd (beginReplay game s))
  = if replayModeActive s then lastCtx s else None.
Proof.
  unfold beginReplay, bind, gets. destruct (replayModeActive s); reflexivity.
Qed.

(** What one tick does, from a state of the replay in which the pointer is
    at [p] and the context remembered is [prev0]. *)
Lemma handleReplayMode_spec (game : Game) (a : bool) (p : nat)
  (prev0 : option TunnelCtx) (k0 : gmap string CacheEntry) :
  hoare (fun s => replayAt game a p s /\ lastCtx s = prev0 /\
                  pitchCoordCache s = k0)
        (handleReplayMode game)
        (fun rep s' =>
           match rep with
           | None =>
             replayAt game true p s' /\
             (List.length (pitchIndexOf game) <= p)%nat
           | Some r =>
             replayAt game true (S p) s' /\
             exists playIdx pitchIdx play pitch c o,
               pitchIndexOf game !! p = Some (playIdx, pitchIdx) /\
               allPlays game !! playIdx = Some play /\
               p_playEvents play !! pitchIdx = Some pitch /\
               rep_ctx r = Some c /\
               (0 <= o <= 2)%Z /\
               ctxOk game o (if a then prev0 else None) c /\
               pitcherId c = mu_pitcherId (p_matchup play) /\
               batterId c = mu_batterId (p_matchup play) /\
               lastPitchType c = typeCode pitch /\
               resolveOn game (if a then k0 else ∅) playIdx pitchIdx
               = (Ok (location c), pitchCoordCache s')
           end)
        (fun s' => replayAt game true p s' /\ degenerate game).
Proof.
  intros s (H & Hprev & Hk0).
  unfold handleReplayMode. unfold bind at 1.
  pose proof (beginReplay_spec game a p s H) as H0.
  pose proof (beginReplay_lastCtx game s) as Hl0.
  pose proof (beginReplay_cache game s) as Hc0.
  destruct (beginReplay game s) as [[[]|] s0]; [|destruct H0].
  cbn [snd] in Hl0, Hc0.
  assert (Hprev0 : lastCtx s0 = if a then prev0 else None).
  { rewrite Hl0. destruct H as (_ & -> & _). now rewrite Hprev. }
  assert (Hcache0 : pitchCoordCache s0 = if a then k0 else ∅).
  { rewrite Hc0. destruct H as (_ & -> & _). now rewrite Hk0. }
  clear Hl0 Hc0 H Hprev Hk0 s.
  unfold bind at 1. unfold gets at 1.
  unfold bind at 1. unfold gets at 1.
  assert (Hmap : pitchIndexMap s0 = pitchIndexOf game).
  { destruct H0 as ((_ & Hact & _) & Ha & _). now apply Hact. }
  assert (Hpt0 : pitchPointer s0 = p) by apply H0.
  rewrite Hmap, Hpt0.
  destruct (pitchIndexOf game !! p) as [[playIdx pitchIdx]|] eqn:Hix.
  2:{ unfold ret. split; [exact H0|]. now apply lookup_ge_None_1. }
  assert (Hlt : (p < List.length (pitchIndexOf game))%nat)
    by (eapply lookup_lt_Some; eassumption).
  destruct (pitchIndexOf_lookup game p playIdx pitchIdx Hix)
    as (play & pitch & Hplay & Hpitch & _).
  unfold bind at 1. rewrite Hplay.
  unfold deref at 1, ret at 1. cbv zeta.
  unfold bind at 1. unfold gets at 1.
  unfold bind at 1. unfold gets at 1.
  unfold bind at 1.
  (* a new half inning *)
  match goal with
  | |- context [when ?c ?m s0] =>
      assert (H1 : exists s1,
                 when c m s0 = (Ok tt, s1) /\
                 replayAt game true p s1 /\ lastCtx s1 = lastCtx s0 /\
                 pitchCoordCache s1 = pitchCoordCache s0)
  end.
  { match goal with
    | |- context [when ?c _ s0] => destruct c
    end; cbn [when]; unfold modify, ret.
    - eexists. split; [reflexivity|]. split; [|split; reflexivity].
      inv_open H0. inv_close; cbn.
      + intros Hf. congruence.
      + lia.
    - exists s0.
      split; [reflexivity|split; [exact H0|split; reflexivity]]. }
  destruct H1 as (s1 & -> & H1 & Hl1 & Hk1).
  unfold bind at 1. unfold gets at 1.
  assert (Hou : (0 <= simulatedOuts s1 <= 2)%Z)
    by (destruct H1 as ((_ & _ & _ & _ & _ & _ & Ho & _) & _); exact Ho).
  unfold bind at 1. rewrite Hpitch.
  unfold deref at 1, ret at 1.
  unfold bind at 1.
  (* the sequence memory *)
  match goal with
  | |- context [when ?c ?m s1] =>
      assert (H2 : exists s2,
                 when c m s1 = (Ok tt, s2) /\
                 replayAt game true p s2 /\ lastCtx s2 = lastCtx s1 /\
                 pitchCoordCache s2 = pitchCoordCache s1)
  end.
  { destruct (truthy (typeCode pitch)); cbn [when];
      unfold analyzeSequence, modify, ret.
    - eexists. split; [reflexivity|].
      split; [exact H1|split; reflexivity].
    - exists s1.
      split; [reflexivity|split; [exact H1|split; reflexivity]]. }
  destruct H2 as (s2 & -> & H2 & Hl2 & Hk2).
  unfold bind at 1.
  (* the context *)
  pose proof (buildReplayPitchContext_spec game true p playIdx pitchIdx
                (simulatedOuts s1) (if a then prev0 else None)
                (if a then k0 else ∅) s2) as H3.
  destruct (buildReplayPitchContext game playIdx pitchIdx (simulatedOuts s1)
              s2) as [[ctx|] s3];
    [|exfalso; apply H3; split; [exact H2|split; congruence]].
  destruct H3 as [H3 Hctx]; [split; [exact H2|split; congruence]|].
  destruct ctx as [c|].
  2:{ exfalso. destruct Hctx as [Hn|(play' & Hp' & Hn)]; [congruence|].
      rewrite Hplay in Hp'. injection Hp' as <-. congruence. }
  destruct Hctx as (Hok & (play' & pitch' & Hp' & Hq' & Hpid & Hbid & Hty)
                    & _ & Hro).
  rewrite Hplay in Hp'. injection Hp' as <-.
  rewrite Hpitch in Hq'. injection Hq' as <-.
  (* the two outputs *)
  unfold bind at 1.
  destruct (predictPitchType_ok (Some c) s3) as [likely ->].
  unfold bind at 1.
  destruct (recommendOptimalPitch_ok c s3) as [optimal ->].
  (* the header, the changes and the drawing *)
  unfold bind at 1.
  destruct (showInningHeader_state c s3) as [v ->].
  assert (H4 : replayAt game true p (set_lastInningPrinted v s3)) by exact H3.
  unfold bind at 1.
  pose proof (detectChanges_spec game true p play _ H4) as H5.
  pose proof (detectChanges_cache play (set_lastInningPrinted v s3)) as Hk5.
  destruct (detectChanges play (set_lastInningPrinted v s3))
    as [[[]|] s5]; [|destruct H5].
  cbn [snd] in Hk5. change (pitchCoordCache s5 = pitchCoordCache s3) in Hk5.
  unfold bind at 1. cbn [option_map].
  destruct (asciiStrikeZone_spec game (location c) s5) as [->|[-> Hdeg]];
    [apply Hok| |split; [exact H5|exact Hdeg]].
  (* the updates *)
  unfold bind at 1.
  pose proof (applyUpdates_spec game p play pitch (Some c)
                (negb (existsb ev_isPitch
                         (skipn (pitchIdx + 1) (p_playEvents play))))
                Hlt s5 H5) as H6.
  pose proof (applyUpdates_cache play pitch (Some c)
                (negb (existsb ev_isPitch
                         (skipn (pitchIdx + 1) (p_playEvents play)))) s5)
    as Hk6.
  destruct (applyUpdates play pitch (Some c)
              (negb (existsb ev_isPitch
                       (skipn (pitchIdx + 1) (p_playEvents play)))) s5)
    as [[[]|] s6]; [|destruct H6].
  cbn [snd] in Hk6.
  unfold ret.
  split; [exact H6|].
  exists playIdx, pitchIdx, play, pitch, c, (simulatedOuts s1).
  cbn [rep_ctx].
  split; [reflexivity|]. split; [exact Hplay|]. split; [exact Hpitch|].
  split; [reflexivity|]. split; [exact Hou|]. split; [exact Hok|].
  split; [exact Hpid|]. split; [exact Hbid|]. split; [exact Hty|].
  rewrite Hk6, Hk5. exact Hro.
Qed.

Lemma zonesProper_spec (game : Game) :
  zonesProper game = true -> ~ degenerate game.
Proof.
  intros H (px & pz & t & b & (play & ev & Hplay & Hev & He) & Hz).
  unfold zonesProper in H. rewrite forallb_forall in H.
  specialize (H play Hplay). rewrite forallb_forall in H.
  specialize (H ev Hev). unfold properZone in H. rewrite He in H.
  cbn in H. apply negb_true_iff, Qeq_bool_false in H. apply H. lra.
Qed.

(** ** A request to the pitch-type endpoint *)

Lemma apiPitchType_spec (usage : TypeUsage) (game : Game) (a : bool)
  (p : nat) (k0 : gmap string CacheEntry) :
  hoare (fun s => replayAt game a p s /\ pitchCoordCache s = k0)
        (apiPitchType usage (Some game))
        (fun reply s' =>
           replayAt game a p s' /\
           match reply with
           | ApiError e =>
             e = "No pitch index yet" /\
             (List.length (pitchIndexOf game) <= p)%nat
           | ApiPitchType r =>
             exists playIdx pitchIdx play pitch c o prev,
               pitchIndexOf game !! p = Some (playIdx, pitchIdx) /\
               allPlays game !! playIdx = Some play /\
               p_playEvents play !! pitchIdx = Some pitch /\
               api_context r = Some c /\
               (0 <= o <= 2)%Z /\
               ctxOk game o prev c /\
               pitcherId c = mu_pitcherId (p_matchup play) /\
               batterId c = mu_batterId (p_matchup play) /\
               lastPitchType c = typeCode pitch /\
               api_likelySpecific r
               = getLikelySpecificPitch usage (Some (api_likely r)) (Some c) /\
               api_optimalSpecific r
               = getOptimalSpecificPitch usage (Some (api_optimal r))
                                         (Some c) /\
               lastCtx s'
               = Some (mkTunnelCtx (lastPitchType c) (Some (location c))) /\
               resolveOn game k0 playIdx pitchIdx
               = (Ok (location c), pitchCoordCache s')
           end)
        (fun _ => False).
Proof.
  intros s [H Hk0].
  unfold apiPitchType. unfold bind at 1. unfold gets at 1.
  unfold bind at 1.
  (* the index, built when it is empty *)
  match goal with
  | |- context [when ?c ?m s] =>
      assert (H1 : exists s1,
                 when c m s = (Ok tt, s1) /\
                 replayAt game a p s1 /\
                 pitchIndexMap s1 = pitchIndexOf game /\
                 pitchCoordCache s1 = k0)
  end.
  { destruct (List.length (pitchIndexMap s) =? 0)%nat eqn:E; cbn [when];
      unfold buildPitchIndexMap, modify, ret.
    - eexists. split; [reflexivity|]. split; [|split; [reflexivity|exact Hk0]].
      inv_open H. inv_close; cbn.
      + now right.
      + reflexivity.
    - exists s. split; [reflexivity|]. split; [exact H|].
      split; [|exact Hk0].
      destruct H as ((Hidx & _) & _). destruct Hidx as [Hn|Hf]; [|exact Hf].
      rewrite Hn in E. discriminate. }
  destruct H1 as (s1 & -> & H1 & Hmap & Hk1).
  clear H Hk0 s.
  unfold bind at 1. unfold gets at 1.
  unfold bind at 1. unfold gets at 1.
  assert (Hpt0 : pitchPointer s1 = p) by apply H1.
  rewrite Hmap, Hpt0.
  destruct (pitchIndexOf game !! p) as [[playIdx pitchIdx]|] eqn:Hix.
  2:{ unfold ret. split; [exact H1|].
      split; [reflexivity|]. now apply lookup_ge_None_1. }
  destruct (pitchIndexOf_lookup game p playIdx pitchIdx Hix)
    as (play & pitch & Hplay & Hpitch & _).
  unfold bind at 1. unfold gets at 1.
  assert (Hou : (0 <= simulatedOuts s1 <= 2)%Z)
    by (destruct H1 as ((_ & _ & _ & _ & _ & _ & Ho & _) & _); exact Ho).
  unfold bind at 1.
  pose proof (buildReplayPitchContext_spec game a p playIdx pitchIdx
                (simulatedOuts s1) (lastCtx s1) k0 s1
                (conj H1 (conj eq_refl Hk1))) as H3.
  destruct (buildReplayPitchContext game playIdx pitchIdx (simulatedOuts s1)
              s1) as [[ctx|] s3]; [|destruct H3].
  destruct H3 as [H3 Hctx].
  destruct ctx as [c|].
  2:{ exfalso. destruct Hctx as [Hn|(play' & Hp' & Hn)]; [congruence|].
      rewrite Hplay in Hp'. injection Hp' as <-. congruence. }
  destruct Hctx as (Hok & (play' & pitch' & Hp' & Hq' & Hpid & Hbid & Hty)
                    & Hlast & Hro).
  rewrite Hplay in Hp'. injection Hp' as <-.
  rewrite Hpitch in Hq'. injection Hq' as <-.
  unfold bind at 1.
  destruct (predictPitchType_ok (Some c) s3) as [likely ->].
  unfold bind at 1.
  destruct (recommendOptimalPitch_ok c s3) as [optimal ->].
  cbv zeta. unfold ret.
  split; [exact H3|].
  exists playIdx, pitchIdx, play, pitch, c, (simulatedOuts s1), (lastCtx s1).
  cbn [api_context api_likely api_likelySpecific api_optimal
       api_optimalSpecific].
  split; [reflexivity|]. split; [exact Hplay|]. split; [exact Hpitch|].
  split; [reflexivity|]. split; [exact Hou|]. split; [exact Hok|].
  split; [exact Hpid|]. split; [exact Hbid|]. split; [exact Hty|].
  split; [reflexivity|]. split; [reflexivity|]. split; [exact Hlast|exact Hro].
Qed.

(** ** The states of a replay *)

Lemma initialStores_inv (arsenal : gmap Z Mix) (game : Game) :
  replayAt game false 0 (initialStores arsenal).
Proof.
  unfold replayAt, replayInv, initialStores. cbn.
  split; [|now split].
  split; [now left|]. split; [discriminate|]. split; [lia|].
  split; [unfold totalThrown; cbn; now rewrite map_fold_empty|].
  split; [unfold totalFaced; cbn; now rewrite map_fold_empty|].
  split; [now repeat split|].
  split; [lia|].
  split.
  { unfold wfProfiles. cbn.
    repeat split; intros *; rewrite ?lookup_empty; discriminate. }
  split.
  { unfold countsAgree, pitchesTyped, pitchesThrown, familySeen,
      pitchesFaced, zoneSeen. cbn.
    repeat split; intros; rewrite ?lookup_empty; lia. }
  split; [intros k c Hk; discriminate|].
  intros tc Htc. discriminate.
Qed.

Lemma handle_inv (usage : TypeUsage) (game : Game) (ev : Event) (a : bool)
  (p : nat) (s : Stores) :
  replayAt game a p s ->
  exists a' p', replayAt game a' p' (snd (run (handle usage game ev) s)).
Proof.
  intros H. unfold run, handle. destruct ev; unfold bind.
  - pose proof (handleReplayMode_spec game a p (lastCtx s)
                  (pitchCoordCache s) s (conj H (conj eq_refl eq_refl)))
      as Hs.
    destruct (handleReplayMode game s) as [[[r|]|] s']; cbn [snd];
      [exists true, (S p)|exists true, p|exists true, p]; apply Hs.
  - pose proof (apiPitchType_spec usage game a p (pitchCoordCache s) s
                  (conj H eq_refl)) as Hs.
    destruct (apiPitchType usage (Some game) s) as [[r|] s']; cbn [snd];
      [exists a, p; apply Hs|destruct Hs].
Qed.

(** Every state of a replay satisfies the invariant. *)
Lemma after_inv (usage : TypeUsage) (arsenal : gmap Z Mix) (game : Game)
  (evs : list Event) :
  exists a p,
    replayAt game a p (after usage game evs (initialStores arsenal)).
Proof.
  unfold after.
  assert (G : forall s a p, replayAt game a p s ->
              exists a' p',
                replayAt game a' p'
                  (fold_left (fun s ev => snd (run (handle usage game ev) s))
                             evs s)).
  { induction evs as [|ev evs IH]; intros s a p H; cbn [fold_left].
    - now exists a, p.
    - destruct (handle_inv usage game ev a p s H) as (a' & p' & H').
      exact (IH _ a' p' H'). }
  exact (G _ false 0%nat (initialStores_inv arsenal game)).
Qed.

Lemma apiPitchType_keeps (usage : TypeUsage) (game : option Game) :
  keeps (apiPitchType usage game).
Proof.
  unfold apiPitchType. destruct game as [game|]; [|apply keeps_ret].
  apply keeps_bind; [apply keeps_gets|]. intros im.
  apply keeps_bind.
  { apply keeps_when. unfold buildPitchIndexMap. keeps_step. }
  intros _.
  apply keeps_bind; [apply keeps_gets|]. intros pointer.
  apply keeps_bind; [apply keeps_gets|]. intros im'.
  destruct (im' !! pointer) as [[playIdx pitchIdx]|]; [|apply keeps_ret].
  apply keeps_bind; [apply keeps_gets|]. intros o.
  apply keeps_bind; [apply buildReplayPitchContext_keeps|]. intros ctx.
  apply keeps_bind;
    [eapply keeps_readsOnly; apply predictPitchType_readsOnly|].
  intros likely.
  apply keeps_bind;
    [eapply keeps_readsOnly; apply recommendOptimalPitch_readsOnly|].
  intros optimal. apply keeps_ret.
Qed.

(** ** Tunnels between the readings of the resolver *)

Lemma detectTunnel_resolved (game : Game) (A B : Location)
  (tA tB : option string) :
  resolved game A -> resolved game B ->
  hasLocation A = true -> hasLocation B = true ->
  detectTunnel (Some (mkTunnelCtx tA (Some A))) (Some (mkTunnelCtx tB (Some B)))
  = None.
Proof.
  intros HA HB.
  destruct HA as [|px pz t b _|hb vb an le|hb vb an le]; try discriminate.
  destruct HB as [|px' pz' t' b' _|hb' vb' an' le'|hb' vb' an' le'];
    try discriminate.
  intros _ _. unfold detectTunnel.
  cbn [tc_location tc_lastPitchType hasLocation isBreakData trueLocation
       negb andb l_px l_pz l_hb l_vb orElse].
  cbv zeta.
  destruct (negb _); [reflexivity|].
  replace (Qltb (Qabs (0 - 0) + Qabs (0 - 0)) TUNNEL_BREAK_DIFF_THRESHOLD)
    with true by reflexivity.
  reflexivity.
Qed.

Lemma resolved_flags (game : Game) (l : Location) :
  resolved game l ->
  l = noLocation \/ hasLocation l = true \/ isBreakData l = true.
Proof.
  intros [|px pz t b _|hb vb an le|hb vb an le]; auto.
Qed.

Lemma after_app (usage : TypeUsage) (game : Game) (evs1 evs2 : list Event)
  (s : Stores) :
  after usage game (evs1 ++ evs2) s
  = after usage game evs2 (after usage game evs1 s).
Proof. unfold after. apply fold_left_app. Qed.

Lemma Qabs_diff_self (x : Q) : Qabs (x - x) == 0.
Proof.
  assert (E : x - x == 0) by ring.
  rewrite E. reflexivity.
Qed.

(** Two readings of the same pitch never make a tunnel. *)
Lemma detectTunnel_sameReading (A B : Location) (tA tB : option string) :
  sameReading A B ->
  detectTunnel (Some (mkTunnelCtx tA (Some A))) (Some (mkTunnelCtx tB (Some B)))
  = None.
Proof.
  intros (_ & _ & _ & _ & Hhb & Hvb & _).
  unfold detectTunnel. cbn [tc_location tc_lastPitchType]. cbv zeta.
  destruct (negb (hasLocation A) && negb (isBreakData A)); [reflexivity|].
  destruct (negb (hasLocation B) && negb (isBreakData B)); [reflexivity|].
  destruct (negb _); [reflexivity|].
  rewrite Hhb, Hvb.
  replace (Qltb (Qabs ((l_hb B ?? 0) - (l_hb B ?? 0))
                 + Qabs ((l_vb B ?? 0) - (l_vb B ?? 0)))
                TUNNEL_BREAK_DIFF_THRESHOLD) with true; [reflexivity|].
  symmetry. apply Qltb_lt. rewrite !Qabs_diff_self. reflexivity.
Qed.

(** ** Properties of every state of a replay

    A state of a replay is the state of the script after any run of timer
    ticks and requests to the pitch-type endpoint, from the stores as they are
    when the script is loaded. *)

(** X4.  In every state of a replay the pitch pointer is the number of
    pitches recorded so far: it equals the pitches of the command store summed
    over all pitchers and the pitches of the aggression store summed over all
    batters, and it never passes the end of the pitch index of the game. *)
Theorem replay_pointer_counts_pitches (usage : TypeUsage)
  (arsenal : gmap Z Mix) (game : Game) (evs : list Event) :
  let s := after usage game evs (initialStores arsenal) in
  totalThrown s = Z.of_nat (pitchPointer s) /\
  totalFaced s = Z.of_nat (pitchPointer s) /\
  (pitchPointer s <= List.length (pitchIndexOf game))%nat.
Proof.
  cbv zeta. destruct (after_inv usage arsenal game evs) as (a & p & H).
  inv_open H. now repeat split.
Qed.

(** X5.  In every state of a replay the profile stores agree with one
    another: a pitcher has no more typed pitches in the usage store than
    pitches in the command store, the three family records of a batter
    together hold no more pitches than the aggression store says they faced,
    and a zone record holds no more pitches than the record of its family. *)
Theorem replay_stores_agree (usage : TypeUsage) (arsenal : gmap Z Mix)
  (game : Game) (evs : list Event) :
  let s := after usage game evs (initialStores arsenal) in
  (forall pid, 0 <= pitchesTyped s pid <= pitchesThrown s pid)%Z /\
  (forall bid,
      familySeen s bid fastball + familySeen s bid breaking
      + familySeen s bid change <= pitchesFaced s bid)%Z /\
  (forall bid zone fam,
      0 <= zoneSeen s bid zone fam <= familySeen s bid fam)%Z.
Proof.
  cbv zeta. destruct (after_inv usage arsenal game evs) as (a & p & H).
  inv_open H. destruct Hcnt as (N1 & N2 & N3 & N4).
  split; [exact N1|]. split; [exact N3|exact N4].
Qed.

(** Shares that sum to 1 do so within the tolerance. *)
Lemma sumsToOne_of (m : Mix) : mixSum m == 1 -> sumsToOne m.
Proof.
  intros H. unfold sumsToOne. rewrite H.
  assert (E : 1 - 1 == 0) by ring. rewrite E. discriminate.
Qed.

Lemma distribution_proportions (m : Mix) :
  nonneg m -> m_fastball m + m_breaking m + m_change m == 1 ->
  proportions m /\ sumsToOne m.
Proof.
  intros (Hf & Hb & Hc) Hs. split.
  - intros []; cbn; split; lra.
  - apply sumsToOne_of. rewrite mixSum_eq. exact Hs.
Qed.

(** X6.  In every state of a replay the in-game mix of a pitcher
    ([getPitcherGameMix]) is absent, when no typed pitch of theirs is recorded,
    or three shares between 0 and 1 that add up to 1 within 1e-6; and the
    aggression of a batter ([getBatterAggression]) is absent, when they have
    faced no pitch, or lies between 0 and 1.  Neither read changes a
    store. *)
Theorem replay_reads_are_proportions (usage : TypeUsage)
  (arsenal : gmap Z Mix) (game : Game) (evs : list Event) (pid bid : Z) :
  let s := after usage game evs (initialStores arsenal) in
  (exists m,
      run (getPitcherGameMix pid) s = (Ok m, s) /\
      match m with
      | Some m => proportions m /\ sumsToOne m
      | None => pitchesTyped s pid = 0%Z
      end) /\
  (exists q,
      run (getBatterAggression bid) s = (Ok q, s) /\
      match q with
      | Some q => 0 <= q /\ q <= 1
      | None => pitchesFaced s bid = 0%Z
      end).
Proof.
  cbv zeta. destruct (after_inv usage arsenal game evs) as (a & p & H).
  set (s := after usage game evs (initialStores arsenal)) in *.
  unfold run. split.
  - pose proof (getPitcherGameMix_spec game a p pid s H) as Hs.
    pose proof (getPitcherGameMix_state pid s) as Hst.
    assert (Hn : fst (getPitcherGameMix pid s) = Ok None ->
                 pitchesTyped s pid = 0%Z).
    { unfold getPitcherGameMix, bind, gets, pitchesTyped.
      destruct (pitcherGameStats s !! pid) as [g|]; [|reflexivity].
      destruct (gs_total g =? 0)%Z eqn:E; [|discriminate].
      intros _. now apply Z.eqb_eq. }
    destruct (getPitcherGameMix pid s) as [[m|] s']; cbn [fst snd] in *;
      [subst s'|destruct Hs].
    exists m. split; [reflexivity|].
    destruct m as [m|]; [|now apply Hn].
    destruct Hs as [_ [Hnn Hsum]]. now apply distribution_proportions.
  - pose proof (getBatterAggression_spec game a p bid s H) as Hs.
    pose proof (getBatterAggression_state bid s) as Hst.
    assert (Hn : fst (getBatterAggression bid s) = Ok None ->
                 pitchesFaced s bid = 0%Z).
    { unfold getBatterAggression, bind, gets, pitchesFaced.
      destruct (batterAggressionStats s !! bid) as [g|]; [|reflexivity].
      destruct (ag_pitches g =? 0)%Z eqn:E; [|discriminate].
      intros _. now apply Z.eqb_eq. }
    destruct (getBatterAggression bid s) as [[q|] s']; cbn [fst snd] in *;
      [subst s'|destruct Hs].
    exists q. split; [reflexivity|].
    destruct q as [q|]; [apply Hs|now apply Hn].
Qed.

(** X7.  In every state of a replay the profile of a batter
    ([getBatterVsPitchProfile]) is absent or has, for each family, counters
    in which every whiff and every ball in play is a swing and every swing a
    pitch seen, a whiff rate between 0 and 1, hit and hard-hit rates that are
    not negative, and a vulnerability score of at most 1.  The read never
    raises. *)
Theorem replay_profile_bounds (usage : TypeUsage) (arsenal : gmap Z Mix)
  (game : Game) (evs : list Event) (bid : Z) :
  let s := after usage game evs (initialStores arsenal) in
  match fst (run (getBatterVsPitchProfile bid) s) with
  | Ok (Some bp) =>
    forall fam,
      let st := bfGet (bp_raw bp) fam in
      (0 <= whiffs st <= swings st /\ 0 <= inPlay st <= swings st /\
       swings st <= seen st)%Z /\
      (exists w h hh,
          whiffRate st = Some w /\ hitRate st = Some h /\
          hardHitRate st = Some hh /\
          0 <= w /\ w <= 1 /\ 0 <= h /\ 0 <= hh) /\
      mixGet (vuln bp) fam <= 1
  | Ok None => forall fam, familySeen s bid fam = 0%Z
  | TypeError => False
  end.
Proof.
  cbv zeta. destruct (after_inv usage arsenal game evs) as (a & p & H).
  set (s := after usage game evs (initialStores arsenal)) in *.
  unfold run.
  pose proof (getBatterVsPitchProfile_spec game a p bid s H) as Hs.
  assert (Hn : fst (getBatterVsPitchProfile bid s) = Ok None ->
               forall fam, familySeen s bid fam = 0%Z).
  { unfold getBatterVsPitchProfile, bind, gets, familySeen.
    destruct (batterVsPitchStats s !! bid) as [raw|]; [|reflexivity].
    destruct (profileFold_spec raw) as (top & best & ->). discriminate. }
  destruct (getBatterVsPitchProfile bid s) as [[bp|] s']; cbn [fst] in *;
    [|destruct Hs].
  destruct bp as [bp|]; [|now apply Hn].
  destruct Hs as [_ Hs]. intros fam. cbv zeta.
  destruct (Hs fam) as (W & R & V). cbv zeta in W, R, V.
  split; [unfold wfFamStats in W; lia|]. split; [exact R|exact V].
Qed.

(** X8.  In every state of a replay the simulated outs are 0, 1 or 2, and so
    are the outs of the context of every pitch a tick reports. *)
Theorem replay_outs_range (usage : TypeUsage) (arsenal : gmap Z Mix)
  (game : Game) (evs : list Event) :
  let s := after usage game evs (initialStores arsenal) in
  (0 <= simulatedOuts s <= 2)%Z /\
  match fst (run (handleReplayMode game) s) with
  | Ok (Some r) =>
    exists c, rep_ctx r = Some c /\ (0 <= outs c <= 2)%Z
  | _ => True
  end.
Proof.
  cbv zeta. destruct (after_inv usage arsenal game evs) as (a & p & H).
  set (s := after usage game evs (initialStores arsenal)) in *.
  split; [inv_open H; exact Houts|].
  unfold run.
  pose proof (handleReplayMode_spec game a p (lastCtx s) (pitchCoordCache s)
                s (conj H (conj eq_refl eq_refl))) as Hs.
  destruct (handleReplayMode game s) as [[[r|]|] s']; cbn [fst]; try exact I.
  destruct Hs as (_ & playIdx & pitchIdx & play & pitch & c & o & _ & _ & _
                  & Hc & Ho & (Houts & _) & _).
  exists c. split; [exact Hc|]. now rewrite Houts.
Qed.

(** X9.  From every state of a replay a tick either reports the pitch under
    the pointer, with a context, and moves the pointer one pitch on; or, when
    the pointer is at the end of the pitch index, reports nothing and leaves
    the pointer; or raises a [TypeError], which happens only in a game in
    which some event carries a true location whose zone top equals its zone
    bottom, and then the pointer stays where it was. *)
Theorem replay_tick_progress (usage : TypeUsage) (arsenal : gmap Z Mix)
  (game : Game) (evs : list Event) :
  let s := after usage game evs (initialStores arsenal) in
  match run (handleReplayMode game) s with
  | (Ok (Some r), s') =>
    pitchPointer s' = S (pitchPointer s) /\
    exists playIdx pitchIdx play pitch c,
      pitchIndexOf game !! pitchPointer s = Some (playIdx, pitchIdx) /\
      allPlays game !! playIdx = Some play /\
      p_playEvents play !! pitchIdx = Some pitch /\
      ev_isPitch pitch = true /\
      rep_ctx r = Some c /\
      pitcherId c = mu_pitcherId (p_matchup play) /\
      batterId c = mu_batterId (p_matchup play) /\
      lastPitchType c = typeCode pitch
  | (Ok None, s') =>
    (List.length (pitchIndexOf game) <= pitchPointer s)%nat /\
    pitchPointer s' = pitchPointer s
  | (TypeError, s') =>
    zonesProper game = false /\ pitchPointer s' = pitchPointer s
  end.
Proof.
  cbv zeta. destruct (after_inv usage arsenal game evs) as (a & p & H).
  set (s := after usage game evs (initialStores arsenal)) in *.
  unfold run.
  pose proof (handleReplayMode_spec game a p (lastCtx s) (pitchCoordCache s)
                s (conj H (conj eq_refl eq_refl))) as Hs.
  assert (Hp : pitchPointer s = p) by apply H.
  destruct (handleReplayMode game s) as [[[r|]|] s'].
  - destruct Hs as (Hs' & playIdx & pitchIdx & play & pitch & c & o & Hix
                    & Hplay & Hpitch & Hc & _ & _ & Hpid & Hbid & Hty & _).
    split; [destruct Hs' as (_ & _ & ->); now rewrite Hp|].
    exists playIdx, pitchIdx, play, pitch, c. rewrite Hp.
    split; [exact Hix|]. split; [exact Hplay|]. split; [exact Hpitch|].
    split.
    { destruct (pitchIndexOf_lookup game p playIdx pitchIdx Hix)
        as (play' & pitch' & Hp' & Hq' & Hisp).
      rewrite Hplay in Hp'. injection Hp' as <-.
      rewrite Hpitch in Hq'. injection Hq' as <-. exact Hisp. }
    split; [exact Hc|]. split; [exact Hpid|]. split; [exact Hbid|exact Hty].
  - destruct Hs as (Hs' & Hlen). rewrite Hp.
    split; [exact Hlen|]. apply Hs'.
  - destruct Hs as (Hs' & Hdeg). rewrite Hp. split; [|apply Hs'].
    destruct (zonesProper game) eqn:E; [|reflexivity].
    exfalso. exact (zonesProper_spec game E Hdeg).
Qed.

(** X10.  From every state of a replay a request to the pitch-type endpoint
    never raises.  It changes no counter of a profile store and does not move
    the pointer.  Its reply is the error [No pitch index yet] exactly when the
    pointer is at the end of the pitch index of the game; otherwise it carries
    the context of the pitch under the pointer, which the request leaves as
    the remembered context for the next tunnel check, and the two specific
    pitches are read off that context. *)
Theorem request_never_raises (usage : TypeUsage) (arsenal : gmap Z Mix)
  (game : Game) (evs : list Event) :
  let s := after usage game evs (initialStores arsenal) in
  match run (apiPitchType usage (Some game)) s with
  | (Ok reply, s') =>
    sameProfiles s' s /\ pitchPointer s' = pitchPointer s /\
    match reply with
    | ApiError e =>
      e = "No pitch index yet" /\
      (List.length (pitchIndexOf game) <= pitchPointer s)%nat
    | ApiPitchType r =>
      exists playIdx pitchIdx play pitch c,
        pitchIndexOf game !! pitchPointer s = Some (playIdx, pitchIdx) /\
        allPlays game !! playIdx = Some play /\
        p_playEvents play !! pitchIdx = Some pitch /\
        api_context r = Some c /\
        pitcherId c = mu_pitcherId (p_matchup play) /\
        batterId c = mu_batterId (p_matchup play) /\
        lastPitchType c = typeCode pitch /\
        api_likelySpecific r
        = getLikelySpecificPitch usage (Some (api_likely r)) (Some c) /\
        api_optimalSpecific r
        = getOptimalSpecificPitch usage (Some (api_optimal r)) (Some c) /\
        lastCtx s' = Some (mkTunnelCtx (lastPitchType c) (Some (location c)))
    end
  | (TypeError, _) => False
  end.
Proof.
  cbv zeta. destruct (after_inv usage arsenal game evs) as (a & p & H).
  set (s := after usage game evs (initialStores arsenal)) in *.
  unfold run.
  pose proof (apiPitchType_spec usage game a p (pitchCoordCache s) s
                (conj H eq_refl)) as Hs.
  destruct (apiPitchType_keeps usage (Some game) s) as [Hk Hpp].
  assert (Hp : pitchPointer s = p) by apply H.
  destruct (apiPitchType usage (Some game) s) as [[reply|] s'];
    cbn [snd] in Hk, Hpp; [|exact Hs].
  split; [exact Hk|]. split; [exact Hpp|].
  destruct Hs as [_ Hs]. rewrite Hp.
  destruct reply as [e|r]; [exact Hs|].
  destruct Hs as (playIdx & pitchIdx & play & pitch & c & o & prev & Hix
                  & Hplay & Hpitch & Hc & _ & _ & Hpid & Hbid & Hty & Hls
                  & Hos & Hlast & _).
  exists playIdx, pitchIdx, play, pitch, c.
  split; [exact Hix|]. split; [exact Hplay|]. split; [exact Hpitch|].
  split; [exact Hc|]. split; [exact Hpid|]. split; [exact Hbid|].
  split; [exact Hty|]. split; [exact Hls|]. split; [exact Hos|exact Hlast].
Qed.

(** X11.  In a replay no tunnel is ever reported between two pitches that
    both carry a true location: when the context of a reported pitch has a
    tunnel, the location of that pitch or the location remembered from the
    pitch before is a movement-only reading. *)
Theorem replay_tunnel_needs_movement (usage : TypeUsage)
  (arsenal : gmap Z Mix) (game : Game) (evs : list Event) :
  let s := after usage game evs (initialStores arsenal) in
  match fst (run (handleReplayMode game) s) with
  | Ok (Some r) =>
    match rep_ctx r with
    | Some c =>
      match tunnelInfo c with
      | Some _ =>
        exists tc prev,
          lastCtx s = Some tc /\ tc_location tc = Some prev /\
          (isBreakData (location c) = true \/ isBreakData prev = true)
      | None => True
      end
    | None => False
    end
  | _ => True
  end.
Proof.
  cbv zeta. destruct (after_inv usage arsenal game evs) as (a & p & H).
  set (s := after usage game evs (initialStores arsenal)) in *.
  unfold run.
  pose proof (handleReplayMode_spec game a p (lastCtx s) (pitchCoordCache s)
                s (conj H (conj eq_refl eq_refl))) as Hs.
  destruct (handleReplayMode game s) as [[[r|]|] s']; cbn [fst]; try exact I.
  destruct Hs as (_ & playIdx & pitchIdx & play & pitch & c & o & _ & _ & _
                  & -> & _ & (_ & Hres & _ & _ & _ & Htun & _) & _).
  destruct (tunnelInfo c) as [ti|] eqn:Eti; [|exact I].
  destruct a; [|discriminate].
  destruct (lastCtx s) as [tc|] eqn:Elast; [|discriminate].
  destruct H as ((_ & _ & _ & _ & _ & _ & _ & _ & _ & _ & Hlast) & _).
  destruct (Hlast tc Elast) as (prev & Hloc & Hprev).
  exists tc, prev. split; [reflexivity|]. split; [exact Hloc|].
  destruct tc as [ty loc]. cbn [tc_location] in Hloc. subst loc.
  destruct (resolved_flags game (location c) Hres) as [Hn|[Ht|Hb]];
    [|destruct (resolved_flags game prev Hprev) as [Hn|[Ht'|Hb]]|];
    [| | |now right|now left].
  - exfalso. rewrite Hn in Htun. unfold detectTunnel in Htun.
    cbn [tc_location hasLocation isBreakData noLocation negb andb] in Htun.
    destruct (negb (hasLocation prev) && negb (isBreakData prev));
      discriminate.
  - exfalso. rewrite Hn in Htun. discriminate.
  - exfalso.
    rewrite (detectTunnel_resolved game prev (location c) ty (lastPitchType c)
               Hprev Hres Ht' Ht) in Htun.
    discriminate.
Qed.

(** X17.  A request to the pitch-type endpoint hides the tunnel of the next
    pitch: in a replay, the tick that follows a request never reports a
    tunnel.  The request leaves its own reading of the pitch under the
    pointer as the remembered context, and the tick compares its reading of
    that same pitch with it. *)
Theorem request_hides_tunnel (usage : TypeUsage) (arsenal : gmap Z Mix)
  (game : Game) (evs : list Event) :
  let s := after usage game (evs ++ [Request]) (initialStores arsenal) in
  match fst (run (handleReplayMode game) s) with
  | Ok (Some r) =>
    match rep_ctx r with
    | Some c => tunnelInfo c = None
    | None => False
    end
  | _ => True
  end.
Proof.
  cbv zeta. rewrite after_app.
  destruct (after_inv usage arsenal game evs) as (a & p & H0).
  set (s0 := after usage game evs (initialStores arsenal)) in *.
  unfold after at 1. cbn [fold_left]. unfold run, handle, bind.
  pose proof (apiPitchType_spec usage game a p (pitchCoordCache s0) s0
                (conj H0 eq_refl)) as Hreq.
  destruct (apiPitchType usage (Some game) s0) as [[reply|] s1];
    [|destruct Hreq].
  cbn [snd ret]. unfold ret. cbn [snd].
  destruct Hreq as [H1 Hreply].
  pose proof (handleReplayMode_spec game a p (lastCtx s1) (pitchCoordCache s1)
                s1 (conj H1 (conj eq_refl eq_refl))) as Hs.
  destruct (handleReplayMode game s1) as [[[r|]|] s2]; cbn [fst];
    try exact I.
  destruct Hs as (_ & playIdx & pitchIdx & play & pitch & c & o & Hix & _ & _
                  & -> & _ & (_ & _ & _ & _ & _ & Htun & _) & _ & _ & _ & Hro).
  destruct a; [|exact Htun].
  destruct reply as [e|r1].
  { destruct Hreply as [_ Hlen]. apply lookup_lt_Some in Hix. lia. }
  destruct Hreply as (i' & j' & play' & pitch' & c1 & o1 & prev1 & Hix' & _
                      & _ & _ & _ & _ & _ & _ & _ & _ & _ & Hlast & Hro1).
  rewrite Hix in Hix'. injection Hix' as <- <-.
  destruct (resolveOn_again game _ _ playIdx pitchIdx _ Hro1)
    as (l2 & Hro2 & Hsame).
  rewrite Hro2 in Hro. injection Hro as -> _.
  rewrite Htun, Hlast. now apply detectTunnel_sameReading.
Qed.

(** X18.  In every state of a replay the zone value of a batter against a
    family ([getBatterZoneEV]) is read without raising or changing a store,
    and is there exactly when the batter has seen at least three pitches of
    that family in that zone; then the zone is one of the nine zone labels,
    the batter has seen at least three pitches of the family, and the value
    is at most 1. *)
Theorem replay_zone_value (usage : TypeUsage) (arsenal : gmap Z Mix)
  (game : Game) (evs : list Event) (bid : Z) (zone : string) (fam : Family) :
  let s := after usage game evs (initialStores arsenal) in
  exists ev,
    run (getBatterZoneEV bid zone fam) s = (Ok ev, s) /\
    match ev with
    | Some q =>
      q <= 1 /\ In zone zoneLabels /\
      (3 <= zoneSeen s bid zone fam)%Z /\ (3 <= familySeen s bid fam)%Z
    | None => (zoneSeen s bid zone fam < 3)%Z
    end.
Proof.
  cbv zeta. destruct (after_inv usage arsenal game evs) as (a & p & H).
  set (s := after usage game evs (initialStores arsenal)) in *.
  inv_open H. destruct Hcnt as (_ & _ & _ & N4).
  specialize (N4 bid zone fam). revert N4.
  unfold run, getBatterZoneEV, bind, gets, zoneSeen.
  destruct (batterVsZoneStats s !! (bid, zone, fam)) as [z|] eqn:Ez.
  2:{ intros _. exists None. split; [reflexivity|lia]. }
  intros N4. destruct (seen z <? 3)%Z eqn:E3.
  - exists None. split; [reflexivity|]. now apply Z.ltb_lt.
  - apply Z.ltb_ge in E3. exists (Some (scoreOf z)). split; [reflexivity|].
    destruct Hwf as (_ & _ & _ & _ & W5).
    destruct (W5 bid zone fam z Ez) as [Wz Hzone].
    destruct Wz as (Hw0 & Hws & Hi0 & His & Hss & Hh0 & Hhs & Hhh0 & Hhhs).
    split.
    { unfold scoreOf. apply vulnScore_le_1;
        [now apply rateOf_le_1|now apply rateOf_nonneg
        |now apply rateOf_nonneg]. }
    split; [exact Hzone|]. split; [exact E3|lia].
Qed.

(** ** The family with the largest share *)

Lemma Qgtb_irrefl (x : Q) : Qgtb x x = false.
Proof. apply Qgtb_le. apply Qle_refl. Qed.

Lemma pickBest_spec (mix : Mix) (fam : Family) :
  mixGet mix fam <= mixGet mix (pickBest mix) /\
  ((famRank fam < famRank (pickBest mix))%nat ->
   mixGet mix fam < mixGet mix (pickBest mix)).
Proof.
  destruct mix as [f b c].
  cbv beta iota zeta delta [pickBest families fold_left mixGet m_fastball
                            m_breaking m_change fst snd].
  rewrite Qgtb_irrefl.
  destruct (Qgtb b f) eqn:Eb.
  - apply Qgtb_gt in Eb.
    destruct (Qgtb c b) eqn:Ec;
      [apply Qgtb_gt in Ec|apply Qgtb_le in Ec];
      destruct fam; cbn [famRank]; (split; [lra|intros Hr; try lia; lra]).
  - apply Qgtb_le in Eb.
    destruct (Qgtb c f) eqn:Ec;
      [apply Qgtb_gt in Ec|apply Qgtb_le in Ec];
      destruct fam; cbn [famRank]; (split; [lra|intros Hr; try lia; lra]).
Qed.

(** X12.  On a context that is there the optimal recommender always returns,
    and the family it names as best has the largest share of the mix it
    returns; among families with that largest share it is the first in the
    order fastball, breaking, change. *)
Theorem recommendOptimalPitch_best (ctx : Ctx) (s : Stores) :
  exists o,
    run (recommendOptimalPitch (Some ctx)) s = (Ok o, s) /\
    forall fam,
      mixGet (o_mix o) fam <= mixGet (o_mix o) (o_best o) /\
      ((famRank fam < famRank (o_best o))%nat ->
       mixGet (o_mix o) fam < mixGet (o_mix o) (o_best o)).
Proof.
  unfold run.
  destruct (recommendOptimalPitch_ok ctx s) as [o Ho].
  exists o. split; [exact Ho|].
  revert Ho. unfold recommendOptimalPitch, bind.
  destruct (optimalScores (Some ctx) s) as [[scores|] s']; [|discriminate].
  unfold ret. intros Ho. injection Ho as <- _.
  cbn [o_mix o_best]. apply pickBest_spec.
Qed.

(** ** The pitch index *)

Lemma ordered_app {A : Type} (R : A -> A -> Prop) (l1 l2 : list A) :
  (forall i j x y, (i < j)%nat -> l1 !! i = Some x -> l1 !! j = Some y -> R x y) ->
  (forall i j x y, (i < j)%nat -> l2 !! i = Some x -> l2 !! j = Some y -> R x y) ->
  (forall x y, In x l1 -> In y l2 -> R x y) ->
  forall i j x y,
    (i < j)%nat -> (l1 ++ l2)%list !! i = Some x ->
    (l1 ++ l2)%list !! j = Some y -> R x y.
Proof.
  intros H1 H2 H12 i j x y Hij Hi Hj.
  apply lookup_app_Some in Hi as [Hi|[Hli Hi]];
    apply lookup_app_Some in Hj as [Hj|[Hlj Hj]].
  - exact (H1 i j x y Hij Hi Hj).
  - apply H12; eapply lookup_In; eassumption.
  - apply lookup_lt_Some in Hj. lia.
  - apply (H2 (i - List.length l1)%nat (j - List.length l1)%nat);
      [lia|exact Hi|exact Hj].
Qed.

Lemma pitchIndicesOf_sorted (pIdx eIdx : nat) (evs : list PitchEvent)
  (i j : nat) (x y : nat * nat) :
  (i < j)%nat ->
  pitchIndicesOf pIdx eIdx evs !! i = Some x ->
  pitchIndicesOf pIdx eIdx evs !! j = Some y -> feedOrder x y.
Proof.
  revert eIdx i j x y. induction evs as [|ev rest IH]; intros eIdx;
    cbn [pitchIndicesOf]; [intros i j x y _ H; discriminate|].
  apply ordered_app.
  - intros i j x y Hij Hi Hj. destruct j as [|j]; [lia|].
    destruct (ev_isPitch ev); discriminate.
  - apply IH.
  - intros x [p e] Hx Hy. destruct (ev_isPitch ev); [|destruct Hx].
    destruct Hx as [<-|[]].
    apply pitchIndicesOf_spec in Hy as (-> & Hle & _).
    right. cbn. split; [reflexivity|lia].
Qed.

Lemma pitchIndicesFrom_sorted (pIdx : nat) (plays : list Play)
  (i j : nat) (x y : nat * nat) :
  (i < j)%nat ->
  pitchIndicesFrom pIdx plays !! i = Some x ->
  pitchIndicesFrom pIdx plays !! j = Some y -> feedOrder x y.
Proof.
  revert pIdx i j x y. induction plays as [|play rest IH]; intros pIdx;
    cbn [pitchIndicesFrom]; [intros i j x y _ H; discriminate|].
  apply ordered_app.
  - apply pitchIndicesOf_sorted.
  - apply IH.
  - intros [p e] [p' e'] H1 H2.
    apply pitchIndicesOf_spec in H1 as (-> & _).
    apply pitchIndicesFrom_spec in H2 as (Hle & _).
    left. cbn. lia.
Qed.

(** X13.  The pitch index that [buildPitchIndexMap] stores lists exactly the
    pitch events of the game: a pair of a play index and an event index is in
    it exactly when that event of that play exists and is a pitch.  It lists
    them in the order of the feed, so none twice, and the call changes no
    other store. *)
Theorem buildPitchIndexMap_exact (game : Game) (s : Stores) :
  exists index,
    run (buildPitchIndexMap game) s = (Ok tt, set_pitchIndexMap index s) /\
    (forall p e,
        In (p, e) index <->
        exists play ev,
          allPlays game !! p = Some play /\
          p_playEvents play !! e = Some ev /\ ev_isPitch ev = true) /\
    (forall i j x y,
        (i < j)%nat -> index !! i = Some x -> index !! j = Some y ->
        feedOrder x y).
Proof.
  exists (pitchIndexOf game). split; [reflexivity|]. split.
  - intros p e. unfold pitchIndexOf. rewrite pitchIndicesFrom_spec.
    rewrite Nat.sub_0_r. split.
    + intros (_ & H). exact H.
    + intros H. split; [lia|exact H].
  - apply pitchIndicesFrom_sorted.
Qed.

(** ** The window of speeds *)

Lemma sliceLast_short {A : Type} (n : nat) (l : list A) :
  (List.length l <= n)%nat -> sliceLast n l = l.
Proof.
  intros H. unfold sliceLast.
  replace (List.length l - n)%nat with 0%nat by lia. reflexivity.
Qed.

Lemma length_sliceLast {A : Type} (n : nat) (l : list A) :
  List.length (sliceLast n l) = Nat.min n (List.length l).
Proof. unfold sliceLast. rewrite length_skipn. lia. Qed.

Lemma pushVelo_sliceLast (l : list Q) (v : Q) :
  pushVelo (sliceLast 8 l) v = sliceLast 8 (l ++ [v])%list.
Proof.
  unfold pushVelo. cbv zeta.
  rewrite length_app, length_sliceLast. cbn [List.length].
  destruct (le_lt_dec (List.length l) 7) as [Hs|Hl].
  - rewrite (sliceLast_short 8 l) by lia.
    rewrite (sliceLast_short 8 (l ++ [v])%list)
      by (rewrite length_app; cbn; lia).
    replace (8 <? Nat.min 8 (List.length l) + 1)%nat with false
      by (symmetry; apply Nat.ltb_ge; lia).
    reflexivity.
  - replace (8 <? Nat.min 8 (List.length l) + 1)%nat with true
      by (symmetry; apply Nat.ltb_lt; lia).
    unfold sliceLast. rewrite length_app. cbn [List.length].
    rewrite <- (drop_app_le l [v] (List.length l - 8)) by lia.
    replace (List.length l + 1 - 8)%nat with (S (List.length l - 8)) by lia.
    generalize (List.length l - 8)%nat (l ++ [v])%list.
    intros n k. revert k. induction n as [|n IH]; intros [|x k];
      try reflexivity.
    cbn [skipn]. rewrite IH. destruct k; reflexivity.
Qed.

Lemma speedsOf_cons (pid : Z) (play : Play) (pitch : PitchEvent)
  (loc : option Location) (rest : list Call) :
  speedsOf pid ((play, pitch, loc) :: rest)
  = ((if bool_decide (mu_pitcherId (p_matchup play) = pid)
      then match startSpeed pitch with Some v => [v] | None => [] end
      else []) ++ speedsOf pid rest)%list.
Proof.
  unfold speedsOf. simpl.
  destruct (bool_decide (mu_pitcherId (p_matchup play) = pid));
    [|reflexivity].
  destruct (startSpeed pitch); reflexivity.
Qed.

Lemma pitchesOf_cons (pid : Z) (play : Play) (pitch : PitchEvent)
  (loc : option Location) (rest : list Call) :
  pitchesOf pid ((play, pitch, loc) :: rest)
  = ((if bool_decide (mu_pitcherId (p_matchup play) = pid) then 1 else 0)
     + pitchesOf pid rest)%nat.
Proof.
  unfold pitchesOf. cbn [List.filter].
  destruct (bool_decide (mu_pitcherId (p_matchup play) = pid)); reflexivity.
Qed.

Lemma updatePitcherCommand_record (play : Play) (pitch : PitchEvent)
  (loc : option Location) (s : Stores) (pid : Z) :
  exists t,
    updatePitcherCommand play pitch loc s = (Ok tt, t) /\
    if bool_decide (mu_pitcherId (p_matchup play) = pid) then
      exists cs,
        pitcherCommandStats t !! pid = Some cs /\
        let old := (pitcherCommandStats s !! pid) ?? zeroCommandStats in
        velos cs = match startSpeed pitch with
                   | Some v => pushVelo (velos old) v
                   | None => velos old
                   end /\
        cs_pitches cs = (cs_pitches old + 1)%Z
    else pitcherCommandStats t !! pid = pitcherCommandStats s !! pid.
Proof.
  unfold updatePitcherCommand, modify. cbv zeta.
  eexists. split; [reflexivity|].
  cbn [pitcherCommandStats set_pitcherCommandStats].
  destruct (bool_decide (mu_pitcherId (p_matchup play) = pid)) eqn:Epid.
  - apply bool_decide_eq_true_1 in Epid. subst pid.
    rewrite lookup_insert_eq. eexists. split; [reflexivity|].
    cbn [velos cs_pitches]. split; reflexivity.
  - apply bool_decide_eq_false_1 in Epid.
    now rewrite lookup_insert_ne by exact Epid.
Qed.

Lemma commandCalls_window (pid : Z) (calls : list Call) (s : Stores)
  (l0 : list Q) (n0 : nat) :
  match pitcherCommandStats s !! pid with
  | Some cs => velos cs = sliceLast 8 l0 /\ cs_pitches cs = Z.of_nat n0
  | None => l0 = [] /\ n0 = 0%nat
  end ->
  exists s',
    commandCalls calls s = (Ok tt, s') /\
    match pitcherCommandStats s' !! pid with
    | Some cs =>
      velos cs = sliceLast 8 (l0 ++ speedsOf pid calls)%list /\
      cs_pitches cs = Z.of_nat (n0 + pitchesOf pid calls)
    | None => l0 = [] /\ n0 = 0%nat /\ pitchesOf pid calls = 0%nat
    end.
Proof.
  revert s l0 n0. induction calls as [|[[play pitch] loc] rest IH];
    intros s l0 n0 H.
  - exists s. split; [reflexivity|]. cbn.
    rewrite app_nil_r, Nat.add_0_r.
    destruct (pitcherCommandStats s !! pid); [exact H|].
    destruct H; now repeat split.
  - cbn [commandCalls]. unfold bind.
    destruct (updatePitcherCommand_record play pitch loc s pid)
      as (t & -> & Ht).
    rewrite speedsOf_cons, pitchesOf_cons.
    destruct (bool_decide (mu_pitcherId (p_matchup play) = pid)).
    + destruct Ht as (cs & Ecs & Hv & Hn). cbv zeta in Hv, Hn.
      set (new := match startSpeed pitch with
                  | Some v => [v]
                  | None => []
                  end).
      destruct (IH t (l0 ++ new)%list (S n0)) as (s' & Es' & Hs').
      { rewrite Ecs, Hv, Hn. subst new.
        destruct (pitcherCommandStats s !! pid) as [old|];
          cbn [orElse velos cs_pitches zeroCommandStats].
        - destruct H as [Hv0 Hn0]. rewrite Hv0, Hn0. split; [|lia].
          destruct (startSpeed pitch) as [v|];
            [apply pushVelo_sliceLast|now rewrite app_nil_r].
        - destruct H as [-> ->]. split; [|reflexivity].
          destruct (startSpeed pitch) as [v|]; reflexivity. }
      exists s'. split; [exact Es'|].
      destruct (pitcherCommandStats s' !! pid) as [cs'|].
      * destruct Hs' as [Hv' Hn'].
        split; [now rewrite Hv', <- app_assoc|rewrite Hn'; f_equal; lia].
      * destruct Hs' as (_ & Hs' & _). discriminate.
    + destruct (IH t l0 n0) as (s' & Es' & Hs'); [now rewrite Ht|].
      exists s'. split; [exact Es'|exact Hs'].
Qed.

(** X14.  Through any run of calls of [updatePitcherCommand], from a command
    store with no record of the pitcher, the record of the pitcher holds the
    speeds of the last eight of their pitches that carried a speed, oldest
    first, and counts every pitch of theirs, with or without a speed; a
    pitcher with no call has no record. *)
Theorem velocity_window (calls : list Call) (s : Stores) (pid : Z)
  (Hnew : pitcherCommandStats s !! pid = None) :
  exists s',
    run (commandCalls calls) s = (Ok tt, s') /\
    match pitcherCommandStats s' !! pid with
    | Some cs =>
      velos cs = sliceLast 8 (speedsOf pid calls) /\
      cs_pitches cs = Z.of_nat (pitchesOf pid calls) /\
      (0 < pitchesOf pid calls)%nat
    | None => pitchesOf pid calls = 0%nat
    end.
Proof.
  destruct (commandCalls_window pid calls s [] 0%nat) as (s' & Es & Hs).
  { now rewrite Hnew. }
  exists s'. split; [exact Es|].
  destruct (pitcherCommandStats s' !! pid) as [cs|] eqn:Ecs; [|apply Hs].
  destruct Hs as [Hv Hn]. cbn in Hv, Hn.
  split; [exact Hv|]. split; [exact Hn|].
  destruct (pitchesOf pid calls) eqn:En; [|lia].
  exfalso.
  (* a record is only ever written by a call for the pitcher *)
  clear Hv Hn. revert s Hnew Es Ecs En.
  induction calls as [|[[play pitch] loc] rest IH]; intros s Hnew Es Ecs En.
  - cbn in Es. injection Es as <-. congruence.
  - rewrite pitchesOf_cons in En.
    cbn [commandCalls] in Es. unfold bind in Es.
    destruct (updatePitcherCommand_record play pitch loc s pid)
      as (t & Et & Ht).
    rewrite Et in Es.
    destruct (bool_decide (mu_pitcherId (p_matchup play) = pid));
      [discriminate|].
    apply (IH t); [congruence|exact Es|exact Ecs|exact En].
Qed.

Lemma velocity_window_witness :
  exists s',
    run (commandCalls highArmCalls) (initialStores ∅) = (Ok tt, s') /\
    match pitcherCommandStats s' !! 10%Z with
    | Some cs =>
      velos cs = sliceLast 8 (speedsOf 10 highArmCalls) /\
      cs_pitches cs = Z.of_nat (pitchesOf 10 highArmCalls) /\
      (0 < pitchesOf 10 highArmCalls)%nat
    | None => pitchesOf 10 highArmCalls = 0%nat
    end.
Proof.
  apply (velocity_window highArmCalls (initialStores ∅) 10%Z).
  reflexivity.
Defined.

(** ** Specific pitch types *)

Lemma bestEntry_fold (entries : list (string * Q)) (acc : option string * Q) :
  let r :=
    fold_left
      (fun '(bestCode, bestVal) '(code, val) =>
         if Qgtb val bestVal then (Some code, val) else (bestCode, bestVal))
      entries acc in
  snd acc <= snd r /\
  (forall k v, In (k, v) entries -> v <= snd r) /\
  (r = acc \/
   exists k, fst r = Some k /\ In (k, snd r) entries /\ snd acc < snd r).
Proof.
  revert acc. induction entries as [|[k0 v0] rest IH]; intros [bc bv];
    cbn [fold_left].
  - cbv zeta. cbn [snd]. split; [apply Qle_refl|].
    split; [intros k v []|now left].
  - destruct (Qgtb v0 bv) eqn:E.
    + apply Qgtb_gt in E.
      specialize (IH (Some k0, v0)). cbv zeta in IH |- *.
      destruct IH as (H1 & H2 & H3). cbn [snd fst] in *.
      split; [lra|]. split.
      * intros k v [Hh|Ht]; [injection Hh as <- <-; exact H1|].
        exact (H2 k v Ht).
      * right. destruct H3 as [->|(k & Hk & Hin & Hlt)].
        -- exists k0. cbn [fst snd]. split; [reflexivity|].
           split; [now left|exact E].
        -- exists k. split; [exact Hk|]. split; [now right|lra].
    + apply Qgtb_le in E.
      specialize (IH (bc, bv)). cbv zeta in IH |- *.
      destruct IH as (H1 & H2 & H3). cbn [snd fst] in *.
      split; [exact H1|]. split.
      * intros k v [Hh|Ht]; [injection Hh as <- <-; lra|].
        exact (H2 k v Ht).
      * destruct H3 as [->|(k & Hk & Hin & Hlt)]; [now left|].
        right. exists k. split; [exact Hk|]. split; [now right|exact Hlt].
Qed.

Lemma pickSpecificPitchCode_most_used (usage : TypeUsage) (fam : Family)
  (pid : option Z) (entries : list (string * Q)) :
  famUsageOf usage pid fam = Some entries -> entries <> [] ->
  (forall k v, In (k, v) entries -> k <> "" /\ 0 <= v) ->
  exists v,
    In (pickSpecificPitchCode usage fam pid, v) entries /\
    forall k' v', In (k', v') entries -> v' <= v.
Proof.
  intros Hu Hne Hok. unfold pickSpecificPitchCode. cbv zeta. rewrite Hu.
  destruct entries as [|[k0 v0] rest]; [congruence|].
  cbn [List.length Nat.ltb Nat.leb]. unfold bestEntry.
  pose proof (bestEntry_fold ((k0, v0) :: rest) (None, -1)) as H.
  cbv zeta in H. cbn [snd] in H.
  set (r := fold_left _ ((k0, v0) :: rest) (None, -1)) in *.
  destruct H as (H1 & H2 & H3).
  destruct H3 as [Hr|(k & Hk & Hin & Hlt)].
  - exfalso. rewrite Hr in H2. cbn [snd] in H2.
    specialize (H2 k0 v0 (or_introl eq_refl)).
    destruct (Hok k0 v0 (or_introl eq_refl)) as [_ Hv]. lra.
  - rewrite Hk. destruct (Hok k (snd r) Hin) as [Hkne _].
    rewrite truthy_Some by exact Hkne. cbn [orElse].
    exists (snd r). split; [exact Hin|exact H2].
Qed.

Lemma tableGet_In (entries : list (string * Q)) (k : string) (v : Q) :
  NoDup (map fst entries) -> In (k, v) entries -> tableGet entries k = Some v.
Proof.
  induction entries as [|[k0 v0] rest IH]; intros Hnd Hin; [destruct Hin|].
  cbn [tableGet]. cbn [map fst] in Hnd. apply NoDup_cons in Hnd as [Hn Hnd].
  destruct Hin as [Hh|Ht].
  - injection Hh as -> ->. now rewrite String.eqb_refl.
  - destruct (String.eqb k0 k) eqn:E; [|now apply IH].
    apply String.eqb_eq in E. subst k0. exfalso. apply Hn.
    apply list_elem_of_In, in_map_iff. now exists (k, v).
Qed.

Lemma getPitchLabel_nonempty (code : option string) :
  getPitchLabel code <> "".
Proof.
  unfold getPitchLabel. cbv zeta.
  destruct (tableGet CODE_LABELS (toUpperCase (code ?? ""))) as [l|];
    cbn [truthy orElse].
  - destruct (String.eqb l "") eqn:E; cbn [negb].
    + destruct (String.eqb (toUpperCase (code ?? "")) "") eqn:E2; cbn [negb];
        [discriminate|now apply String.eqb_neq].
    + now apply String.eqb_neq.
  - destruct (String.eqb (toUpperCase (code ?? "")) "") eqn:E2; cbn [negb];
      [discriminate|now apply String.eqb_neq].
Qed.

(** X15.  When the usage table has entries for the pitcher of the context
    and a family, with non-empty codes, each once, and shares that are not
    negative, the specific pitch of that family is the code with the largest
    share in the table (no entry has a larger one).  For a mix whose best
    family it is, [getLikelySpecificPitch] names that family and that code,
    with a non-empty label and the probability of the family times the share
    of the code (times 1 when that share is 0); so does
    [getOptimalSpecificPitch] for a recommendation. *)
Theorem specific_pitch_most_used (usage : TypeUsage) (ctx : option Ctx)
  (fam : Family) (entries : list (string * Q))
  (Hu : famUsageOf usage (option_map pitcherId ctx) fam = Some entries)
  (Hne : entries <> [])
  (Hok : forall k v, In (k, v) entries -> k <> "" /\ 0 <= v)
  (Hnd : NoDup (map fst entries)) :
  exists code v,
    In (code, v) entries /\
    (forall k' v', In (k', v') entries -> v' <= v) /\
    getPitchLabel (Some code) <> "" /\
    (forall mix,
        pickBest mix = fam ->
        getLikelySpecificPitch usage (Some mix) ctx
        = Some (mkSpecific fam code (getPitchLabel (Some code))
                  (mixGet mix fam * (if Qgtb v 0 then v else 1.0)))) /\
    (forall opt,
        o_best opt = fam ->
        getOptimalSpecificPitch usage (Some opt) ctx
        = Some (mkSpecific fam code (getPitchLabel (Some code))
                  (mixGet (o_mix opt) fam * (if Qgtb v 0 then v else 1.0)))).
Proof.
  destruct (pickSpecificPitchCode_most_used usage fam
              (option_map pitcherId ctx) entries Hu Hne Hok)
    as (v & Hin & Hmax).
  set (code := pickSpecificPitchCode usage fam (option_map pitcherId ctx))
    in *.
  assert (Hshare : typeShare usage (option_map pitcherId ctx) fam code
                   = if Qgtb v 0 then v else 1.0).
  { unfold typeShare. rewrite Hu.
    destruct entries as [|e es]; [congruence|].
    cbn [List.length Nat.ltb Nat.leb].
    now rewrite (tableGet_In _ code v Hnd Hin). }
  exists code, v. split; [exact Hin|]. split; [exact Hmax|].
  split; [apply getPitchLabel_nonempty|]. split.
  - intros mix Hb. unfold getLikelySpecificPitch. cbv zeta.
    rewrite Hb. fold code. now rewrite Hshare.
  - intros opt Hb. unfold getOptimalSpecificPitch. cbv zeta.
    rewrite Hb. fold code. now rewrite Hshare.
Qed.

Lemma usageOfTen_fastballs :
  famUsageOf usageOfTen (option_map pitcherId (Some ctxNeg)) fastball
  = Some [("FF", 0.7); ("SI", 0.3)].
Proof. reflexivity. Qed.

Lemma usageOfTen_ok (k : string) (v : Q) :
  In (k, v) [("FF", 0.7); ("SI", 0.3)] -> k <> "" /\ 0 <= v.
Proof.
  intros [H|[H|[]]]; injection H as <- <-; (split; [discriminate|]);
    unfold Qle; cbn; lia.
Qed.

Lemma usageOfTen_NoDup : NoDup (map fst [("FF", 0.7); ("SI", 0.3)]).
Proof.
  cbn. apply NoDup_cons. split.
  - intros H. apply list_elem_of_In in H. destruct H as [H|[]]. discriminate.
  - apply NoDup_cons. split; [intros H; inversion H|constructor].
Qed.

Lemma specific_pitch_most_used_witness :
  exists code v,
    In (code, v) [("FF", 0.7); ("SI", 0.3)] /\
    (forall k' v', In (k', v') [("FF", 0.7); ("SI", 0.3)] -> v' <= v) /\
    getPitchLabel (Some code) <> "" /\
    (forall mix,
        pickBest mix = fastball ->
        getLikelySpecificPitch usageOfTen (Some mix) (Some ctxNeg)
        = Some (mkSpecific fastball code (getPitchLabel (Some code))
                  (mixGet mix fastball * (if Qgtb v 0 then v else 1.0)))) /\
    (forall opt,
        o_best opt = fastball ->
        getOptimalSpecificPitch usageOfTen (Some opt) (Some ctxNeg)
        = Some (mkSpecific fastball code (getPitchLabel (Some code))
                  (mixGet (o_mix opt) fastball
                   * (if Qgtb v 0 then v else 1.0)))).
Proof.
  apply (specific_pitch_most_used usageOfTen (Some ctxNeg) fastball
           [("FF", 0.7); ("SI", 0.3)] usageOfTen_fastballs).
  - discriminate.
  - exact usageOfTen_ok.
  - exact usageOfTen_NoDup.
Defined.

(** X16.  When the usage table has no entry, or an empty one, for the
    pitcher of the context and a family, or when there is no context, the
    specific pitch of the family is its fallback code, FF for fastball, SL
    for breaking and CH for change, which the classifier maps back to that
    family, and the probability is that of the family. *)
Theorem specific_pitch_fallback (usage : TypeUsage) (ctx : option Ctx)
  (fam : Family)
  (Hu : famUsageOf usage (option_map pitcherId ctx) fam = None \/
        famUsageOf usage (option_map pitcherId ctx) fam = Some []) :
  mapPitchCodeToBucket (Some (fallbackCode fam)) = Some fam /\
  (forall mix,
      pickBest mix = fam ->
      getLikelySpecificPitch usage (Some mix) ctx
      = Some (mkSpecific fam (fallbackCode fam)
                (getPitchLabel (Some (fallbackCode fam)))
                (mixGet mix fam * 1.0))) /\
  (forall opt,
      o_best opt = fam ->
      getOptimalSpecificPitch usage (Some opt) ctx
      = Some (mkSpecific fam (fallbackCode fam)
                (getPitchLabel (Some (fallbackCode fam)))
                (mixGet (o_mix opt) fam * 1.0))).
Proof.
  assert (Hcode : pickSpecificPitchCode usage fam (option_map pitcherId ctx)
                  = fallbackCode fam).
  { unfold pickSpecificPitchCode. cbv zeta.
    destruct Hu as [-> | ->]; destruct fam; reflexivity. }
  assert (Hshare : forall code,
             typeShare usage (option_map pitcherId ctx) fam code = 1.0).
  { intros code. unfold typeShare. destruct Hu as [-> | ->]; reflexivity. }
  split; [destruct fam; reflexivity|]. split.
  - intros mix Hb. unfold getLikelySpecificPitch. cbv zeta.
    now rewrite Hb, Hcode, Hshare.
  - intros opt Hb. unfold getOptimalSpecificPitch. cbv zeta.
    now rewrite Hb, Hcode, Hshare.
Qed.

Lemma specific_pitch_fallback_witness :
  mapPitchCodeToBucket (Some (fallbackCode change)) = Some change /\
  (forall mix,
      pickBest mix = change ->
      getLikelySpecificPitch usageOfTen (Some mix) (Some ctxNeg)
      = Some (mkSpecific change (fallbackCode change)
                (getPitchLabel (Some (fallbackCode change)))
                (mixGet mix change * 1.0))) /\
  (forall opt,
      o_best opt = change ->
      getOptimalSpecificPitch usageOfTen (Some opt) (Some ctxNeg)
      = Some (mkSpecific change (fallbackCode change)
                (getPitchLabel (Some (fallbackCode change)))
                (mixGet (o_mix opt) change * 1.0))).
Proof.
  apply (specific_pitch_fallback usageOfTen (Some ctxNeg) change).
  right. reflexivity.
Defined.

(** ** The arsenal file *)

Lemma tableGet_None {V : Type} (o : list (string * V)) (k : string) :
  tableGet o k = None <-> ~ In k (map fst o).
Proof.
  induction o as [|[k' v'] rest IH]; cbn [tableGet map fst In]; [tauto|].
  destruct (String.eqb k' k) eqn:E.
  - apply String.eqb_eq in E. split; [discriminate|]. intros H. tauto.
  - apply String.eqb_neq in E. rewrite IH. tauto.
Qed.

Lemma tableGet_Some_In {V : Type} (o : list (string * V)) (k : string) (v : V) :
  tableGet o k = Some v -> In (k, v) o.
Proof.
  induction o as [|[k' v'] rest IH]; cbn [tableGet]; [discriminate|].
  destruct (String.eqb k' k) eqn:E.
  - apply String.eqb_eq in E. intros H. injection H as <-. subst. now left.
  - intros H. right. now apply IH.
Qed.

Lemma objReplace_keys {V : Type} (k : string) (v : V) (o : list (string * V)) :
  map fst (objReplace k v o) = map fst o.
Proof.
  induction o as [|[k' v'] rest IH]; cbn [objReplace map fst]; [reflexivity|].
  destruct (String.eqb k' k); cbn [map fst]; [reflexivity|now rewrite IH].
Qed.

Lemma objReplace_In {V : Type} (k : string) (v : V) (o : list (string * V))
  (k' : string) (v' : V) :
  In (k', v') (objReplace k v o) -> (k' = k /\ v' = v) \/ In (k', v') o.
Proof.
  induction o as [|[k0 v0] rest IH]; cbn [objReplace]; [intros []|].
  destruct (String.eqb k0 k) eqn:E.
  - apply String.eqb_eq in E. subst k0.
    intros [H|H]; [injection H as <- <-; now left|right; now right].
  - intros [H|H]; [right; now left|].
    destruct (IH H) as [?|?]; [now left|right; now right].
Qed.

Lemma objReplace_sum (k : string) (v old : Q) (o : list (string * Q)) :
  tableGet o k = Some old ->
  sumShares (objReplace k v o) == sumShares o + v - old.
Proof.
  induction o as [|[k0 v0] rest IH]; cbn [tableGet objReplace];
    [discriminate|].
  destruct (String.eqb k0 k).
  - intros H. injection H as <-. unfold sumShares. cbn. ring.
  - intros H. specialize (IH H). unfold sumShares in *. cbn in *.
    rewrite IH. ring.
Qed.

Lemma objPutIndex_keys {V : Type} (i : N) (k : string) (v : V)
  (o : list (string * V)) (x : string) :
  In x (map fst (objPutIndex i k v o)) <-> x = k \/ In x (map fst o).
Proof.
  induction o as [|[k' v'] rest IH]; cbn [objPutIndex map fst In].
  - split; [intros [H|[]]; now left|intros [H|[]]; now left].
  - destruct (arrayIndex k') as [j|]; [destruct (j <? i)%N|];
      cbn [map fst In]; rewrite ?IH; intuition congruence.
Qed.

Lemma objPutIndex_NoDup {V : Type} (i : N) (k : string) (v : V)
  (o : list (string * V)) :
  ~ In k (map fst o) -> NoDup (map fst o) ->
  NoDup (map fst (objPutIndex i k v o)).
Proof.
  induction o as [|[k' v'] rest IH]; cbn [objPutIndex map fst]; intros Hk Hnd.
  - apply NoDup_cons. split; [intros H; inversion H|constructor].
  - assert (Hcons : NoDup (k :: k' :: map fst rest)).
    { apply NoDup_cons. split; [|exact Hnd].
      intros H. apply list_elem_of_In in H. exact (Hk H). }
    destruct (arrayIndex k') as [j|]; [destruct (j <? i)%N|];
      cbn [map fst]; try exact Hcons.
    apply NoDup_cons in Hnd as [Hn Hnd]. apply NoDup_cons. split.
    + intros H. apply list_elem_of_In, objPutIndex_keys in H as [H|H].
      * apply Hk. left. now symmetry.
      * apply Hn. now apply list_elem_of_In.
    + apply IH; [|exact Hnd]. intros H. apply Hk. now right.
Qed.

Lemma objPutIndex_In {V : Type} (i : N) (k : string) (v : V)
  (o : list (string * V)) (k' : string) (v' : V) :
  In (k', v') (objPutIndex i k v o) -> (k' = k /\ v' = v) \/ In (k', v') o.
Proof.
  induction o as [|[k0 v0] rest IH]; cbn [objPutIndex].
  - intros [H|[]]. injection H as <- <-. now left.
  - destruct (arrayIndex k0) as [j|]; [destruct (j <? i)%N|].
    + intros [H|H]; [right; now left|].
      destruct (IH H) as [?|?]; [now left|right; now right].
    + intros [H|H]; [injection H as <- <-; now left|now right].
    + intros [H|H]; [injection H as <- <-; now left|now right].
Qed.

Lemma objPutIndex_sum (i : N) (k : string) (v : Q) (o : list (string * Q)) :
  sumShares (objPutIndex i k v o) == sumShares o + v.
Proof.
  induction o as [|[k0 v0] rest IH]; cbn [objPutIndex].
  - unfold sumShares. cbn. ring.
  - destruct (arrayIndex k0) as [j|]; [destruct (j <? i)%N|];
      unfold sumShares in *; cbn in *; rewrite ?IH; ring.
Qed.

Lemma sumShares_app (o o' : list (string * Q)) :
  sumShares (o ++ o') == sumShares o + sumShares o'.
Proof.
  induction o as [|[k v] rest IH]; unfold sumShares in *; cbn; [ring|].
  rewrite IH. ring.
Qed.

(** What [o[k] = (o[k] || 0) + u] does to the keys, the entries and the sum
    of an object. *)
Lemma objSet_spec (o : list (string * Q)) (k : string) (u : Q) :
  NoDup (map fst o) ->
  let o' := objSet o k ((tableGet o k ?? 0) + u) in
  NoDup (map fst o') /\
  (forall k' v', In (k', v') o' ->
     (k' = k /\ v' = (tableGet o k ?? 0) + u) \/ In (k', v') o) /\
  sumShares o' == sumShares o + u.
Proof.
  intros Hnd. cbv zeta. unfold objSet.
  destruct (tableGet o k) as [old|] eqn:E; cbn [orElse].
  - split; [now rewrite objReplace_keys|].
    split; [intros k' v'; apply objReplace_In|].
    rewrite (objReplace_sum k (old + u) old o E). ring.
  - apply tableGet_None in E.
    destruct (arrayIndex k) as [i|].
    + split; [now apply objPutIndex_NoDup|].
      split; [intros k' v'; apply objPutIndex_In|].
      rewrite objPutIndex_sum. ring.
    + split.
      { rewrite map_app. cbn [map fst]. apply NoDup_app. split; [exact Hnd|].
        split; [|apply NoDup_cons; split; [intros H; inversion H|constructor]].
        intros x Hx Hk. apply list_elem_of_In in Hx.
        apply list_elem_of_In in Hk. destruct Hk as [<-|[]]. exact (E Hx). }
      split.
      { intros k' v' H. apply in_app_iff in H as [H|[H|[]]];
          [now right|injection H as <- <-; now left]. }
      rewrite sumShares_app. unfold sumShares. cbn. ring.
Qed.

Lemma toUpperCase_nonempty (s : string) : s <> "" -> toUpperCase s <> "".
Proof. destruct s; [congruence|discriminate]. Qed.

Lemma normalizedCode_nonempty (c : string) : c <> "" -> normalizedCode c <> "".
Proof.
  intros H. unfold normalizedCode.
  destruct (String.eqb c "FT"); [discriminate|].
  destruct (String.eqb c "ST"); [discriminate|exact H].
Qed.

(** A turn of the first loop, by what it counts of the record. *)
Lemma loadRow_eq (familyAgg : gmap Z FamilyAgg) (typeAgg : gmap Z TypeAgg)
  (row : ArsenalRow) :
  loadRow (familyAgg, typeAgg) row
  = match rowFamily row with
    | None => (familyAgg, typeAgg)
    | Some (id, family, code, usage) =>
      let fa := (familyAgg !! id) ?? mkFamilyAgg 0 0 0 0 in
      let ta :=
        (typeAgg !! id) ?? mkTypeAgg (mkFamilyTypes [] [] []) (mkMix 0 0 0) in
      let codes := ftGet (ta_codes ta) family in
      (<[id := match family with
               | fastball => mkFamilyAgg (fa_fastball fa + usage)
                               (fa_breaking fa) (fa_change fa)
                               (fa_total fa + usage)
               | breaking => mkFamilyAgg (fa_fastball fa)
                               (fa_breaking fa + usage) (fa_change fa)
                               (fa_total fa + usage)
               | change => mkFamilyAgg (fa_fastball fa) (fa_breaking fa)
                             (fa_change fa + usage) (fa_total fa + usage)
               end]> familyAgg,
       <[id := mkTypeAgg
                 (ftSet (ta_codes ta) family
                    (objSet codes code ((tableGet codes code ?? 0) + usage)))
                 (mixAdd (ta_totalByFamily ta) family usage)]> typeAgg)
    end.
Proof.
  unfold loadRow, rowFamily.
  destruct (row_player_id row) as [id|]; [|reflexivity].
  destruct (row_pitch_type row) as [pt|]; [|reflexivity].
  destruct (row_pitch_usage row) as [u|]; [|reflexivity].
  destruct ((id =? 0)%Z || negb (truthy (Some pt))); [reflexivity|].
  cbv zeta.
  assert (E : (if String.eqb
                    (if String.eqb (toUpperCase pt) "FT" then "SI"
                     else toUpperCase pt) "ST"
               then "SW"
               else if String.eqb (toUpperCase pt) "FT" then "SI"
                    else toUpperCase pt)
              = normalizedCode (toUpperCase pt)).
  { unfold normalizedCode.
    destruct (String.eqb (toUpperCase pt) "FT"); reflexivity. }
  rewrite E.
  destruct (mapPitchCodeToBucket (Some (normalizedCode (toUpperCase pt))));
    reflexivity.
Qed.

Lemma rowFamily_ok (row : ArsenalRow) (id : Z) (family : Family)
  (code : string) (usage : Q) :
  rowFamily row = Some (id, family, code, usage) ->
  id <> 0%Z /\ code <> "" /\ mapPitchCodeToBucket (Some code) = Some family /\
  row_pitch_usage row = Some usage.
Proof.
  unfold rowFamily.
  destruct (row_player_id row) as [id'|]; [|discriminate].
  destruct (row_pitch_type row) as [pt|]; [|discriminate].
  destruct (row_pitch_usage row) as [u|]; [|discriminate].
  destruct (id' =? 0)%Z eqn:Ei; [discriminate|]. cbn [orb].
  destruct (truthy (Some pt)) eqn:Et; [|discriminate]. cbn [negb].
  cbv zeta.
  destruct (mapPitchCodeToBucket (Some (normalizedCode (toUpperCase pt))))
    as [f|] eqn:Ef; [|discriminate].
  intros H. injection H as <- <- <- <-.
  split; [now apply Z.eqb_neq|]. split; [|now split].
  apply normalizedCode_nonempty, toUpperCase_nonempty.
  cbn in Et. apply negb_true_iff, String.eqb_neq in Et. exact Et.
Qed.

Lemma usageOf_snoc (pid : Z) (fam : Family) (records : list ArsenalRow)
  (row : ArsenalRow) :
  usageOf pid fam (records ++ [row])
  = match rowFamily row with
    | Some (id, family, _, usage) =>
      if bool_decide (id = pid) && bool_decide (family = fam)
      then usageOf pid fam records + usage else usageOf pid fam records
    | None => usageOf pid fam records
    end.
Proof. unfold usageOf. now rewrite fold_left_app. Qed.

Lemma usagesNonneg_snoc (records : list ArsenalRow) (row : ArsenalRow) :
  usagesNonneg (records ++ [row]) ->
  usagesNonneg records /\
  forall u, row_pitch_usage row = Some u -> 0 <= u.
Proof.
  intros H. split.
  - intros r u Hr. apply H. apply in_app_iff. now left.
  - intros u. apply H. apply in_app_iff. right. now left.
Qed.

(** What holds of the two aggregates after the first loop. *)
Lemma loadRows_inv (records : list ArsenalRow) (id : Z) :
  match fst (fold_left loadRow records (∅, ∅)) !! id,
        snd (fold_left loadRow records (∅, ∅)) !! id with
  | Some fa, Some ta =>
    id <> 0%Z /\
    fa_fastball fa = usageOf id fastball records /\
    fa_breaking fa = usageOf id breaking records /\
    fa_change fa = usageOf id change records /\
    fa_total fa == fa_fastball fa + fa_breaking fa + fa_change fa /\
    forall fam,
      NoDup (map fst (ftGet (ta_codes ta) fam)) /\
      (forall k v,
          In (k, v) (ftGet (ta_codes ta) fam) ->
          k <> "" /\ mapPitchCodeToBucket (Some k) = Some fam /\
          (usagesNonneg records -> 0 <= v)) /\
      mixGet (ta_totalByFamily ta) fam == sumShares (ftGet (ta_codes ta) fam) /\
      mixGet (ta_totalByFamily ta) fam = usageOf id fam records
  | None, None => forall fam, usageOf id fam records = 0
  | _, _ => False
  end.
Proof.
  induction records as [|row records IH] using rev_ind.
  - cbn. rewrite !lookup_empty. reflexivity.
  - rewrite fold_left_app. cbn [fold_left].
    destruct (fold_left loadRow records (∅, ∅)) as [familyAgg typeAgg].
    cbn [fst snd] in IH. rewrite loadRow_eq.
    destruct (rowFamily row) as [[[[id' family] code] usage]|] eqn:Erow.
    2:{ cbn [fst snd].
        assert (Hu : forall fam,
                   usageOf id fam (records ++ [row]) = usageOf id fam records).
        { intros fam. now rewrite usageOf_snoc, Erow. }
        destruct (familyAgg !! id) as [fa|], (typeAgg !! id) as [ta|];
          try exact IH.
        - destruct IH as (H0 & H1 & H2 & H3 & H4 & H5).
          split; [exact H0|]. rewrite !Hu.
          split; [exact H1|]. split; [exact H2|]. split; [exact H3|].
          split; [exact H4|].
          intros fam. rewrite Hu. destruct (H5 fam) as (N & K & S1 & S2).
          split; [exact N|]. split; [|split; [exact S1|exact S2]].
          intros k v Hin. destruct (K k v Hin) as (K1 & K2 & K3).
          split; [exact K1|]. split; [exact K2|].
          intros Hnn. apply K3. now apply usagesNonneg_snoc in Hnn.
        - intros fam. rewrite Hu. apply IH. }
    destruct (rowFamily_ok row id' family code usage Erow)
      as (Hid & Hcode & Hfam & Husage).
    cbv zeta. cbn [fst snd].
    destruct (decide (id' = id)) as [->|Hne].
    2:{ rewrite !lookup_insert_ne by exact Hne.
        assert (Hu : forall fam,
                   usageOf id fam (records ++ [row]) = usageOf id fam records).
        { intros fam. rewrite usageOf_snoc, Erow.
          rewrite (bool_decide_eq_false_2 (id' = id)) by exact Hne.
          reflexivity. }
        destruct (familyAgg !! id) as [fa|], (typeAgg !! id) as [ta|];
          try exact IH.
        - destruct IH as (H0 & H1 & H2 & H3 & H4 & H5).
          split; [exact H0|]. rewrite !Hu.
          split; [exact H1|]. split; [exact H2|]. split; [exact H3|].
          split; [exact H4|].
          intros fam. rewrite Hu. destruct (H5 fam) as (N & K & S1 & S2).
          split; [exact N|]. split; [|split; [exact S1|exact S2]].
          intros k v Hin. destruct (K k v Hin) as (K1 & K2 & K3).
          split; [exact K1|]. split; [exact K2|].
          intros Hnn. apply K3. now apply usagesNonneg_snoc in Hnn.
        - intros fam. rewrite Hu. apply IH. }
    rewrite !lookup_insert_eq.
    assert (Hu : forall fam,
               usageOf id fam (records ++ [row])
               = if bool_decide (family = fam)
                 then usageOf id fam records + usage
                 else usageOf id fam records).
    { intros fam. rewrite usageOf_snoc, Erow.
      rewrite (bool_decide_eq_true_2 (id = id)) by reflexivity.
      reflexivity. }
    (* the aggregates before the record *)
    assert (Hold :
      fa_fastball ((familyAgg !! id) ?? mkFamilyAgg 0 0 0 0)
      = usageOf id fastball records /\
      fa_breaking ((familyAgg !! id) ?? mkFamilyAgg 0 0 0 0)
      = usageOf id breaking records /\
      fa_change ((familyAgg !! id) ?? mkFamilyAgg 0 0 0 0)
      = usageOf id change records /\
      fa_total ((familyAgg !! id) ?? mkFamilyAgg 0 0 0 0)
      == fa_fastball ((familyAgg !! id) ?? mkFamilyAgg 0 0 0 0)
         + fa_breaking ((familyAgg !! id) ?? mkFamilyAgg 0 0 0 0)
         + fa_change ((familyAgg !! id) ?? mkFamilyAgg 0 0 0 0) /\
      forall fam,
        let ta := (typeAgg !! id)
                    ?? mkTypeAgg (mkFamilyTypes [] [] []) (mkMix 0 0 0) in
        NoDup (map fst (ftGet (ta_codes ta) fam)) /\
        (forall k v,
            In (k, v) (ftGet (ta_codes ta) fam) ->
            k <> "" /\ mapPitchCodeToBucket (Some k) = Some fam /\
            (usagesNonneg records -> 0 <= v)) /\
        mixGet (ta_totalByFamily ta) fam
        == sumShares (ftGet (ta_codes ta) fam) /\
        mixGet (ta_totalByFamily ta) fam = usageOf id fam records).
    { destruct (familyAgg !! id) as [fa|], (typeAgg !! id) as [ta|];
        cbn [orElse]; try (exfalso; exact IH).
      - destruct IH as (H0 & H1 & H2 & H3 & H4 & H5).
        split; [exact H1|]. split; [exact H2|]. split; [exact H3|].
        split; [exact H4|]. exact H5.
      - cbn. rewrite !IH. split; [reflexivity|]. split; [reflexivity|].
        split; [reflexivity|]. split; [reflexivity|].
        intros fam. cbv zeta. rewrite IH. destruct fam; cbn;
          (split; [apply NoDup_nil_2|]); (split; [intros k v []|]);
          (split; reflexivity). }
    set (fa := (familyAgg !! id) ?? mkFamilyAgg 0 0 0 0) in *.
    set (ta := (typeAgg !! id)
                 ?? mkTypeAgg (mkFamilyTypes [] [] []) (mkMix 0 0 0)) in *.
    clearbody fa ta. clear IH.
    destruct Hold as (H1 & H2 & H3 & H4 & H5). cbv zeta in H5.
    split; [exact Hid|].
    rewrite !Hu.
    split; [destruct family; cbn; now rewrite ?H1|].
    split; [destruct family; cbn; now rewrite ?H2|].
    split; [destruct family; cbn; now rewrite ?H3|].
    split; [destruct family; cbn; rewrite H4; ring|].
    intros fam. rewrite Hu. cbn [ta_codes ta_totalByFamily].
    destruct (H5 fam) as (N & K & S1 & S2).
    destruct (decide (family = fam)) as [->|Hnf].
    + rewrite (bool_decide_eq_true_2 (fam = fam)) by reflexivity.
      assert (Eg : forall t v, ftGet (ftSet t fam v) fam = v)
        by (intros t v; destruct fam; reflexivity).
      assert (Em : forall m u, mixGet (mixAdd m fam u) fam = mixGet m fam + u)
        by (intros m u; destruct fam; reflexivity).
      rewrite Eg, Em.
      destruct (objSet_spec (ftGet (ta_codes ta) fam) code usage N)
        as (N' & K' & S').
      split; [exact N'|]. split; [|split; [rewrite S', S1; reflexivity
                                          |now rewrite S2]].
      intros k v Hin. destruct (K' k v Hin) as [[-> ->]|Hold].
      * split; [exact Hcode|]. split; [exact Hfam|].
        intros Hnn. apply usagesNonneg_snoc in Hnn as [Hnn Hrow].
        specialize (Hrow usage Husage).
        destruct (tableGet (ftGet (ta_codes ta) fam) code) as [old|] eqn:Eo;
          cbn [orElse]; [|lra].
        apply tableGet_Some_In in Eo. destruct (K _ _ Eo) as (_ & _ & Ho).
        specialize (Ho Hnn). lra.
      * destruct (K k v Hold) as (K1 & K2 & K3).
        split; [exact K1|]. split; [exact K2|].
        intros Hnn. apply K3. now apply usagesNonneg_snoc in Hnn.
    + rewrite (bool_decide_eq_false_2 (family = fam)) by exact Hnf.
      assert (Eg : forall t v, ftGet (ftSet t family v) fam = ftGet t fam)
        by (intros t v; destruct family, fam; try reflexivity; congruence).
      assert (Em : forall m u, mixGet (mixAdd m family u) fam = mixGet m fam)
        by (intros m u; destruct family, fam; try reflexivity; congruence).
      rewrite Eg, Em.
      split; [exact N|]. split; [|split; [exact S1|exact S2]].
      intros k v Hin. destruct (K k v Hin) as (K1 & K2 & K3).
      split; [exact K1|]. split; [exact K2|].
      intros Hnn. apply K3. now apply usagesNonneg_snoc in Hnn.
Qed.

Lemma usageOf_nonneg (pid : Z) (fam : Family) (records : list ArsenalRow) :
  usagesNonneg records -> 0 <= usageOf pid fam records.
Proof.
  induction records as [|row records IH] using rev_ind; intros Hnn.
  - unfold usageOf. cbn. lra.
  - apply usagesNonneg_snoc in Hnn as [Hnn Hrow]. specialize (IH Hnn).
    rewrite usageOf_snoc.
    destruct (rowFamily row) as [[[[id family] code] usage]|] eqn:Erow;
      [|exact IH].
    destruct (rowFamily_ok row id family code usage Erow) as (_ & _ & _ & Hu).
    specialize (Hrow usage Hu).
    destruct (bool_decide (id = pid) && bool_decide (family = fam)); lra.
Qed.

Lemma normalizedCodes_keys (totalFam : Q) (codes : list (string * Q)) :
  map fst (normalizedCodes totalFam codes) = map fst codes.
Proof.
  unfold normalizedCodes. induction codes as [|[k u] rest IH]; cbn;
    [reflexivity|now rewrite IH].
Qed.

Lemma normalizedCodes_In (totalFam : Q) (codes : list (string * Q))
  (k : string) (v : Q) :
  In (k, v) (normalizedCodes totalFam codes) ->
  exists u, In (k, u) codes /\
            v = if Qeq_bool totalFam 0 then 0 else u / totalFam.
Proof.
  unfold normalizedCodes. intros H. apply in_map_iff in H as [[k' u] [E Hin]].
  injection E as <- <-. now exists u.
Qed.

Lemma normalizedCodes_sum (totalFam : Q) (codes : list (string * Q)) :
  sumShares (normalizedCodes totalFam codes)
  == if Qeq_bool totalFam 0 then 0 else sumShares codes / totalFam.
Proof.
  unfold normalizedCodes, sumShares.
  destruct (Qeq_bool totalFam 0) eqn:E.
  - induction codes as [|[k u] rest IH]; cbn; [reflexivity|].
    rewrite IH. ring.
  - apply Qeq_bool_neq in E.
    induction codes as [|[k u] rest IH]; cbn; [now field|].
    rewrite IH. now field.
Qed.

Lemma sumShares_bound (codes : list (string * Q)) :
  (forall k v, In (k, v) codes -> 0 <= v) ->
  forall k v, In (k, v) codes -> v <= sumShares codes.
Proof.
  induction codes as [|[k0 v0] rest IH]; intros Hnn k v Hin; [destruct Hin|].
  assert (Hrest : forall k v, In (k, v) rest -> 0 <= v)
    by (intros k' v' H; apply (Hnn k' v'); now right).
  assert (H0 : 0 <= v0) by (apply (Hnn k0); now left).
  assert (Hs : 0 <= sumShares rest).
  { clear -Hrest. induction rest as [|[k1 v1] rest IH]; unfold sumShares; cbn;
      [lra|].
    assert (0 <= v1) by (apply (Hrest k1); now left).
    assert (0 <= sumShares rest)
      by (apply IH; intros k' v' H'; apply (Hrest k' v'); now right).
    unfold sumShares in *. lra. }
  unfold sumShares in *. cbn [fold_right snd].
  destruct Hin as [E|Hin]; [injection E as <- <-; lra|].
  specialize (IH Hrest k v Hin). lra.
Qed.

(** The two tables at a pitcher, by the usage that the file counts for them. *)
Lemma loader_tables (records : list ArsenalRow) (pid : Z) :
  let total := usageOf pid fastball records + usageOf pid breaking records
               + usageOf pid change records in
  let tables := loadPitcherArsenalFromCSV (Some records) in
  (total == 0 /\ fst tables !! pid = None /\ snd tables !! pid = None) \/
  (~ total == 0 /\ pid <> 0%Z /\
   fst tables !! pid
   = Some (normalize (mkMix (usageOf pid fastball records)
                            (usageOf pid breaking records)
                            (usageOf pid change records))) /\
   exists codes : Family -> list (string * Q),
     snd tables !! pid
     = Some (mkFamilyTypes
               (normalizedCodes (usageOf pid fastball records)
                                (codes fastball))
               (normalizedCodes (usageOf pid breaking records)
                                (codes breaking))
               (normalizedCodes (usageOf pid change records)
                                (codes change))) /\
     forall fam,
       NoDup (map fst (codes fam)) /\
       (forall k v,
           In (k, v) (codes fam) ->
           k <> "" /\ mapPitchCodeToBucket (Some k) = Some fam /\
           (usagesNonneg records -> 0 <= v)) /\
       usageOf pid fam records == sumShares (codes fam)).
Proof.
  cbv zeta. unfold loadPitcherArsenalFromCSV.
  pose proof (loadRows_inv records pid) as Inv.
  destruct (fold_left loadRow records (∅, ∅)) as [familyAgg typeAgg].
  cbv zeta. cbn [fst snd] in *. rewrite lookup_omap. setoid_rewrite map_lookup_imap.
  destruct (familyAgg !! pid) as [fa|]; simpl.
  - destruct (typeAgg !! pid) as [ta|]; [|contradiction].
    destruct Inv as (H0 & H1 & H2 & H3 & H4 & H5).
    destruct (Qeq_bool (fa_total fa) 0) eqn:E.
    + left. apply Qeq_bool_iff in E.
      split; [now rewrite <- H1, <- H2, <- H3, <- H4|].
      split; reflexivity.
    + right. apply Qeq_bool_neq in E.
      split; [now rewrite <- H1, <- H2, <- H3, <- H4|]. split; [exact H0|].
      split; [now rewrite H1, H2, H3|].
      exists (ftGet (ta_codes ta)). split.
      * destruct (H5 fastball) as (_ & _ & _ & Sf).
        destruct (H5 breaking) as (_ & _ & _ & Sb).
        destruct (H5 change) as (_ & _ & _ & Sc).
        cbn [mixGet] in Sf, Sb, Sc. rewrite <- Sf, <- Sb, <- Sc. reflexivity.
      * intros fam. destruct (H5 fam) as (N & K & S1 & S2).
        split; [exact N|]. split; [exact K|]. now rewrite <- S2.
  - destruct (typeAgg !! pid) as [ta|]; [contradiction|].
    left. rewrite !Inv. split; [reflexivity|]. split; reflexivity.
Qed.

(** The entries of the type-usage table at a pitcher. *)
Lemma type_usage_entries (records : list ArsenalRow) (pid : Z) :
  let tables := loadPitcherArsenalFromCSV (Some records) in
  match snd tables !! pid with
  | Some t =>
    fst tables !! pid <> None /\
    forall fam,
      NoDup (map fst (ftGet t fam)) /\
      (forall k v,
          In (k, v) (ftGet t fam) ->
          k <> "" /\ mapPitchCodeToBucket (Some k) = Some fam /\
          (usagesNonneg records -> 0 <= v /\ v <= 1)) /\
      if Qeq_bool (usageOf pid fam records) 0
      then forall k v, In (k, v) (ftGet t fam) -> v = 0
      else sumShares (ftGet t fam) == 1
  | None => fst tables !! pid = None
  end.
Proof.
  cbv zeta.
  destruct (loader_tables records pid)
    as [(_ & Ha & ->)|(_ & _ & Ha & codes & -> & Hc)]; [exact Ha|].
  split; [now rewrite Ha|].
  intros fam. destruct (Hc fam) as (N & K & S).
  assert (E : ftGet (mkFamilyTypes
                       (normalizedCodes (usageOf pid fastball records)
                                        (codes fastball))
                       (normalizedCodes (usageOf pid breaking records)
                                        (codes breaking))
                       (normalizedCodes (usageOf pid change records)
                                        (codes change))) fam
              = normalizedCodes (usageOf pid fam records) (codes fam))
    by (destruct fam; reflexivity).
  rewrite E. clear E.
  split; [now rewrite normalizedCodes_keys|]. split.
  - intros k v Hin. apply normalizedCodes_In in Hin as (u & Hin & ->).
    destruct (K k u Hin) as (K1 & K2 & K3).
    split; [exact K1|]. split; [exact K2|].
    intros Hnn. destruct (Qeq_bool (usageOf pid fam records) 0) eqn:E; [lra|].
    apply Qeq_bool_neq in E.
    assert (Hu : u <= sumShares (codes fam)).
    { apply (sumShares_bound (codes fam)) with (k := k); [|exact Hin].
      intros k' v' H'. now apply (K k' v' H'). }
    pose proof (usageOf_nonneg pid fam records Hnn) as Ht.
    specialize (K3 Hnn). rewrite <- S in Hu.
    assert (Hpos : 0 < usageOf pid fam records).
    { apply Qle_lteq in Ht as [Ht|Ht]; [exact Ht|].
      exfalso. apply E. now symmetry. }
    split.
    + apply Qle_shift_div_l; [exact Hpos|lra].
    + apply Qle_shift_div_r; [exact Hpos|lra].
  - pose proof (normalizedCodes_sum (usageOf pid fam records) (codes fam))
      as Hs.
    destruct (Qeq_bool (usageOf pid fam records) 0) eqn:E.
    + intros k v Hin. apply normalizedCodes_In in Hin as (u & _ & ->).
      now rewrite E.
    + rewrite Hs, <- S. apply Qeq_bool_neq in E. now field.
Qed.

(** The code and the share of a family with the table of a file. *)
Lemma loaded_code_share (records : list ArsenalRow) (fam : Family)
  (pid : option Z) :
  let usage := snd (loadPitcherArsenalFromCSV (Some records)) in
  let code := pickSpecificPitchCode usage fam pid in
  mapPitchCodeToBucket (Some code) = Some fam /\
  0 < typeShare usage pid fam code /\
  (usagesNonneg records -> typeShare usage pid fam code <= 1).
Proof.
  cbv zeta. unfold pickSpecificPitchCode, typeShare. cbv zeta.
  assert (Hfb : mapPitchCodeToBucket
                  (Some match fam with
                        | fastball => "FF"
                        | breaking => "SL"
                        | change => "CH"
                        end) = Some fam)
    by (destruct fam; reflexivity).
  assert (H1 : (0 < 1.0) /\ (1.0 <= 1)) by (split; lra).
  destruct (famUsageOf (snd (loadPitcherArsenalFromCSV (Some records))) pid
              fam) as [entries|] eqn:Hu.
  2:{ split; [exact Hfb|]. split; [apply H1|intros _; apply H1]. }
  destruct pid as [p|]; [|discriminate]. cbn [famUsageOf] in Hu.
  pose proof (type_usage_entries records p) as Ht. cbv zeta in Ht.
  destruct (snd (loadPitcherArsenalFromCSV (Some records)) !! p) as [t|];
    [|discriminate].
  cbn [option_map] in Hu. injection Hu as <-.
  destruct Ht as (_ & Ht). destruct (Ht fam) as (N & K & _).
  assert (Hshare : forall c,
             0 < match tableGet (ftGet t fam) c with
                 | Some share => if Qgtb share 0 then share else 1.0
                 | None => 1.0
                 end /\
             (usagesNonneg records ->
              match tableGet (ftGet t fam) c with
              | Some share => if Qgtb share 0 then share else 1.0
              | None => 1.0
              end <= 1)).
  { intros c. destruct (tableGet (ftGet t fam) c) as [share|] eqn:Eg;
      [|split; [apply H1|intros _; apply H1]].
    apply tableGet_Some_In in Eg. destruct (K c share Eg) as (_ & _ & Kv).
    destruct (Qgtb share 0) eqn:Egt;
      [|split; [apply H1|intros _; apply H1]].
    apply Qgtb_gt in Egt. split; [exact Egt|]. intros Hnn. now apply Kv. }
  destruct (0 <? List.length (ftGet t fam))%nat;
    [|split; [exact Hfb|split; [apply H1|intros _; apply H1]]].
  split; [|apply Hshare].
  pose proof (bestEntry_fold (ftGet t fam) (None, -1)) as Hb.
  cbv zeta in Hb. destruct Hb as (_ & _ & [Hb|(k & Hk & Hin & _)]).
  - unfold bestEntry. rewrite Hb. exact Hfb.
  - unfold bestEntry. rewrite Hk. destruct (K _ _ Hin) as (Kne & Kb & _).
    cbn [truthy orElse]. apply String.eqb_neq in Kne. rewrite Kne. exact Kb.
Qed.

(** X19.  The arsenal table that [loadPitcherArsenalFromCSV] builds from the
    records of a file has no entry for the id 0.  When no record carries a
    negative usage, a pitcher has an entry exactly when some usage counted for
    them is positive: the entry then has three shares between 0 and 1 that
    add up to 1 within 1e-6, and without an entry the usage counted for each
    family is zero. *)
Theorem arsenal_table_shares (records : list ArsenalRow) (pid : Z) :
  let arsenal := fst (loadPitcherArsenalFromCSV (Some records)) in
  let total := usageOf pid fastball records + usageOf pid breaking records
               + usageOf pid change records in
  match arsenal !! pid with
  | Some m =>
    pid <> 0%Z /\
    (usagesNonneg records -> 0 < total /\ proportions m /\ sumsToOne m)
  | None =>
    usagesNonneg records -> forall fam, usageOf pid fam records == 0
  end.
Proof.
  cbv zeta.
  pose proof (usageOf_nonneg pid fastball records) as Nf.
  pose proof (usageOf_nonneg pid breaking records) as Nb.
  pose proof (usageOf_nonneg pid change records) as Nc.
  destruct (loader_tables records pid)
    as [(HT & -> & _)|(HT & H0 & -> & _)].
  - intros Hnn fam. specialize (Nf Hnn). specialize (Nb Hnn).
    specialize (Nc Hnn). destruct fam; lra.
  - split; [exact H0|]. intros Hnn.
    specialize (Nf Hnn). specialize (Nb Hnn). specialize (Nc Hnn).
    set (f := usageOf pid fastball records) in *.
    set (b := usageOf pid breaking records) in *.
    set (c := usageOf pid change records) in *.
    assert (Hpos : 0 < f + b + c).
    { assert (Hle : 0 <= f + b + c) by lra.
      apply Qle_lteq in Hle as [Hlt|He]; [exact Hlt|].
      exfalso. apply HT. now symmetry. }
    split; [exact Hpos|].
    apply distribution_proportions.
    + apply normalize_nonneg. unfold nonneg. cbn. repeat split; assumption.
    + rewrite <- mixSum_eq. apply normalize_sum_one. unfold mixSum. cbn. lra.
Qed.

(** X20.  The type-usage table that [loadPitcherArsenalFromCSV] builds has an
    entry for a pitcher only when the arsenal table has one.  In each family
    of the entry every code appears once, is not empty and is a code that
    [mapPitchCodeToBucket] puts in that family.  When no record carries a
    negative usage, every share lies between 0 and 1, and the shares of a
    family are all 0 or add up to 1 within 1e-6. *)
Theorem type_usage_table (records : list ArsenalRow) (pid : Z) :
  let tables := loadPitcherArsenalFromCSV (Some records) in
  match snd tables !! pid with
  | Some t =>
    fst tables !! pid <> None /\
    forall fam,
      NoDup (map fst (ftGet t fam)) /\
      (forall k v,
          In (k, v) (ftGet t fam) ->
          k <> "" /\ mapPitchCodeToBucket (Some k) = Some fam /\
          (usagesNonneg records -> 0 <= v /\ v <= 1)) /\
      (usagesNonneg records ->
       (forall k v, In (k, v) (ftGet t fam) -> v = 0) \/
       sharesSumToOne (ftGet t fam))
  | None => fst tables !! pid = None
  end.
Proof.
  cbv zeta. pose proof (type_usage_entries records pid) as H.
  cbv zeta in H.
  destruct (snd (loadPitcherArsenalFromCSV (Some records)) !! pid) as [t|];
    [|exact H].
  destruct H as [Ha H]. split; [exact Ha|].
  intros fam. destruct (H fam) as (N & K & S).
  split; [exact N|]. split; [exact K|].
  intros _. destruct (Qeq_bool (usageOf pid fam records) 0).
  - left. exact S.
  - right. unfold sharesSumToOne. rewrite S.
    assert (E : 1 - 1 == 0) by ring. rewrite E. discriminate.
Qed.

(** X21.  With the type-usage table of any file, the specific pitch that
    [getLikelySpecificPitch] names for a mix is in the best family of the
    mix, and its code is one that [mapPitchCodeToBucket] puts in that family;
    its probability is that of the family times a share that is positive,
    and at most 1 when no record carries a negative usage.  The same holds of
    [getOptimalSpecificPitch] and the family of a recommendation. *)
Theorem loaded_specific_pitch (records : list ArsenalRow) (ctx : option Ctx) :
  let usage := snd (loadPitcherArsenalFromCSV (Some records)) in
  (forall mix,
      exists sp share,
        getLikelySpecificPitch usage (Some mix) ctx = Some sp /\
        sp_family sp = pickBest mix /\
        mapPitchCodeToBucket (Some (sp_code sp)) = Some (sp_family sp) /\
        sp_probability sp = mixGet mix (sp_family sp) * share /\
        0 < share /\ (usagesNonneg records -> share <= 1)) /\
  (forall opt,
      exists sp share,
        getOptimalSpecificPitch usage (Some opt) ctx = Some sp /\
        sp_family sp = o_best opt /\
        mapPitchCodeToBucket (Some (sp_code sp)) = Some (sp_family sp) /\
        sp_probability sp = mixGet (o_mix opt) (sp_family sp) * share /\
        0 < share /\ (usagesNonneg records -> share <= 1)).
Proof.
  cbv zeta. split.
  - intros mix.
    destruct (loaded_code_share records (pickBest mix)
                (option_map pitcherId ctx)) as (Hb & Hp & Hl).
    cbv zeta in Hb, Hp, Hl. eexists. eexists.
    split; [reflexivity|]. cbn [sp_family sp_code sp_probability].
    split; [reflexivity|]. split; [exact Hb|]. split; [reflexivity|].
    split; [exact Hp|exact Hl].
  - intros opt.
    destruct (loaded_code_share records (o_best opt)
                (option_map pitcherId ctx)) as (Hb & Hp & Hl).
    cbv zeta in Hb, Hp, Hl. eexists. eexists.
    split; [reflexivity|]. cbn [sp_family sp_code sp_probability].
    split; [reflexivity|]. split; [exact Hb|]. split; [reflexivity|].
    split; [exact Hp|exact Hl].
Qed.

(** ** The returned distributions *)














